(** * VRC World Opener: the content script's detection-and-injection pipeline

    A shallow embedding of the content script (text normalisation, world-name
    extraction, link resolution, post processing, the mutation watcher, the
    settings handler and the click handlers of the controls), of the world
    search of the background script and of the settings of the popup,
    together with the properties stated about them. *)

From Stdlib Require Import ZArith Arith Lia.
From stdpp Require Import gmap strings list.

Local Open Scope Z_scope.

(** ** JavaScript strings

    A JavaScript string is a sequence of UTF-16 code units.  Literals of the
    source are written as Rocq strings (UTF-8 bytes) and converted. *)

Abbreviation jsstring := (list Z).

Fixpoint bytes_of_string (s : string) : list Z :=
  match s with
  | EmptyString => []
  | String a s' => Z.of_N (Ascii.N_of_ascii a) :: bytes_of_string s'
  end.

(** Code points of a well-formed UTF-8 byte sequence. *)
Fixpoint utf8_decode (bs : list Z) : list Z :=
  match bs with
  | [] => []
  | b0 :: t0 =>
    if b0 <? 0x80 then b0 :: utf8_decode t0
    else match t0 with
    | [] => []
    | b1 :: t1 =>
      if b0 <? 0xE0 then ((b0 - 0xC0) * 64 + (b1 - 0x80)) :: utf8_decode t1
      else match t1 with
      | [] => []
      | b2 :: t2 =>
        if b0 <? 0xF0
        then ((b0 - 0xE0) * 4096 + (b1 - 0x80) * 64 + (b2 - 0x80)) :: utf8_decode t2
        else match t2 with
        | [] => []
        | b3 :: t3 =>
          ((b0 - 0xF0) * 262144 + (b1 - 0x80) * 4096 + (b2 - 0x80) * 64 + (b3 - 0x80))
            :: utf8_decode t3
        end
      end
    end
  end.

Definition utf16_encode_cp (cp : Z) : jsstring :=
  if cp <? 0x10000 then [cp]
  else [0xD800 + (cp - 0x10000) / 0x400; 0xDC00 + (cp - 0x10000) mod 0x400].

Definition code_points (s : string) : list Z := utf8_decode (bytes_of_string s).

(** The JavaScript string denoted by a source literal. *)
Definition js (s : string) : jsstring := flat_map utf16_encode_cp (code_points s).

Definition is_high_surrogate (c : Z) : bool := (0xD800 <=? c) && (c <=? 0xDBFF).
Definition is_low_surrogate (c : Z) : bool := (0xDC00 <=? c) && (c <=? 0xDFFF).

Definition in_range (lo hi c : Z) : bool := (lo <=? c) && (c <=? hi).

(** ECMAScript LineTerminator and WhiteSpace (the set matched by [\s] and
    removed by [String.prototype.trim]). *)
Definition is_line_terminator (c : Z) : bool :=
  (c =? 0x0A) || (c =? 0x0D) || (c =? 0x2028) || (c =? 0x2029).

Definition is_space (c : Z) : bool :=
  in_range 0x09 0x0D c || (c =? 0x20) || (c =? 0xA0) || (c =? 0x1680)
  || in_range 0x2000 0x200A c || (c =? 0x2028) || (c =? 0x2029)
  || (c =? 0x202F) || (c =? 0x205F) || (c =? 0x3000) || (c =? 0xFEFF).

Fixpoint drop_while {A} (p : A -> bool) (l : list A) : list A :=
  match l with
  | [] => []
  | x :: l' => if p x then drop_while p l' else l
  end.

(** [String.prototype.trim] *)
Definition trim (s : jsstring) : jsstring :=
  rev (drop_while is_space (rev (drop_while is_space s))).

Fixpoint starts_with (p s : jsstring) : bool :=
  match p, s with
  | [], _ => true
  | _ :: _, [] => false
  | a :: p', b :: s' => (a =? b) && starts_with p' s'
  end.

(** [String.prototype.includes] *)
Fixpoint includes (s p : jsstring) : bool :=
  starts_with p s ||
  match s with
  | [] => false
  | _ :: s' => includes s' p
  end.

(** Truthiness of a string value: the empty string is falsy. *)
Definition nonempty (s : jsstring) : bool :=
  match s with [] => false | _ => true end.

(** Truthiness of a string-or-null value. *)
Definition truthy (o : option jsstring) : bool :=
  match o with Some s => nonempty s | None => false end.

(** ** Regular expressions

    The patterns of the source are values of [regex]; [matcher] is the
    backtracking matcher of ECMA-262 (continuation passing, alternatives tried
    left to right, greedy and lazy quantifiers, the empty-iteration check). *)

Inductive cclass : Type :=
| CChar (c : Z)                 (* a literal character *)
| CRange (lo hi : Z)            (* [lo-hi] *)
| CSpace                        (* \s *)
| CAny                          (* . *)
| CUnion (a b : cclass)         (* members of a bracketed class *)
| CNot (a : cclass).            (* [^...] *)

Inductive regex : Type :=
| Eps
| Chr (c : cclass)
| Seq (a b : regex)
| Alt (a b : regex)
| Quant (min : nat) (max : option nat) (greedy : bool) (a : regex)
| Group (n : nat) (a : regex)
| Bol                           (* ^ *)
| Eol.                          (* $ *)

Record flags := Flags { ignoreCase : bool; multiline : bool; unicode : bool }.

(** Matcher state: the code units before the current position (most recent
    first), those after it, the number of code units consumed since the start
    of the match attempt, and the captures recorded so far. *)
Record mstate := MState {
  before : jsstring;
  after : jsstring;
  consumed : nat;
  caps : list (nat * jsstring)
}.

Definition cont := mstate -> option mstate.

(** Case folding.  Canonicalize of ECMA-262 maps a character to its upper
    case unless that would turn a character of code 128 or more into an ASCII
    one.  The cased characters of the source's patterns are ASCII letters, and
    their other characters (full-width colon, brackets, kana, white space) are
    neither the source nor the target of a case mapping, so two characters
    have the same canonical form exactly when they are equal or are the two
    cases of one ASCII letter. *)
Definition swap_case (c : Z) : Z :=
  if in_range 0x61 0x7A c then c - 32
  else if in_range 0x41 0x5A c then c + 32 else c.

Fixpoint class_mem (cl : cclass) (c : Z) : bool :=
  match cl with
  | CChar a => a =? c
  | CRange lo hi => in_range lo hi c
  | CSpace => is_space c
  | CAny => negb (is_line_terminator c)
  | CUnion a b => class_mem a c || class_mem b c
  | CNot a => negb (class_mem a c)
  end.

(** With the [i] flag a character matches when a member of the class has the
    same canonical form. *)
Definition class_matches (fl : flags) (cl : cclass) (c : Z) : bool :=
  if ignoreCase fl then class_mem cl c || class_mem cl (swap_case c)
  else class_mem cl c.

Definition advance1 (c : Z) (rest : jsstring) (s : mstate) : mstate :=
  MState (c :: before s) rest (S (consumed s)) (caps s).

Definition advance2 (c d : Z) (rest : jsstring) (s : mstate) : mstate :=
  MState (d :: c :: before s) rest (S (S (consumed s))) (caps s).

(** The character at the current position: a code unit, or with the [u] flag
    a code point (a well-formed surrogate pair counts as one character). *)
Definition read (fl : flags) (s : mstate) : option (Z * mstate) :=
  match after s with
  | [] => None
  | c :: rest =>
    if unicode fl && is_high_surrogate c then
      match rest with
      | d :: rest' =>
        if is_low_surrogate d
        then Some (0x10000 + (c - 0xD800) * 0x400 + (d - 0xDC00), advance2 c d rest' s)
        else Some (c, advance1 c rest s)
      | [] => Some (c, advance1 c rest s)
      end
    else Some (c, advance1 c rest s)
  end.

(** The text consumed between two states of one match attempt. *)
Definition captured (s s' : mstate) : jsstring :=
  rev (take (consumed s' - consumed s) (before s')).

Definition set_cap (n : nat) (w : jsstring) (s : mstate) : mstate :=
  MState (before s) (after s) (consumed s) ((n, w) :: caps s).

Definition at_bol (fl : flags) (s : mstate) : bool :=
  match before s with
  | [] => true
  | c :: _ => multiline fl && is_line_terminator c
  end.

Definition at_eol (fl : flags) (s : mstate) : bool :=
  match after s with
  | [] => true
  | c :: _ => multiline fl && is_line_terminator c
  end.

Definition dec_max (mx : option nat) : option nat :=
  match mx with Some n => Some (Nat.pred n) | None => None end.

Definition max_is_zero (mx : option nat) : bool :=
  match mx with Some O => true | _ => false end.

(** RepeatMatcher of ECMA-262.  [ma] is the matcher of the quantified atom.
    Once [min] is exhausted an iteration that consumes nothing is rejected,
    so the number of iterations is at most [min] plus the number of remaining
    code units; [fuel] is initialised above that bound. *)
Fixpoint repeatMatcher (ma : cont -> cont) (fuel : nat) (mn : nat)
    (mx : option nat) (greedy : bool) (k : cont) (x : mstate) : option mstate :=
  match fuel with
  | O => None
  | S fuel' =>
    if max_is_zero mx then k x
    else
      let d : cont := fun y =>
        if Nat.eqb mn 0 && Nat.eqb (consumed y) (consumed x) then None
        else repeatMatcher ma fuel' (Nat.pred mn) (dec_max mx) greedy k y in
      match mn with
      | S _ => ma d x
      | O =>
        if greedy then
          match ma d x with
          | Some z => Some z
          | None => k x
          end
        else
          match k x with
          | Some z => Some z
          | None => ma d x
          end
      end
  end.

Definition repeat_fuel (mn : nat) (s : mstate) : nat :=
  (mn + length (after s) + 1)%nat.

(** No pattern of the source has a capture group under a quantifier, so the
    per-iteration reset of such captures is not modelled. *)
Fixpoint matcher (fl : flags) (r : regex) (k : cont) (s : mstate) {struct r}
    : option mstate :=
  match r with
  | Eps => k s
  | Chr cl =>
    match read fl s with
    | Some (c, s') => if class_matches fl cl c then k s' else None
    | None => None
    end
  | Seq a b => matcher fl a (matcher fl b k) s
  | Alt a b =>
    match matcher fl a k s with
    | Some z => Some z
    | None => matcher fl b k s
    end
  | Quant mn mx g a =>
    repeatMatcher (matcher fl a) (repeat_fuel mn s) mn mx g k s
  | Group n a =>
    matcher fl a (fun s' => k (set_cap n (captured s s') s')) s
  | Bol => if at_bol fl s then k s else None
  | Eol => if at_eol fl s then k s else None
  end.

Definition accept : cont := fun s => Some s.

Record match_result := MatchResult {
  m_prefix : jsstring;          (* the text before the match, reversed *)
  m_end : mstate                (* the state at the end of the match *)
}.

Definition m_index (r : match_result) : nat := length (m_prefix r).

Fixpoint lookup_cap (n : nat) (l : list (nat * jsstring)) : option jsstring :=
  match l with
  | [] => None
  | (i, w) :: l' => if Nat.eqb i n then Some w else lookup_cap n l'
  end.

(** [match[n]] for [n >= 1]; [None] is [undefined]. *)
Definition capture (n : nat) (r : match_result) : option jsstring :=
  lookup_cap n (caps (m_end r)).

(** RegExpBuiltinExec for a regex without the [g] flag, from the position
    that splits the input into [bef] (reversed) and [aft]: the first start
    position at which the matcher succeeds wins.  With the [u] flag the start
    position advances by code point. *)
Fixpoint exec_from (fl : flags) (r : regex) (bef aft : jsstring)
    : option match_result :=
  match matcher fl r accept (MState bef aft 0 []) with
  | Some z => Some (MatchResult bef z)
  | None =>
    match aft with
    | [] => None
    | c :: aft' =>
      match aft' with
      | d :: aft'' =>
        if unicode fl && is_high_surrogate c && is_low_surrogate d
        then exec_from fl r (d :: c :: bef) aft''
        else exec_from fl r (c :: bef) aft'
      | [] => exec_from fl r (c :: bef) aft'
      end
    end
  end.

(** [text.match(re)] for a regex without the [g] flag. *)
Definition regex_match (fl : flags) (r : regex) (text : jsstring)
    : option match_result :=
  exec_from fl r [] text.

(** [text.replace(re, '')] for a regex without the [g] flag. *)
Definition replace_first (fl : flags) (r : regex) (text : jsstring) : jsstring :=
  match regex_match fl r text with
  | Some res => rev (m_prefix res) ++ after (m_end res)
  | None => text
  end.

(** [text.replace(re, '')] for a regex with the [g] flag.  [skip] counts the
    code units still to pass over without a match attempt: those of a match
    being removed ([keep = false]), or the low half of a surrogate pair at
    which a [u]-mode attempt failed ([keep = true]). *)
Fixpoint replace_all_from (fl : flags) (r : regex) (skip : nat) (keep : bool)
    (bef aft : jsstring) : jsstring :=
  match aft with
  | [] => []
  | c :: aft' =>
    match skip with
    | S n =>
      (if keep then cons c else id) (replace_all_from fl r n keep (c :: bef) aft')
    | O =>
      let pair :=
        match aft' with
        | d :: _ => unicode fl && is_high_surrogate c && is_low_surrogate d
        | [] => false
        end in
      match matcher fl r accept (MState bef aft 0 []) with
      | Some z =>
        match consumed z with
        | S n => replace_all_from fl r n false (c :: bef) aft'
        | O =>
          c :: replace_all_from fl r (if pair then 1 else 0) true (c :: bef) aft'
        end
      | None =>
        c :: replace_all_from fl r (if pair then 1 else 0) true (c :: bef) aft'
      end
    end
  end.

Definition replace_all (fl : flags) (r : regex) (text : jsstring) : jsstring :=
  replace_all_from fl r 0 true [] text.

(** Pattern syntax helpers. *)
Fixpoint seq_of (l : list regex) : regex :=
  match l with
  | [] => Eps
  | [r] => r
  | r :: l' => Seq r (seq_of l')
  end.

Fixpoint alt_of (l : list regex) : regex :=
  match l with
  | [] => Eps
  | [r] => r
  | r :: l' => Alt r (alt_of l')
  end.

Fixpoint class_of (l : list Z) : cclass :=
  match l with
  | [] => CRange 1 0
  | [c] => CChar c
  | c :: l' => CUnion (CChar c) (class_of l')
  end.

(** A literal: one character matcher per code unit, or per code point for a
    pattern with the [u] flag. *)
Definition lit (s : string) : regex := seq_of (map (fun c => Chr (CChar c)) (js s)).
Definition lit_u (s : string) : regex :=
  seq_of (map (fun c => Chr (CChar c)) (code_points s)).
Definition set (s : string) : cclass := class_of (js s).

Definition star (r : regex) : regex := Quant 0 None true r.
Definition plus (r : regex) : regex := Quant 1 None true r.
Definition plus_lazy (r : regex) : regex := Quant 1 None false r.
Definition opt (r : regex) : regex := Quant 0 (Some 1%nat) true r.
Definition times (n : nat) (r : regex) : regex := Quant n (Some n) true r.

Definition LF : regex := Chr (CChar 0x0A).
Definition CR : regex := Chr (CChar 0x0D).
Definition ws : regex := Chr CSpace.
Definition dot : regex := Chr CAny.

(** ** Constants of the content script *)

Definition PROCESSED_ATTR : string := "data-vrchat-world-linker-processed".
Definition VRCHAT_WEB_BASE : jsstring := js "https://vrchat.com/home".
Definition DEBOUNCE_DELAY_MS : Z := 300.
Definition TARGET_HASHTAG : jsstring := js "#vrchat_world紹介".

Definition KEY_EXTENSION_ENABLED : string := "extensionEnabled".
Definition KEY_SHOW_OPEN_BTN : string := "showOpenBtn".
Definition KEY_SHOW_SEARCH_BTN : string := "showSearchBtn".

Definition ACTION_SEARCH_WORLD : jsstring := js "searchWorld".
Definition ACTION_UPDATE_SETTINGS : jsstring := js "updateSettings".

Definition BUTTON_TEXT_DEFAULT : jsstring := js "🔗 ワールドを開く".
Definition BUTTON_TEXT_SEARCH_ONLY : jsstring := js "🔍 ワールド名で検索".

(** The terminator shared by the colon and space forms:
    [(?:\s*$|\s*#|\n|<)]. *)
Definition line_end : regex :=
  alt_of [Seq (star ws) Eol; Seq (star ws) (lit "#"); LF; lit "<"].

Definition colon : regex := Chr (set ":：").
Definition open_brackets : cclass := set "『「【(（".
Definition close_brackets : cclass := set "』」】)）".

Definition fl_none : flags := Flags false false false.
Definition fl_i : flags := Flags true false false.
Definition fl_u : flags := Flags false false true.
Definition fl_im : flags := Flags true true false.

(** WORLD_PATTERNS, in the order of the source. *)
Definition WORLD_PATTERNS : list (flags * regex) := [
  (* /World\s*[:：]\s*(.+?)(?:\s*$|\s*#|\n|<)/i *)
  (fl_i, seq_of [lit "World"; star ws; colon; star ws;
                 Group 1 (plus_lazy dot); line_end]);
  (* /World\s*[『「【\(（](.+?)[』」】\)）]/i *)
  (fl_i, seq_of [lit "World"; star ws; Chr open_brackets;
                 Group 1 (plus_lazy dot); Chr close_brackets]);
  (* /(?:🌐|🌍|🌎|🌏|🗺️)\s*(.+?)(?:\s*$|\s*#|\r?\n|\r|<)/u *)
  (fl_u, seq_of [alt_of [lit_u "🌐"; lit_u "🌍"; lit_u "🌎"; lit_u "🌏"; lit_u "🗺️"];
                 star ws; Group 1 (plus_lazy dot);
                 alt_of [Seq (star ws) Eol; Seq (star ws) (lit_u "#");
                         Seq (opt CR) LF; CR; lit_u "<"]]);
  (* /ワールド(?:名)?\s*[:：]\s*(.+?)(?:\s*$|\s*#|\n|<)/ *)
  (fl_none, seq_of [lit "ワールド"; opt (lit "名"); star ws; colon; star ws;
                    Group 1 (plus_lazy dot); line_end]);
  (* /ワールド(?:名)?[\s　]+(.+?)(?:\s*$|\s*#|\n|<)/ *)
  (fl_none, seq_of [lit "ワールド"; opt (lit "名");
                    plus (Chr (CUnion CSpace (CChar 0x3000)));
                    Group 1 (plus_lazy dot); line_end]);
  (* /World\s*name\s*[:：]\s*(.+?)(?:\s*$|\s*#|\n|<)/i *)
  (fl_i, seq_of [lit "World"; star ws; lit "name"; star ws; colon; star ws;
                 Group 1 (plus_lazy dot); line_end]);
  (* /^(.+?)\n+By\s/im *)
  (fl_im, seq_of [Bol; Group 1 (plus_lazy dot); plus LF; lit "By"; ws]);
  (* /^(.+?)\n+Author\s*[:：]?\s/im *)
  (fl_im, seq_of [Bol; Group 1 (plus_lazy dot); plus LF; lit "Author";
                  star ws; opt colon; ws])
].

(** The clean-up of a raw capture (lines 151-161 of the content script). *)
Definition strip_hashtag (w : jsstring) : jsstring :=
  (* /\s*#.*$/ *)
  replace_first fl_none (seq_of [star ws; lit "#"; star dot; Eol]) w.

Definition strip_brackets (w : jsstring) : jsstring :=
  (* /[』」】\)）]+$/ *)
  replace_first fl_none (Seq (plus (Chr close_brackets)) Eol) w.

Definition strip_emoji (w : jsstring) : jsstring :=
  (* /[\u{1F300}-\u{1F9FF}]/gu *)
  replace_all fl_u (Chr (CRange 0x1F300 0x1F9FF)) w.

Definition strip_surrogates (w : jsstring) : jsstring :=
  (* /[\uD800-\uDFFF]/g *)
  replace_all fl_none (Chr (CRange 0xD800 0xDFFF)) w.

Definition cleanup (raw : jsstring) : jsstring :=
  let worldName := trim raw in
  let worldName := trim (strip_hashtag worldName) in
  let worldName := trim (strip_brackets worldName) in
  let worldName := trim (strip_emoji worldName) in
  let worldName := trim (strip_surrogates worldName) in
  worldName.

(** The loop of [extractWorldName] over a pattern list. *)
Fixpoint extractWith (patterns : list (flags * regex)) (text : jsstring)
    : option jsstring :=
  match patterns with
  | [] => None
  | (fl, pattern) :: rest =>
    match regex_match fl pattern text with
    | Some m =>
      if truthy (capture 1 m) then
        let worldName := cleanup (default [] (capture 1 m)) in
        if (0 <? length worldName)%nat then Some worldName
        else extractWith rest text
      else extractWith rest text
    | None => extractWith rest text
    end
  end.

Definition extractWorldName (text : jsstring) : option jsstring :=
  if negb (nonempty text) then None
  else extractWith WORLD_PATTERNS text.

(** [wrld_[a-f0-9-]{36}] *)
Definition hex_or_hyphen : cclass :=
  CUnion (CRange 0x61 0x66) (CUnion (CRange 0x30 0x39) (CChar 0x2D)).

Definition world_id : regex := Seq (lit "wrld_") (times 36 (Chr hex_or_hyphen)).

(* /vrchat\.com\/home\/world\/(wrld_[a-f0-9-]{36})/i *)
Definition path_form : regex := Seq (lit "vrchat.com/home/world/") (Group 1 world_id).

(* /[?&]worldId=(wrld_[a-f0-9-]{36})/i *)
Definition query_form : regex :=
  seq_of [Chr (set "?&"); lit "worldId="; Group 1 world_id].

Definition extractWorldIdFromUrl (url : jsstring) : option jsstring :=
  if negb (nonempty url) then None
  else
    match regex_match fl_i path_form url with
    | Some m => capture 1 m
    | None =>
      match regex_match fl_i query_form url with
      | Some m => capture 1 m
      | None => None
      end
    end.

(** [encodeURIComponent]: [None] stands for the URIError thrown on a lone
    surrogate. *)
Definition uri_unreserved (c : Z) : bool :=
  in_range 0x41 0x5A c || in_range 0x61 0x7A c || in_range 0x30 0x39 c
  || class_mem (set "-_.!~*'()") c.

Definition hex_digit (d : Z) : Z := if d <? 10 then 0x30 + d else 0x41 + (d - 10).

Definition percent (octet : Z) : jsstring :=
  [0x25; hex_digit (octet / 16); hex_digit (octet mod 16)].

Definition utf8_encode_cp (cp : Z) : list Z :=
  if cp <? 0x80 then [cp]
  else if cp <? 0x800 then [0xC0 + cp / 64; 0x80 + cp mod 64]
  else if cp <? 0x10000
    then [0xE0 + cp / 4096; 0x80 + (cp / 64) mod 64; 0x80 + cp mod 64]
  else [0xF0 + cp / 262144; 0x80 + (cp / 4096) mod 64;
        0x80 + (cp / 64) mod 64; 0x80 + cp mod 64].

Fixpoint encodeURIComponent (s : jsstring) : option jsstring :=
  match s with
  | [] => Some []
  | c :: rest =>
    if uri_unreserved c then option_map (cons c) (encodeURIComponent rest)
    else if is_low_surrogate c then None
    else if is_high_surrogate c then
      match rest with
      | d :: rest' =>
        if is_low_surrogate d then
          option_map
            (app (flat_map percent
                    (utf8_encode_cp (0x10000 + (c - 0xD800) * 0x400 + (d - 0xDC00)))))
            (encodeURIComponent rest')
        else None
      | [] => None
      end
    else option_map (app (flat_map percent (utf8_encode_cp c)))
                    (encodeURIComponent rest)
  end.

(** [safeEncodeURIComponent]; the [catch] branch encodes the ASCII part of the
    string. *)
Definition safeEncodeURIComponent (str : jsstring) : option jsstring :=
  if negb (nonempty str) then Some []
  else
    match encodeURIComponent (replace_all fl_none (Chr (CRange 0xD800 0xDFFF)) str) with
    | Some r => Some r
    | None =>
      encodeURIComponent (replace_all fl_none (Chr (CNot (CRange 0x00 0x7F))) str)
    end.

(** ** The document

    Elements carry their tag name, attributes, click listeners and child
    nodes.  [ident] is the identity of an element of the host page, used to
    find the element again in a document that has changed meanwhile; elements
    created by the script have none, they are never looked up.  The [href]
    attribute of an anchor holds the resolved URL that the [href] property
    returns. *)

Inductive listener : Type :=
| ClickOpen (worldName : jsstring)      (* the listener of createLinkButton *)
| ClickSearch (worldName : jsstring).   (* the listener of createSearchButton *)

#[local] Unset Elimination Schemes.
Inductive node : Type :=
| TextNode (data : jsstring)
| CommentNode (data : jsstring)
| Element (ident : option nat) (tagName : string)
          (attrs : gmap string jsstring) (listeners : list listener)
          (childNodes : list node).
#[local] Set Elimination Schemes.

(** A document, given by its top-level nodes. *)
Abbreviation document := (list node).

Inductive selector : Type :=
| SelAttrEq (name : string) (value : jsstring)   (* [name="value"] *)
| SelHasAttr (name : string)                     (* [name] *)
| SelClass (cls : jsstring)                      (* .cls *)
| SelTag (tag : string).                         (* tag *)

Definition SEL_TWEET : selector := SelAttrEq "data-testid" (js "tweet").
Definition SEL_TWEET_TEXT : selector := SelAttrEq "data-testid" (js "tweetText").
Definition SEL_ACTION_BAR : selector := SelAttrEq "role" (js "group").
Definition SEL_BTN : selector := SelClass (js "vrchat-world-link-btn").
Definition SEL_CONTAINER : selector := SelClass (js "vrchat-world-link-container").
Definition SEL_PROCESSED : selector := SelHasAttr PROCESSED_ATTR.
Definition SEL_ANCHOR : selector := SelTag "A".

Definition is_ascii_space (c : Z) : bool :=
  (c =? 0x20) || (c =? 0x09) || (c =? 0x0A) || (c =? 0x0C) || (c =? 0x0D).

(** The tokens of a [class] attribute. *)
Fixpoint class_tokens (cur : jsstring) (s : jsstring) : list jsstring :=
  match s with
  | [] => match cur with [] => [] | _ => [rev cur] end
  | c :: s' =>
    if is_ascii_space c
    then match cur with [] => class_tokens [] s' | _ => rev cur :: class_tokens [] s' end
    else class_tokens (c :: cur) s'
  end.

Definition getAttribute (name : string) (n : node) : option jsstring :=
  match n with
  | Element _ _ attrs _ _ => attrs !! name
  | _ => None
  end.

Definition hasAttribute (name : string) (n : node) : bool :=
  bool_decide (is_Some (getAttribute name n)).

Definition setAttribute (name : string) (value : jsstring) (n : node) : node :=
  match n with
  | Element i t attrs ls cs => Element i t (<[name := value]> attrs) ls cs
  | _ => n
  end.

Definition removeAttribute (name : string) (n : node) : node :=
  match n with
  | Element i t attrs ls cs => Element i t (delete name attrs) ls cs
  | _ => n
  end.

(** A reflected string property ([alt], [title], [href]): the attribute, or
    the empty string. *)
Definition prop (name : string) (n : node) : jsstring :=
  default [] (getAttribute name n).

Definition matches (sel : selector) (n : node) : bool :=
  match n with
  | Element _ tag attrs _ _ =>
    match sel with
    | SelAttrEq name value => bool_decide (attrs !! name = Some value)
    | SelHasAttr name => bool_decide (is_Some (attrs !! name))
    | SelClass cls =>
      bool_decide (cls ∈ class_tokens [] (default [] (attrs !! "class")))
    | SelTag t => bool_decide (tag = t)
    end
  | _ => false
  end.

(** The descendants of a node, in document order. *)
Fixpoint descendants (n : node) : list node :=
  match n with
  | Element _ _ _ _ cs => flat_map (fun c => c :: descendants c) cs
  | _ => []
  end.

Definition querySelectorAll (sel : selector) (n : node) : list node :=
  filter (fun d => matches sel d = true) (descendants n).

Definition querySelector (sel : selector) (n : node) : option node :=
  head (querySelectorAll sel n).

(** [textContent] of a node. *)
Fixpoint textContent (n : node) : jsstring :=
  match n with
  | TextNode d => d
  | CommentNode _ => []
  | Element _ _ _ _ cs => flat_map textContent cs
  end.

(** [parent.insertBefore(new, ref)] where [ref] is the first descendant of
    [n] that matches [sel]; [None] when there is none. *)
Fixpoint insertBeforeFirst (sel : selector) (new : node) (n : node) : option node :=
  match n with
  | Element i t a ls cs =>
    option_map (Element i t a ls)
      ((fix go (l : list node) : option (list node) :=
          match l with
          | [] => None
          | c :: l' =>
            if matches sel c then Some (new :: c :: l')
            else match insertBeforeFirst sel new c with
                 | Some c' => Some (c' :: l')
                 | None => option_map (cons c) (go l')
                 end
          end) cs)
  | _ => None
  end.

(** [traverse] of [getTextWithEmoji]: text nodes contribute their content, an
    IMG element with a non-empty [alt] contributes it, and the children of
    every element are visited in order. *)
Fixpoint traverse (n : node) : jsstring :=
  match n with
  | TextNode d => d
  | CommentNode _ => []
  | Element _ tag _ _ cs =>
    (if bool_decide (tag = "IMG") && nonempty (prop "alt" n) then prop "alt" n else [])
    ++ flat_map traverse cs
  end.

Definition getTextWithEmoji (element : option node) : jsstring :=
  match element with
  | None => []
  | Some e => traverse e
  end.

(** ** Controls *)

Definition attrs_of (l : list (string * jsstring)) : gmap string jsstring :=
  list_to_map l.

(** [createLinkButton] *)
Definition createLinkButton (worldName : jsstring) : node :=
  Element None "BUTTON"
    (attrs_of [
       ("class", js "vrchat-world-link-btn");
       ("title", [0x22] ++ worldName ++ [0x22] ++ js " をVRChatで検索");
       ("aria-label", worldName ++ js " のワールドページを開く")])
    [ClickOpen worldName]
    [TextNode BUTTON_TEXT_DEFAULT].

(** [createSearchButton] *)
Definition createSearchButton (worldName : jsstring) : node :=
  Element None "BUTTON"
    (attrs_of [
       ("class", js "vrchat-world-link-btn search-only-btn");
       ("title", [0x22] ++ worldName ++ [0x22] ++ js " をVRChatの検索ページで開く");
       ("aria-label", worldName ++ js " の検索ページを開く");
       ("style", js "margin-left: 8px;")])
    [ClickSearch worldName]
    [TextNode BUTTON_TEXT_SEARCH_ONLY].

(** What a click on a control does first: open a page, or ask the background
    script to search for a world. *)
Inductive effect : Type :=
| WindowOpen (url : jsstring)
| SendSearchWorld (worldName : jsstring).

(** The click listeners.  The "open" listener reads [dataset.worldId] of its
    button when it runs. *)
Definition on_click (button : node) (l : listener) : effect :=
  match l with
  | ClickOpen worldName =>
    if nonempty (prop "data-world-id" button)
    then WindowOpen (VRCHAT_WEB_BASE ++ js "/world/" ++ prop "data-world-id" button)
    else SendSearchWorld worldName
  | ClickSearch worldName =>
    (* openSearchPage *)
    WindowOpen (VRCHAT_WEB_BASE ++ js "/search/worlds/"
                ++ default [] (safeEncodeURIComponent worldName))
  end.

Definition click (button : node) : list effect :=
  match button with
  | Element _ _ _ ls _ => map (on_click button) ls
  | _ => []
  end.

(** ** Post processing *)

(** The loop of [processTweet] over the anchors of the post: per anchor the
    URL, the visible text and the title are tried in that order. *)
Fixpoint findWorldId (links : list node) : option jsstring :=
  match links with
  | [] => None
  | link :: rest =>
    let hrefId := extractWorldIdFromUrl (prop "href" link) in
    if truthy hrefId then hrefId
    else
      let textId := extractWorldIdFromUrl (textContent link) in
      if truthy textId then textId
      else
        let titleId := extractWorldIdFromUrl (prop "title" link) in
        if truthy titleId then titleId
        else findWorldId rest
  end.

(** The "open" control of [processTweet] (part A), if any. *)
Definition openControl (worldName foundWorldId : option jsstring) : option node :=
  match foundWorldId with
  | Some id =>
    if nonempty id then
      Some (setAttribute "title" (js "ポスト内のリンクから検出されたワールドを開く")
             (setAttribute "data-world-id" id
               (createLinkButton (js "このワールド"))))
    else if truthy worldName then option_map createLinkButton worldName else None
  | None =>
    if truthy worldName then option_map createLinkButton worldName else None
  end.

(** The container built by [processTweet] and its controls (parts A and B). *)
Definition controlGroup (showOpenBtn showSearchBtn : bool)
    (worldName foundWorldId : option jsstring) : node :=
  Element None "DIV"
    (attrs_of [("class", js "vrchat-world-link-container")]) []
    ((if showOpenBtn
      then match openControl worldName foundWorldId with
           | Some openBtn => [openBtn]
           | None => []
           end
      else [])
     ++
     (if showSearchBtn && truthy worldName
      then [createSearchButton (default [] worldName)]
      else [])).

Definition hasChildNodes (n : node) : bool :=
  match n with
  | Element _ _ _ _ (_ :: _) => true
  | _ => false
  end.

(** The local variables of [processTweet] as functions of the post: its
    normalised text, the extracted name and the identifier found in its
    links. *)
Definition tweetText_of (tweetElement : node) : jsstring :=
  getTextWithEmoji (querySelector SEL_TWEET_TEXT tweetElement).

Definition worldName_of (tweetElement : node) : option jsstring :=
  extractWorldName (tweetText_of tweetElement).

Definition foundWorldId_of (tweetElement : node) : option jsstring :=
  findWorldId (querySelectorAll SEL_ANCHOR tweetElement).

(** Whether the settings and the references of a post give a control. *)
Definition has_controls (so ss : bool) (worldName foundWorldId : option jsstring)
    : bool :=
  (so && (truthy foundWorldId || truthy worldName)) || (ss && truthy worldName).

Section ContentScript.

(** [String.prototype.toLowerCase] of the host, taken as given. *)
Variable toLowerCase : jsstring -> jsstring.

(** [processTweet]: the post after the call. *)
Definition processTweet (showOpenBtn showSearchBtn : bool) (tweetElement : node)
    : node :=
  if hasAttribute PROCESSED_ATTR tweetElement then tweetElement
  else
    let tweetElement := setAttribute PROCESSED_ATTR (js "true") tweetElement in
    match querySelector SEL_TWEET_TEXT tweetElement with
    | None => tweetElement
    | Some tweetTextElement =>
      let tweetText := getTextWithEmoji (Some tweetTextElement) in
      if negb (nonempty tweetText) then tweetElement
      else if negb (includes (toLowerCase tweetText) TARGET_HASHTAG) then tweetElement
      else
        let worldName := extractWorldName tweetText in
        let links := querySelectorAll SEL_ANCHOR tweetElement in
        let foundWorldId := findWorldId links in
        if negb (truthy worldName) && negb (truthy foundWorldId) then tweetElement
        else if bool_decide (is_Some (querySelector SEL_BTN tweetElement))
        then tweetElement
        else
          let container :=
            controlGroup showOpenBtn showSearchBtn worldName foundWorldId in
          if hasChildNodes container then
            match insertBeforeFirst SEL_ACTION_BAR container tweetElement with
            | Some tweetElement' => tweetElement'
            | None => tweetElement
            end
          else tweetElement
    end.

(** The gates of [processTweet]. *)
Definition passes_gates (so ss : bool) (post : node) : bool :=
  negb (hasAttribute PROCESSED_ATTR post)
  && nonempty (tweetText_of post)
  && includes (toLowerCase (tweetText_of post)) TARGET_HASHTAG
  && has_controls so ss (worldName_of post) (foundWorldId_of post)
  && negb (bool_decide (is_Some (querySelector SEL_BTN post)))
  && bool_decide (is_Some (querySelector SEL_ACTION_BAR post)).

(** The Control Group that [processTweet] inserts into a post, if any. *)
Definition inserted (showOpenBtn showSearchBtn : bool) (post : node) : list node :=
  if passes_gates showOpenBtn showSearchBtn post
  then [controlGroup showOpenBtn showSearchBtn (worldName_of post)
                     (foundWorldId_of post)]
  else [].

(** ** The page *)

Definition doc_descendants (d : document) : list node :=
  flat_map (fun c => c :: descendants c) d.

Definition doc_querySelectorAll (sel : selector) (d : document) : list node :=
  filter (fun n => matches sel n = true) (doc_descendants d).

(** Apply [f] to the element of identity [i]. *)
Fixpoint update_at (i : nat) (f : node -> node) (n : node) {struct n} : node :=
  match n with
  | Element j t a ls cs =>
    if bool_decide (j = Some i) then f n
    else Element j t a ls (map (update_at i f) cs)
  | _ => n
  end.

Definition ident_of (n : node) : option nat :=
  match n with
  | Element i _ _ _ _ => i
  | _ => None
  end.

(** [el.remove()] for every element that matches [sel]. *)
Fixpoint remove_all (sel : selector) (n : node) : node :=
  match n with
  | Element i t a ls cs =>
    Element i t a ls
      ((fix go (l : list node) : list node :=
          match l with
          | [] => []
          | c :: l' => if matches sel c then go l' else remove_all sel c :: go l'
          end) cs)
  | _ => n
  end.

Fixpoint doc_remove_all (sel : selector) (d : document) : document :=
  match d with
  | [] => []
  | c :: d' =>
    if matches sel c then doc_remove_all sel d'
    else remove_all sel c :: doc_remove_all sel d'
  end.

(** [el.removeAttribute(name)] for every element. *)
Fixpoint removeAttribute_all (name : string) (n : node) : node :=
  match n with
  | Element i t a ls cs =>
    Element i t (delete name a) ls (map (removeAttribute_all name) cs)
  | _ => n
  end.

Inductive jsval : Type :=
| JUndefined
| JNull
| JBool (b : bool)
| JNumber (z : Z)
| JString (s : jsstring).

(** [obj[key]] *)
Definition get (obj : gmap string jsval) (key : string) : jsval :=
  default JUndefined (obj !! key).

(** [v !== false] *)
Definition not_false (v : jsval) : bool :=
  match v with
  | JBool false => false
  | _ => true
  end.

(** Calls recorded for the properties about scheduling. *)
Inductive call : Type :=
| CallProcessAllTweetsIfEnabled
| CallProcessAllTweets.

(** The state of the content script in its page: the document, the script's
    variables, and the host's timers (identifier and due time of each pending
    timeout set by the script's observer), clock and stored settings
    ([None]: reading the storage fails). *)
Record page := Page {
  doc : document;
  isExtensionEnabled : bool;
  showOpenBtn : bool;
  showSearchBtn : bool;
  debounceTimerId : option nat;
  observing : bool;
  clock : Z;
  timers : list (nat * Z);
  nextTimerId : nat;
  storage : option (gmap string jsval);
  calls : list call
}.

Definition with_doc (d : document) (p : page) : page :=
  Page d (isExtensionEnabled p) (showOpenBtn p) (showSearchBtn p)
       (debounceTimerId p) (observing p) (clock p) (timers p) (nextTimerId p)
       (storage p) (calls p).

Definition with_flags (e o s : bool) (p : page) : page :=
  Page (doc p) e o s (debounceTimerId p) (observing p) (clock p) (timers p)
       (nextTimerId p) (storage p) (calls p).

Definition with_call (c : call) (p : page) : page :=
  Page (doc p) (isExtensionEnabled p) (showOpenBtn p) (showSearchBtn p)
       (debounceTimerId p) (observing p) (clock p) (timers p) (nextTimerId p)
       (storage p) (calls p ++ [c]).

(** The Feed Scanner on a document: the posts found by [querySelectorAll]
    are processed one after the other, each in the document as the earlier
    calls left it. *)
Definition scan (showOpen showSearch : bool) (d : document) : document :=
  fold_left
    (fun d tweet =>
       match ident_of tweet with
       | Some i => map (update_at i (processTweet showOpen showSearch)) d
       | None => d
       end)
    (doc_querySelectorAll SEL_TWEET d) d.

(** One step of the loop of the Feed Scanner. *)
Definition scan_step (so ss : bool) (d : document) (tweet : node) : document :=
  match ident_of tweet with
  | Some i => map (update_at i (processTweet so ss)) d
  | None => d
  end.

(** The elements that [update_at i] changes: the outermost elements of
    identity [i], in document order. *)
Fixpoint targets (i : nat) (n : node) : list node :=
  match n with
  | Element j _ _ _ cs =>
    if bool_decide (j = Some i) then [n] else flat_map (targets i) cs
  | _ => []
  end.

(** [processAllTweets] *)
Definition processAllTweets (p : page) : page :=
  with_doc (scan (showOpenBtn p) (showSearchBtn p) (doc p))
           (with_call CallProcessAllTweets p).

(** [processAllTweetsIfEnabled], with the outcome of the storage read. *)
Definition processAllTweetsIfEnabled (p : page) : page :=
  let p := with_call CallProcessAllTweetsIfEnabled p in
  match storage p with
  | Some result =>
    let p := with_flags (not_false (get result KEY_EXTENSION_ENABLED))
                        (showOpenBtn p) (showSearchBtn p) p in
    if isExtensionEnabled p then processAllTweets p else p
  | None => processAllTweets p
  end.

(** ** The mutation watcher *)

Record mutation := Mutation { addedNodes : list node; removedNodes : list node }.

Definition setTimeout (delay : Z) (p : page) : page :=
  Page (doc p) (isExtensionEnabled p) (showOpenBtn p) (showSearchBtn p)
       (Some (nextTimerId p)) (observing p) (clock p)
       (timers p ++ [(nextTimerId p, clock p + delay)]) (S (nextTimerId p))
       (storage p) (calls p).

Definition clearTimeout (id : nat) (p : page) : page :=
  Page (doc p) (isExtensionEnabled p) (showOpenBtn p) (showSearchBtn p)
       (debounceTimerId p) (observing p) (clock p)
       (filter (fun t => t.1 ≠ id) (timers p)) (nextTimerId p)
       (storage p) (calls p).

(** The callback of the MutationObserver set up by [setupObserver]. *)
Definition on_mutations (mutations : list mutation) (p : page) : page :=
  let shouldProcess :=
    existsb (fun m => (0 <? length (addedNodes m))%nat) mutations in
  if shouldProcess then
    let p := match debounceTimerId p with
             | Some id => clearTimeout id p
             | None => p
             end in
    setTimeout DEBOUNCE_DELAY_MS p
  else p.

Definition setupObserver (p : page) : page :=
  Page (doc p) (isExtensionEnabled p) (showOpenBtn p) (showSearchBtn p)
       (debounceTimerId p) true (clock p) (timers p) (nextTimerId p)
       (storage p) (calls p).

(** The observer watches the child lists of the whole document
    ([childList] and [subtree] on the body), so what the script itself
    inserts comes back to its callback.  The records of one step of the loop
    of the Feed Scanner: one for each Control Group that [processTweet]
    inserts.  Setting the marker changes an attribute and gives no record. *)
Definition step_records (showOpen showSearch : bool) (d : document) (tweet : node)
    : list mutation :=
  match ident_of tweet with
  | Some i =>
    map (fun container => Mutation [container] [])
        (flat_map (inserted showOpen showSearch) (flat_map (targets i) d))
  | None => []
  end.

(** The records of the loop over the posts [tweets], in the order of the
    insertions; each step works on the document as the steps before left
    it. *)
Fixpoint scan_records_from (showOpen showSearch : bool) (tweets : list node)
    (d : document) : list mutation :=
  match tweets with
  | [] => []
  | tweet :: rest =>
    step_records showOpen showSearch d tweet
    ++ scan_records_from showOpen showSearch rest
         (scan_step showOpen showSearch d tweet)
  end.

(** The records of a scan of a document. *)
Definition scan_records (showOpen showSearch : bool) (d : document)
    : list mutation :=
  scan_records_from showOpen showSearch (doc_querySelectorAll SEL_TWEET d) d.

(** The records of a call of [processAllTweetsIfEnabled]: those of its
    scan, when it scans. *)
Definition timer_records (p : page) : list mutation :=
  match storage p with
  | Some result =>
    if not_false (get result KEY_EXTENSION_ENABLED)
    then scan_records (showOpenBtn p) (showSearchBtn p) (doc p)
    else []
  | None => scan_records (showOpenBtn p) (showSearchBtn p) (doc p)
  end.

(** A timeout as the host runs it: the callback
    [processAllTweetsIfEnabled], and once it has returned, the delivery of
    the records of what it inserted to the observer, if one is set up. *)
Definition fire (p : page) : page :=
  let q := processAllTweetsIfEnabled p in
  if observing q then on_mutations (timer_records p) q else q.

(** The pending timeout that is due first; of two due at the same time, the
    one set first. *)
Fixpoint earliest (l : list (nat * Z)) : option (nat * Z) :=
  match l with
  | [] => None
  | tm :: l' =>
    match earliest l' with
    | Some tm' => if bool_decide (tm.2 <= tm'.2) then Some tm else Some tm'
    | None => Some tm
    end
  end.

(** The clock reaches the due time of the timeout [id], which leaves the
    pending ones. *)
Definition pop (id : nat) (due : Z) (p : page) : page :=
  Page (doc p) (isExtensionEnabled p) (showOpenBtn p) (showSearchBtn p)
       (debounceTimerId p) (observing p) (Z.max due (clock p))
       (filter (fun tm => tm.1 ≠ id) (timers p)) (nextTimerId p)
       (storage p) (calls p).

Definition tick (t : Z) (p : page) : page :=
  Page (doc p) (isExtensionEnabled p) (showOpenBtn p) (showSearchBtn p)
       (debounceTimerId p) (observing p) (Z.max t (clock p))
       (timers p) (nextTimerId p) (storage p) (calls p).

(** The timeouts due by [t] fire one after the other, each at its due time,
    those set meanwhile included; at most [fuel] of them. *)
Fixpoint advance (fuel : nat) (t : Z) (p : page) : page :=
  match fuel, earliest (timers p) with
  | S fuel', Some (id, due) =>
    if bool_decide (due <= t)
    then advance fuel' t (fire (pop id due p))
    else tick t p
  | _, _ => tick t p
  end.

(** A bound on the number of timeouts that fire by [t]: a timeout that
    fires leaves the pending ones, and the one its callback sets is due
    later than it was. *)
Definition pending_work (t : Z) (l : list (nat * Z)) : nat :=
  foldr (fun tm n => (Z.to_nat (t + 1 - tm.2) + n)%nat) 0%nat l.

(** The host lets time pass until [t]; the bound is enough for every
    timeout due by then to fire (lemma [advance_to_settles]). *)
Definition advance_to (t : Z) (p : page) : page :=
  advance (pending_work t (timers p)) t p.

(** A mutation batch delivered at time [t]. *)
Definition deliver (p : page) (ev : Z * list mutation) : page :=
  let p := advance_to ev.1 p in
  if observing p then on_mutations ev.2 p else p.

Definition run (evs : list (Z * list mutation)) (p : page) : page :=
  fold_left deliver evs p.

(** ** Messages and initialisation *)

Record request := Request {
  action : jsstring;
  settings : option (gmap string jsval)    (* [None]: no settings object *)
}.

(** The [chrome.runtime.onMessage] listener. *)
Definition on_message (req : request) (p : page) : page :=
  if bool_decide (action req = ACTION_UPDATE_SETTINGS) then
    match settings req with
    | Some settings =>
      let p := with_flags (not_false (get settings KEY_EXTENSION_ENABLED))
                          (not_false (get settings KEY_SHOW_OPEN_BTN))
                          (not_false (get settings KEY_SHOW_SEARCH_BTN)) p in
      let p := with_doc (doc_remove_all SEL_CONTAINER (doc p)) p in
      let p := with_doc (map (removeAttribute_all PROCESSED_ATTR) (doc p)) p in
      if isExtensionEnabled p then processAllTweets p else p
    | None => p
    end
  else p.

(** [init], with the outcome of the storage read. *)
Definition init (p : page) : page :=
  match storage p with
  | Some result =>
    let p := with_flags (not_false (get result KEY_EXTENSION_ENABLED))
                        (not_false (get result KEY_SHOW_OPEN_BTN))
                        (not_false (get result KEY_SHOW_SEARCH_BTN)) p in
    let p := if isExtensionEnabled p then processAllTweets p else p in
    setupObserver p
  | None => setupObserver p
  end.

(** The script's state when it is loaded into a page. *)
Definition initial_page (d : document) (st : option (gmap string jsval)) : page :=
  Page d true true true None false 0 [] 0 st [].

End ContentScript.

(** ** The controls' click handlers

    The listener of the "open" control (createLinkButton) runs in three
    steps: the part up to the search request, the part that settles the
    button once the request is answered or has failed, and the timer that
    resets the button. *)

Definition BUTTON_RESET_DELAY_MS : Z := 2000.
Definition BUTTON_TEXT_LOADING : jsstring := js "🔄 取得中...".
Definition BUTTON_TEXT_SUCCESS : jsstring := js "✅ 開きました".
Definition BUTTON_TEXT_AUTH_REQUIRED : jsstring := js "⚠️ ログインが必要".
Definition BUTTON_TEXT_NOT_FOUND : jsstring := js "❌ 取得に失敗しました".
Definition AUTH_ALERT : jsstring :=
  js "VRChatへのログインが必要です。拡張機能のポップアップからログインしてください。".

(** The answer of the background script to a search request, with the fields
    of its declared result type; an absent field is [false] or [None]. *)
Record reply := Reply {
  r_success : bool;
  r_worldId : option jsstring;
  r_worldName : option jsstring;
  r_needsAuth : bool;
  r_notFound : bool;
  r_error : option jsstring
}.

(** How [chrome.runtime.sendMessage] ends: the promise is rejected, or it
    resolves with a response ([None]: [undefined]). *)
Inductive delivery : Type :=
| Rejected
| Delivered (response : option reply).

(** What a click handler does besides changing its button. *)
Inductive ui_effect : Type :=
| Perform (e : effect)
| Alert (message : jsstring)
| Warn                                  (* console.warn *)
| ResetAfter (delay : Z).               (* setTimeout of the reset *)

(** [button.textContent = text] *)
Definition set_textContent (text : jsstring) (n : node) : node :=
  match n with
  | Element i t a ls _ =>
    Element i t a ls (match text with [] => [] | _ => [TextNode text] end)
  | _ => n
  end.

(** [button.disabled = b]: the boolean attribute is present or absent. *)
Definition set_disabled (b : bool) (n : node) : node :=
  if b then setAttribute "disabled" [] n else removeAttribute "disabled" n.

(** The listener of the "open" control up to its first [await] or
    [return]. *)
Definition open_click_start (button : node) (worldName : jsstring)
    : node * list ui_effect :=
  if nonempty (prop "data-world-id" button) then
    (set_textContent BUTTON_TEXT_SUCCESS button,
     [Perform (on_click button (ClickOpen worldName));
      ResetAfter BUTTON_RESET_DELAY_MS])
  else
    (set_textContent BUTTON_TEXT_LOADING (set_disabled true button),
     [Perform (on_click button (ClickOpen worldName))]).

(** The listener once the search request has ended. *)
Definition open_click_settle (button : node) (d : delivery)
    : node * list ui_effect :=
  match d with
  | Delivered (Some response) =>
    if r_success response && truthy (r_worldId response) then
      (set_textContent BUTTON_TEXT_SUCCESS button,
       [Perform (WindowOpen (VRCHAT_WEB_BASE ++ js "/world/"
                             ++ default [] (r_worldId response)));
        ResetAfter BUTTON_RESET_DELAY_MS])
    else if r_needsAuth response then
      (set_textContent BUTTON_TEXT_AUTH_REQUIRED button,
       [Alert AUTH_ALERT; ResetAfter BUTTON_RESET_DELAY_MS])
    else
      (set_textContent BUTTON_TEXT_NOT_FOUND button,
       [ResetAfter BUTTON_RESET_DELAY_MS])
  | Delivered None =>
    (set_textContent BUTTON_TEXT_NOT_FOUND button,
     [ResetAfter BUTTON_RESET_DELAY_MS])
  | Rejected =>
    (set_textContent BUTTON_TEXT_NOT_FOUND button,
     [Warn; ResetAfter BUTTON_RESET_DELAY_MS])
  end.

(** The reset timer of the path with a known identifier. *)
Definition open_click_reset_known (button : node) : node :=
  set_textContent BUTTON_TEXT_DEFAULT button.

(** The reset timer of the search path. *)
Definition open_click_reset (button : node) : node :=
  set_textContent BUTTON_TEXT_DEFAULT (set_disabled false button).

(** A whole click on an "open" control, its timers included: the button at
    the end and everything done on the way. *)
Definition open_click (button : node) (worldName : jsstring) (d : delivery)
    : node * list ui_effect :=
  let (b1, e1) := open_click_start button worldName in
  if nonempty (prop "data-world-id" button) then (open_click_reset_known b1, e1)
  else
    let (b2, e2) := open_click_settle b1 d in
    (open_click_reset b2, e1 ++ e2).

(** ** The background script: world search *)

(** What [response.json()] gives: it throws, or it gives the parsed value. *)
Inductive json (A : Type) : Type :=
| Throws (message : jsstring)
| Value (a : A).
Arguments Throws {A} message.
Arguments Value {A} a.

(** How a request of [fetchVRChatAPI] ends: [fetch] throws, or there is a
    response with its [ok] flag and its body. *)
Inductive fetched (A : Type) : Type :=
| NetworkError (message : jsstring)
| Response (ok : bool) (data : json A).
Arguments NetworkError {A} message.
Arguments Response {A} ok data.

Record auth_status (U : Type) := AuthStatus {
  isAuthenticated : bool;
  user : option U;
  auth_error : option jsstring
}.
Arguments AuthStatus {U} isAuthenticated user auth_error.
Arguments isAuthenticated {U} a.
Arguments user {U} a.
Arguments auth_error {U} a.

(** [checkAuthStatus], with the outcome of its request.  Errors are caught
    and count as unauthenticated. *)
Definition checkAuthStatus {U} (response : fetched U) : auth_status U :=
  match response with
  | Response true (Value data) => AuthStatus true (Some data) None
  | Response true (Throws message) => AuthStatus false None (Some message)
  | Response false _ => AuthStatus false None None
  | NetworkError message => AuthStatus false None (Some message)
  end.

(** An entry of the search results, with the two fields the script reads,
    both strings; a field may be missing. *)
Record world := World { w_id : option jsstring; w_name : option jsstring }.

(** The parsed body of a search response. *)
Inductive results : Type :=
| NotArray
| Worlds (worlds : list world).

Definition failure (message : jsstring) : reply :=
  Reply false None None false false (Some message).

(** The message of the URIError that [encodeURIComponent] throws in V8. *)
Definition URI_MALFORMED : jsstring := js "URI malformed".

Section Background.

Variable toLowerCase : jsstring -> jsstring.

(** [w => w.name && w.name.toLowerCase() === trimmedName.toLowerCase()] *)
Definition is_exact_match (trimmedName : jsstring) (w : world) : bool :=
  match w_name w with
  | Some name =>
    nonempty name && bool_decide (toLowerCase name = toLowerCase trimmedName)
  | None => false
  end.

(** [Array.prototype.find] *)
Fixpoint find {A} (p : A -> bool) (l : list A) : option A :=
  match l with
  | [] => None
  | x :: rest => if p x then Some x else find p rest
  end.

(** [searchWorld] on a string, with the outcomes of its two requests; the
    search request is made with [encodeURIComponent(trimmedName)] in its
    URL. *)
Definition searchWorld {U} (worldName : jsstring)
    (auth : fetched U) (search : fetched results) : reply :=
  if negb (nonempty worldName) || (length (trim worldName) =? 0)%nat then
    failure (js "ワールド名を入力してください")
  else
    let trimmedName := trim worldName in
    let authStatus := checkAuthStatus auth in
    if negb (isAuthenticated authStatus) then
      Reply false None None true false None
    else
      match encodeURIComponent trimmedName with     (* in the search URL *)
      | None => failure (js "検索エラー: " ++ URI_MALFORMED)
      | Some _ =>
        match search with
        | NetworkError message => failure (js "検索エラー: " ++ message)
        | Response true (Throws message) => failure (js "検索エラー: " ++ message)
        | Response true (Value (Worlds (firstWorld :: rest))) =>
          match find (is_exact_match trimmedName) (firstWorld :: rest) with
          | Some exactMatch =>
            Reply true (w_id exactMatch) (w_name exactMatch) false false None
          | None =>
            Reply true (w_id firstWorld) (w_name firstWorld) false false None
          end
        | Response true (Value _) => Reply false None None false true None
        | Response false _ => failure (js "API リクエストに失敗しました")
        end
      end.

End Background.

(** The argument of [btoa] in [login]: the two encoded credentials around a
    colon; [None] when encoding throws. *)
Definition credentials (username password : jsstring) : option jsstring :=
  match encodeURIComponent username, encodeURIComponent password with
  | Some u, Some p => Some (u ++ [0x3A] ++ p)
  | _, _ => None
  end.

(** ** The popup: settings *)

(** The three toggles; the two button toggles may be missing from the
    popup's document. *)
Record toggles := Toggles {
  enabledToggle : bool;
  showOpenBtnToggle : option bool;
  showSearchBtnToggle : option bool
}.

(** The settings object built by [updateSettings]. *)
Definition popup_settings (t : toggles) : gmap string jsval :=
  <[KEY_EXTENSION_ENABLED := JBool (enabledToggle t)]>
    (<[KEY_SHOW_OPEN_BTN := JBool (default true (showOpenBtnToggle t))]>
       (<[KEY_SHOW_SEARCH_BTN := JBool (default true (showSearchBtnToggle t))]> ∅)).

(** [chrome.storage.local.set(items)]: the items are written over what is
    stored. *)
Definition storage_set (items stored : gmap string jsval) : gmap string jsval :=
  items ∪ stored.

(** [loadSettings], with the outcome of the storage read. *)
Definition loadSettings (result : option (gmap string jsval)) (t : toggles)
    : toggles :=
  match result with
  | Some result =>
    Toggles (not_false (get result KEY_EXTENSION_ENABLED))
            ((fun _ => not_false (get result KEY_SHOW_OPEN_BTN))
               <$> showOpenBtnToggle t)
            ((fun _ => not_false (get result KEY_SHOW_SEARCH_BTN))
               <$> showSearchBtnToggle t)
  | None =>
    Toggles true ((fun _ => true) <$> showOpenBtnToggle t)
            ((fun _ => true) <$> showSearchBtnToggle t)
  end.

(** The message [updateSettings] sends to each tab. *)
Definition settings_message (t : toggles) : request :=
  Request ACTION_UPDATE_SETTINGS (Some (popup_settings t)).

(** ** Notions used to state the properties *)

(** A text matches a sequence of character classes, position by position. *)
Fixpoint chars_match (fl : flags) (l : list cclass) (w : jsstring) : bool :=
  match l, w with
  | [], [] => true
  | c :: l', x :: w' => class_matches fl c x && chars_match fl l' w'
  | _, _ => false
  end.

(** The regex that matches one character per class. *)
Definition chars (l : list cclass) : regex := seq_of (map Chr l).

(** The classes of a literal. *)
Definition literal (s : string) : list cclass := map CChar (js s).

(** A regex without capture groups. *)
Fixpoint group_free (r : regex) : bool :=
  match r with
  | Seq a b | Alt a b => group_free a && group_free b
  | Quant _ _ _ a => group_free a
  | Group _ _ => false
  | _ => true
  end.

(** The run of a lazy quantifier over the characters [w]: the continuation
    fails before each of them and succeeds with [z] after the last. *)
Fixpoint lazy_path (fl : flags) (cl : cclass) (K : cont)
    (bef aft : jsstring) (n : nat) (cs : list (nat * jsstring))
    (w : jsstring) (z : mstate) : Prop :=
  match w with
  | [] => K (MState bef aft n cs) = Some z
  | y :: w' =>
    K (MState bef (y :: w' ++ aft) n cs) = None /\
    class_matches fl cl y = true /\
    lazy_path fl cl K (y :: bef) aft (S n) cs w' z
  end.

(** The class does not match the next character, if there is one. *)
Definition next_misses (fl : flags) (cl : cclass) (aft : jsstring) : Prop :=
  match aft with
  | [] => True
  | x :: _ => class_matches fl cl x = false
  end.

(** The first pattern of WORLD_PATTERNS. *)
Definition colon_form : regex :=
  seq_of [lit "World"; star ws; colon; star ws; Group 1 (plus_lazy dot); line_end].

(** The identifier grammar of the two URL patterns, as the sequence of its
    41 character classes; the patterns carry the [i] flag. *)
Definition ID_GRAMMAR : list cclass := literal "wrld_" ++ replicate 36 hex_or_hyphen.

Definition is_world_id (wid : jsstring) : bool := chars_match fl_i ID_GRAMMAR wid.

(** What precedes the identifier in the two URL patterns. *)
Definition PATH_ANCHOR : list cclass := literal "vrchat.com/home/world/".

Definition QUERY_ANCHOR : list cclass := set "?&" :: literal "worldId=".

(** Both URL patterns are an anchor, a sequence of character classes,
    followed by the capture group. *)
Definition anchored (anchor : list cclass) : regex :=
  Seq (chars anchor) (Group 1 world_id).

(** The characters of candidate identifiers: ASCII letters and digits,
    hyphen and underscore. *)
Definition is_token_char (c : Z) : bool :=
  in_range 0x30 0x39 c || in_range 0x41 0x5A c || in_range 0x61 0x7A c
  || (c =? 0x2D) || (c =? 0x5F).

(** The two URL shapes, ending with a candidate identifier. *)
Definition world_url (cand : jsstring) : jsstring :=
  js "https://vrchat.com/home/world/" ++ cand.

Definition launch_url (cand : jsstring) : jsstring :=
  js "https://vrchat.com/home/launch?worldId=" ++ cand.

(** The positions of [base] at which a text matching the classes [L]
    starts. *)
Definition occurrences (fl : flags) (L : list cclass) (base : jsstring) : list nat :=
  filter (fun i => chars_match fl L (take (length L) (drop i base)) = true)
         (seq 0 (S (length base))).

(** The characters that [[a-f0-9-]] matches under the [i] flag. *)
Definition is_hex_or_hyphen (c : Z) : bool := class_matches fl_i hex_or_hyphen c.

(** What one pattern yields on a text: its capture after clean-up, when the
    pattern matches and the clean-up leaves something. *)
Definition candidate (p : flags * regex) (text : jsstring) : option jsstring :=
  match regex_match p.1 p.2 text with
  | Some m =>
    if truthy (capture 1 m) && nonempty (cleanup (default [] (capture 1 m)))
    then Some (cleanup (default [] (capture 1 m)))
    else None
  | None => None
  end.

(** The post once the Processed Marker is set. *)
Definition mark (tweetElement : node) : node :=
  if hasAttribute PROCESSED_ATTR tweetElement then tweetElement
  else setAttribute PROCESSED_ATTR (js "true") tweetElement.

(** The Control Groups in a post. *)
Definition controlGroups (tweetElement : node) : list node :=
  querySelectorAll SEL_CONTAINER tweetElement.

(** The number of nodes of a list that match a selector. *)
Definition count (q : selector) (l : list node) : nat :=
  length (filter (fun d => matches q d = true) l).

Definition childNodes (n : node) : list node :=
  match n with
  | Element _ _ _ _ cs => cs
  | _ => []
  end.

(** The class that tells a "search" control from an "open" control. *)
Definition SEL_SEARCH_BTN : selector := SelClass (js "search-only-btn").




(** The value a settings flag takes for the stored or delivered object. *)
Definition flag_of (obj : gmap string jsval) (key : string) : bool :=
  match obj !! key with
  | Some (JBool false) => false
  | _ => true
  end.

(** The document once every Control Group is removed and every Processed
    Marker cleared. *)
Definition cleared (d : document) : document :=
  map (removeAttribute_all PROCESSED_ATTR) (doc_remove_all SEL_CONTAINER d).


#[global] Instance call_eq_dec : EqDecision call.
Proof. solve_decision. Defined.

(** The number of Feed Scanner invocations recorded. *)
Definition scanner_invocations (p : page) : nat :=
  length (filter (fun c => c = CallProcessAllTweets) (calls p)).

(** The page has the document and the scanner invocations of [p0], and the
    stored settings [st]. *)
Definition off_like (st : gmap string jsval) (p0 p : page) : Prop :=
  doc p = doc p0 /\ storage p = Some st /\
  scanner_invocations p = scanner_invocations p0.

(** Code units and the alphabets of encoded strings. *)
Definition is_surrogate (c : Z) : bool := in_range 0xD800 0xDFFF c.

Definition is_code_unit (c : Z) : bool := (0 <=? c) && (c <? 0x10000).

Definition url_safe (c : Z) : bool := uri_unreserved c || (c =? 0x25).

Definition is_printable_ascii (c : Z) : bool := (0x21 <=? c) && (c <=? 0x7E).

(** What a single node adds to the text read by [getTextWithEmoji], and to
    [textContent]. *)
Definition is_emoji_image (n : node) : bool :=
  match n with
  | Element _ tag _ _ _ => bool_decide (tag = "IMG") && nonempty (prop "alt" n)
  | _ => false
  end.

Definition contribution (n : node) : jsstring :=
  match n with
  | TextNode d => d
  | CommentNode _ => []
  | Element _ _ _ _ _ => if is_emoji_image n then prop "alt" n else []
  end.

Definition data_of (n : node) : jsstring :=
  match n with TextNode d => d | _ => [] end.

(** The three places of an anchor where an identifier is looked for, in the
    order of the loop. *)
Definition id_sources (link : node) : list jsstring :=
  [prop "href" link; textContent link; prop "title" link].

Definition first_truthy (l : list (option jsstring)) : option jsstring :=
  default None (head (filter (fun o => truthy o = true) l)).

(** Clearing one node as the settings handler clears the document. *)
Definition clear_node (n : node) : node :=
  removeAttribute_all PROCESSED_ATTR (remove_all SEL_CONTAINER n).

(** A function on nodes that the clearing does not see. *)
Definition unseen (f : node -> node) : Prop :=
  forall n, clear_node (f n) = clear_node n /\
            matches SEL_CONTAINER (f n) = matches SEL_CONTAINER n.

(** Every outermost element of identity [i] in [n] carries the marker. *)
Fixpoint settled (i : nat) (n : node) : bool :=
  match n with
  | Element j _ _ _ cs =>
    if bool_decide (j = Some i) then hasAttribute PROCESSED_ATTR n
    else forallb (settled i) cs
  | _ => true
  end.

(** The identity of a post element. *)
Definition tweet_ident (n : node) : option nat :=
  if matches SEL_TWEET n then ident_of n else None.

(** A function on nodes that keeps the identities of the posts. *)
Definition keeps_idents (f : node -> node) : Prop :=
  forall n, tweet_ident (f n) = tweet_ident n /\
            omap tweet_ident (descendants (f n)) = omap tweet_ident (descendants n).

(** What happens in a page: a mutation batch, a message, or time passing. *)
Inductive event : Type :=
| Mutations (t : Z) (batch : list mutation)
| Message (t : Z) (req : request)
| Tick (t : Z).

(** At most one timer is pending, and it is the one the script remembers. *)
Definition one_pending (p : page) : Prop :=
  timers p = [] \/
  exists id due, timers p = [(id, due)] /\ debounceTimerId p = Some id.

Definition page_flags (p : page) : bool * bool * bool :=
  (isExtensionEnabled p, showOpenBtn p, showSearchBtn p).

Section Notions.

Variable toLowerCase : jsstring -> jsstring.

(** The records of what the message listener changes: one for each
    Control Group removed, and those of the scan, when it scans. *)
Definition message_records (req : request) (p : page) : list mutation :=
  if bool_decide (action req = ACTION_UPDATE_SETTINGS) then
    match settings req with
    | Some settings =>
      map (fun c => Mutation [] [c]) (doc_querySelectorAll SEL_CONTAINER (doc p))
      ++ (if not_false (get settings KEY_EXTENSION_ENABLED)
          then scan_records toLowerCase
                 (not_false (get settings KEY_SHOW_OPEN_BTN))
                 (not_false (get settings KEY_SHOW_SEARCH_BTN))
                 (cleared (doc p))
          else [])
    | None => []
    end
  else [].

(** A message as the host delivers it: the listener, and then the delivery
    of the records of its changes to the observer, if one is set up. *)
Definition receive (req : request) (p : page) : page :=
  let q := on_message toLowerCase req p in
  if observing q then on_mutations (message_records req p) q else q.

Definition step (p : page) (ev : event) : page :=
  match ev with
  | Mutations t batch => deliver toLowerCase p (t, batch)
  | Message t req => receive req (advance_to toLowerCase t p)
  | Tick t => advance_to toLowerCase t p
  end.

Definition execute (evs : list event) (p : page) : page := fold_left step evs p.

(** The world that [searchWorld] selects from a result list. *)
Definition selected (trimmedName : jsstring) (worlds : list world) : option world :=
  match find (is_exact_match toLowerCase trimmedName) worlds with
  | Some w => Some w
  | None => head worlds
  end.

End Notions.

(** A control as [createLinkButton] leaves it: the default label, enabled. *)
Definition pristine (button : node) : Prop :=
  exists i t a ls,
    button = Element i t a ls [TextNode BUTTON_TEXT_DEFAULT] /\
    a !! "disabled" = None.

Definition opens_window (effects : list ui_effect) : list jsstring :=
  omap (fun e => match e with Perform (WindowOpen url) => Some url | _ => None end)
       effects.

Definition alerts (effects : list ui_effect) : list jsstring :=
  omap (fun e => match e with Alert m => Some m | _ => None end) effects.

Definition resets (effects : list ui_effect) : list Z :=
  omap (fun e => match e with ResetAfter d => Some d | _ => None end) effects.

(** The world page that the end of a search request leads to, if any, and
    whether it leads to the request to sign in. *)
Definition world_page (d : delivery) : option jsstring :=
  match d with
  | Delivered (Some r) =>
    if r_success r && truthy (r_worldId r)
    then Some (VRCHAT_WEB_BASE ++ js "/world/" ++ default [] (r_worldId r))
    else None
  | _ => None
  end.

Definition asks_login (d : delivery) : bool :=
  match d with
  | Delivered (Some r) => negb (r_success r && truthy (r_worldId r)) && r_needsAuth r
  | _ => false
  end.

(** The check of [searchWorld] on its argument. *)
Definition blank (worldName : jsstring) : bool :=
  negb (nonempty worldName) || (length (trim worldName) =? 0)%nat.

(** How many of the four outcomes a reply reports. *)
Definition outcome_count (r : reply) : nat :=
  (Nat.b2n (r_success r) + Nat.b2n (r_needsAuth r) + Nat.b2n (r_notFound r)
   + Nat.b2n (bool_decide (is_Some (r_error r))))%nat.

(** What the popup shows: a missing toggle counts as checked, as in
    [updateSettings]. *)
Definition shown (t : toggles) : bool * bool * bool :=
  (enabledToggle t, default true (showOpenBtnToggle t),
   default true (showSearchBtnToggle t)).

(** ** Sample data *)

(** Lower-casing of ASCII letters; it agrees with [toLowerCase] on the
    strings used below, whose other characters have no case. *)
Definition ascii_lower (s : jsstring) : jsstring :=
  map (fun c => if in_range 0x41 0x5A c then c + 32 else c) s.

Definition el (i : nat) (tag : string) (a : list (string * jsstring))
    (cs : list node) : node :=
  Element (Some i) tag (attrs_of a) [] cs.

Definition sample_id : jsstring := js "wrld_12345678-1234-1234-1234-123456789abc".

(** A post with the trigger hashtag, a world name, a world link and an
    action bar. *)
Definition sample_tweet : node :=
  el 10 "ARTICLE" [("data-testid", js "tweet")]
    [el 11 "DIV" [("data-testid", js "tweetText")]
       [TextNode (js "World: Alpha #VRChat_World紹介 ");
        el 12 "A" [("href", js "https://vrchat.com/home/world/" ++ sample_id)]
           [TextNode (js "link")]];
     el 13 "DIV" [("role", js "group")] []].

(** A post whose text has a world name but not the trigger hashtag. *)
Definition plain_tweet : node :=
  el 20 "ARTICLE" [("data-testid", js "tweet")]
    [el 21 "DIV" [("data-testid", js "tweetText")] [TextNode (js "World: Alpha")];
     el 22 "DIV" [("role", js "group")] []].

Definition sample_page (st : option (gmap string jsval)) : page :=
  initial_page [el 0 "BODY" [] [sample_tweet; plain_tweet]] st.

Definition added : mutation := Mutation [TextNode []] [].

Definition disabled : gmap string jsval := {[ KEY_EXTENSION_ENABLED := JBool false ]}.

Definition update_request (st : gmap string jsval) : request :=
  Request ACTION_UPDATE_SETTINGS (Some st).

Definition candidate_35 : jsstring := js "wrld_12345678-1234-1234-1234-123456789ab".
Definition candidate_37 : jsstring := js "wrld_12345678-1234-1234-1234-123456789abcd".
Definition candidate_usr : jsstring := js "usrx_12345678-1234-1234-1234-123456789abc".
Definition candidate_upper : jsstring := js "WRLD_12345678-1234-1234-1234-123456789ABC".

Definition buttons_off : gmap string jsval :=
  {[ KEY_SHOW_OPEN_BTN := JBool false; KEY_SHOW_SEARCH_BTN := JBool false ]}.

Definition sample_worlds : list world :=
  [World (Some (js "wrld_1")) (Some (js "Alpha Two"));
   World (Some sample_id) (Some (js "ALPHA"));
   World (Some (js "wrld_3")) (Some (js "alpha"))].

Definition signed_in : fetched unit := Response true (Value tt).

Definition all_toggles (e o s : bool) : toggles := Toggles e (Some o) (Some s).

(** * Properties *)

(** ** The matcher *)

Section Matcher.

Variable fl : flags.
Hypothesis Hu : unicode fl = false.

Lemma chr_hit cl k bef x aft n cs :
  class_matches fl cl x = true ->
  matcher fl (Chr cl) k (MState bef (x :: aft) n cs)
  = k (MState (x :: bef) aft (S n) cs).
Proof using Hu. intros H. cbn [matcher read after]. rewrite Hu. cbn [andb]. now rewrite H. Qed.

Lemma chr_miss cl k bef x aft n cs :
  class_matches fl cl x = false ->
  matcher fl (Chr cl) k (MState bef (x :: aft) n cs) = None.
Proof using Hu. intros H. cbn [matcher read after]. rewrite Hu. cbn [andb]. now rewrite H. Qed.

Lemma chr_end cl k bef n cs : matcher fl (Chr cl) k (MState bef [] n cs) = None.
Proof. reflexivity. Qed.

Lemma chr_inv cl k bef aft n cs z :
  matcher fl (Chr cl) k (MState bef aft n cs) = Some z ->
  exists x aft', aft = x :: aft' /\ class_matches fl cl x = true /\
                 k (MState (x :: bef) aft' (S n) cs) = Some z.
Proof using Hu.
  destruct aft as [|x aft']; [discriminate|].
  destruct (class_matches fl cl x) eqn:E.
  - rewrite chr_hit by exact E. eauto.
  - now rewrite chr_miss by exact E.
Qed.

Lemma chars_cons c l k s :
  matcher fl (chars (c :: l)) k s
  = matcher fl (Chr c) (matcher fl (chars l) k) s.
Proof. destruct l; reflexivity. Qed.

Lemma chars_step l : forall w k bef aft n cs,
  chars_match fl l w = true ->
  matcher fl (chars l) k (MState bef (w ++ aft) n cs)
  = k (MState (rev w ++ bef) aft (n + length w) cs).
Proof using Hu.
  induction l as [|c l IH]; intros [|x w] k bef aft n cs H; try discriminate.
  - cbn. now rewrite Nat.add_0_r.
  - cbn [chars_match] in H. apply andb_true_iff in H as [Hx Hw].
    rewrite chars_cons. cbn [app]. rewrite chr_hit by exact Hx.
    rewrite IH by exact Hw. cbn [rev length]. rewrite <- app_assoc.
    cbn [app]. do 2 f_equal. lia.
Qed.

Lemma chars_inv l : forall k bef aft n cs z,
  matcher fl (chars l) k (MState bef aft n cs) = Some z ->
  exists w aft', aft = w ++ aft' /\ chars_match fl l w = true /\
                 k (MState (rev w ++ bef) aft' (n + length w) cs) = Some z.
Proof using Hu.
  induction l as [|c l IH]; intros k bef aft n cs z H.
  - exists [], aft. cbn in *. now rewrite Nat.add_0_r.
  - rewrite chars_cons in H. apply chr_inv in H as (x & aft' & -> & Hx & H).
    apply IH in H as (w & aft'' & -> & Hw & H).
    exists (x :: w), aft''. cbn [app chars_match rev length]. rewrite Hx, Hw.
    repeat split. rewrite <- app_assoc. cbn [app].
    now replace (n + S (length w))%nat with (S n + length w)%nat by lia.
Qed.

(** An exact count [{n}] of a character class. *)
Lemma times_step cl g k : forall n h fuel bef aft m cs,
  length h = n -> forallb (class_matches fl cl) h = true -> (n < fuel)%nat ->
  repeatMatcher (matcher fl (Chr cl)) fuel n (Some n) g k (MState bef (h ++ aft) m cs)
  = k (MState (rev h ++ bef) aft (m + n) cs).
Proof using Hu.
  induction n as [|n IH]; intros h fuel bef aft m cs Hl Hc Hf.
  - destruct h; [|discriminate]. destruct fuel; [lia|].
    cbn. now rewrite Nat.add_0_r.
  - destruct h as [|x h]; [discriminate|]. destruct fuel as [|fuel]; [lia|].
    cbn [forallb] in Hc. apply andb_true_iff in Hc as [Hx Hh].
    cbn [repeatMatcher max_is_zero app]. rewrite chr_hit by exact Hx.
    cbn [Nat.eqb andb Nat.pred dec_max].
    rewrite IH by (try assumption; cbn in Hl; lia).
    cbn [rev]. rewrite <- app_assoc. cbn [app]. do 2 f_equal. lia.
Qed.

Lemma times_inv cl g k : forall n fuel bef aft m cs z,
  repeatMatcher (matcher fl (Chr cl)) fuel n (Some n) g k (MState bef aft m cs) = Some z ->
  exists h aft', aft = h ++ aft' /\ length h = n /\
                 forallb (class_matches fl cl) h = true /\
                 k (MState (rev h ++ bef) aft' (m + n) cs) = Some z.
Proof using Hu.
  induction n as [|n IH]; intros fuel bef aft m cs z H.
  - destruct fuel; [discriminate|]. exists [], aft. cbn in *.
    now rewrite Nat.add_0_r.
  - destruct fuel as [|fuel]; [discriminate|].
    cbn [repeatMatcher max_is_zero] in H.
    apply chr_inv in H as (x & aft' & -> & Hx & H).
    cbn [Nat.eqb andb Nat.pred dec_max] in H.
    apply IH in H as (h & aft'' & -> & Hl & Hh & H).
    exists (x :: h), aft''. cbn [app length forallb rev]. rewrite Hx, Hh, Hl.
    repeat split. rewrite <- app_assoc. cbn [app].
    now replace (m + S n)%nat with (S m + n)%nat by lia.
Qed.

(** A greedy star stops where the class stops matching. *)
Lemma star_miss cl k fuel bef aft n cs :
  next_misses fl cl aft ->
  repeatMatcher (matcher fl (Chr cl)) (S fuel) 0 None true k (MState bef aft n cs)
  = k (MState bef aft n cs).
Proof using Hu.
  intros H. cbn [repeatMatcher max_is_zero].
  destruct aft as [|x aft]; [reflexivity|].
  now rewrite chr_miss by exact H.
Qed.

Lemma star_greedy cl k z : forall w fuel bef aft n cs,
  forallb (class_matches fl cl) w = true -> next_misses fl cl aft ->
  (length w < fuel)%nat ->
  k (MState (rev w ++ bef) aft (n + length w) cs) = Some z ->
  repeatMatcher (matcher fl (Chr cl)) fuel 0 None true k (MState bef (w ++ aft) n cs)
  = Some z.
Proof using Hu.
  induction w as [|x w IH]; intros fuel bef aft n cs Hw Hn Hf Hk;
    (destruct fuel as [|fuel]; [cbn in Hf; lia|]).
  - rewrite star_miss by exact Hn. cbn in Hk. now rewrite Nat.add_0_r in Hk.
  - cbn [forallb] in Hw. apply andb_true_iff in Hw as [Hx Hw].
    cbn [repeatMatcher max_is_zero app]. rewrite chr_hit by exact Hx.
    cbn [consumed].
    assert (E : Nat.eqb (S n) n = false) by (apply Nat.eqb_neq; lia).
    rewrite E. cbn [Nat.eqb andb Nat.pred dec_max].
    rewrite (IH fuel (x :: bef) aft (S n) cs); try assumption; [reflexivity | cbn in Hf; lia |].
    cbn [rev length] in Hk. rewrite <- app_assoc in Hk. cbn [app] in Hk.
    now replace (S n + length w)%nat with (n + S (length w))%nat by lia.
Qed.

(** A lazy star takes the first point at which the continuation succeeds. *)
Lemma lazy_star cl K z : forall w fuel bef aft n cs,
  lazy_path fl cl K bef aft n cs w z -> (length w < fuel)%nat ->
  repeatMatcher (matcher fl (Chr cl)) fuel 0 None false K (MState bef (w ++ aft) n cs)
  = Some z.
Proof using Hu.
  induction w as [|y w IH]; intros fuel bef aft n cs Hp Hf;
    (destruct fuel as [|fuel]; [cbn in Hf; lia|]).
  - cbn [lazy_path] in Hp. cbn [repeatMatcher max_is_zero app]. now rewrite Hp.
  - destruct Hp as (Hk & Hy & Hp).
    cbn [repeatMatcher max_is_zero app]. rewrite Hk, chr_hit by exact Hy.
    cbn [consumed].
    assert (E : Nat.eqb (S n) n = false) by (apply Nat.eqb_neq; lia).
    rewrite E. cbn [Nat.eqb andb Nat.pred dec_max]. apply IH; [exact Hp | cbn in Hf; lia].
Qed.

Lemma lazy_plus_fuel cl K z x w fuel bef aft n cs :
  class_matches fl cl x = true ->
  lazy_path fl cl K (x :: bef) aft (S n) cs w z ->
  (S (length w) < fuel)%nat ->
  repeatMatcher (matcher fl (Chr cl)) fuel 1 None false K
    (MState bef (x :: w ++ aft) n cs) = Some z.
Proof using Hu.
  intros Hx Hp Hf. destruct fuel as [|fuel]; [lia|].
  cbn [repeatMatcher max_is_zero]. rewrite chr_hit by exact Hx.
  cbn [Nat.eqb andb Nat.pred dec_max].
  apply lazy_star; [exact Hp|lia].
Qed.

(** [(.+?)] and the like: at least one character, then as few as possible. *)
Lemma lazy_plus cl K z x w bef aft n cs :
  class_matches fl cl x = true ->
  lazy_path fl cl K (x :: bef) aft (S n) cs w z ->
  matcher fl (plus_lazy (Chr cl)) K (MState bef (x :: w ++ aft) n cs) = Some z.
Proof using Hu.
  intros Hx Hp. unfold plus_lazy. cbn [matcher]. unfold repeat_fuel.
  apply lazy_plus_fuel; try assumption.
  cbn [after length]. rewrite length_app. lia.
Qed.

Lemma star_chr_greedy cl k z w bef aft n cs :
  forallb (class_matches fl cl) w = true -> next_misses fl cl aft ->
  k (MState (rev w ++ bef) aft (n + length w) cs) = Some z ->
  matcher fl (star (Chr cl)) k (MState bef (w ++ aft) n cs) = Some z.
Proof using Hu.
  intros Hw Hn Hk. unfold star. cbn [matcher]. unfold repeat_fuel.
  apply star_greedy; try assumption. cbn [after]. rewrite length_app. lia.
Qed.

Lemma star_chr_miss cl k bef aft n cs :
  next_misses fl cl aft ->
  matcher fl (star (Chr cl)) k (MState bef aft n cs) = k (MState bef aft n cs).
Proof using Hu.
  intros Hn. unfold star. cbn [matcher]. unfold repeat_fuel.
  replace (0 + length (after (MState bef aft n cs)) + 1)%nat
    with (S (length aft)) by (cbn; lia).
  now apply star_miss.
Qed.

End Matcher.

(** A regex without groups leaves the captures as they are. *)
Lemma repeatMatcher_caps (ma : cont -> cont) :
  (forall k s z, ma k s = Some z -> exists s', caps s' = caps s /\ k s' = Some z) ->
  forall fuel mn mx g k x z,
    repeatMatcher ma fuel mn mx g k x = Some z ->
    exists x', caps x' = caps x /\ k x' = Some z.
Proof.
  intros Hma. induction fuel as [|fuel IH]; intros mn mx g k x z H; [discriminate|].
  cbn [repeatMatcher] in H.
  destruct (max_is_zero mx); [eauto|].
  match type of H with context [ma ?f x] => set (d := f) in H end.
  assert (Hd : forall y z, d y = Some z -> exists x', caps x' = caps y /\ k x' = Some z).
  { intros y z' Hy. subst d. cbn beta in Hy.
    destruct (_ && _); [discriminate|]. now apply IH in Hy. }
  assert (Hmd : ma d x = Some z -> exists x', caps x' = caps x /\ k x' = Some z).
  { intros Hm. apply Hma in Hm as (y & Hy & Hm).
    apply Hd in Hm as (x' & Hx' & Hm). exists x'. split; [congruence|exact Hm]. }
  destruct mn as [|mn]; [|auto].
  destruct g.
  - destruct (ma d x) eqn:E; [injection H as ->; auto | eauto].
  - destruct (k x) eqn:E; [injection H as ->; eauto | auto].
Qed.

Lemma group_free_caps fl r :
  group_free r = true ->
  forall k s z, matcher fl r k s = Some z ->
                exists s', caps s' = caps s /\ k s' = Some z.
Proof.
  induction r as [|cl|a IHa b IHb|a IHa b IHb|mn mx g a IHa|n a IHa| |];
    intros Hg k s z H; cbn [group_free] in Hg; cbn [matcher] in H.
  - eauto.
  - unfold read in H. destruct (after s) as [|c rest]; [discriminate|].
    destruct (unicode fl && is_high_surrogate c);
      [destruct rest as [|d rest']; [|destruct (is_low_surrogate d)]|];
      (destruct (class_matches fl cl _); [|discriminate]);
      (eexists; split; [|exact H]; reflexivity).
  - apply andb_true_iff in Hg as [Ha Hb].
    apply (IHa Ha) in H as (s1 & H1 & H). apply (IHb Hb) in H as (s2 & H2 & H).
    exists s2. split; [congruence|exact H].
  - apply andb_true_iff in Hg as [Ha Hb].
    destruct (matcher fl a k s) eqn:E.
    + injection H as ->. now apply (IHa Ha) in E.
    + now apply (IHb Hb) in H.
  - eapply repeatMatcher_caps; [|exact H]. intros k' s' z'. apply (IHa Hg).
  - discriminate.
  - destruct (at_bol fl s); [eauto|discriminate].
  - destruct (at_eol fl s); [eauto|discriminate].
Qed.

Section Exec.

Variable fl : flags.
Hypothesis Hu : unicode fl = false.

Lemma exec_hit r bef aft z :
  matcher fl r accept (MState bef aft 0 []) = Some z ->
  exec_from fl r bef aft = Some (MatchResult bef z).
Proof. intros H. destruct aft; cbn [exec_from]; now rewrite H. Qed.

Lemma exec_miss r bef x aft :
  matcher fl r accept (MState bef (x :: aft) 0 []) = None ->
  exec_from fl r bef (x :: aft) = exec_from fl r (x :: bef) aft.
Proof using Hu.
  intros H. cbn [exec_from]. rewrite H, Hu. cbn [andb]. now destruct aft.
Qed.

(** Start positions at which the matcher cannot succeed are passed over. *)
Lemma exec_skip r pre : forall bef aft,
  (forall p x q, pre = p ++ x :: q ->
     matcher fl r accept (MState (rev p ++ bef) (x :: q ++ aft) 0 []) = None) ->
  exec_from fl r bef (pre ++ aft) = exec_from fl r (rev pre ++ bef) aft.
Proof using Hu.
  induction pre as [|x pre IH]; intros bef aft H; [reflexivity|].
  cbn [app]. rewrite exec_miss by (apply (H [] x pre); reflexivity).
  rewrite IH; [cbn [rev]; now rewrite <- app_assoc|].
  intros p y q ->. specialize (H (x :: p) y q eq_refl).
  cbn [rev] in H. now rewrite <- app_assoc in H.
Qed.

Lemma exec_inv r aft : forall bef m,
  exec_from fl r bef aft = Some m ->
  exists pre aft', aft = pre ++ aft' /\ m_prefix m = rev pre ++ bef /\
    matcher fl r accept (MState (m_prefix m) aft' 0 []) = Some (m_end m).
Proof using Hu.
  induction aft as [|x aft IH]; intros bef m H.
  - cbn [exec_from] in H. destruct (matcher fl r accept _) eqn:E; [|discriminate].
    injection H as <-. exists [], []. auto.
  - destruct (matcher fl r accept (MState bef (x :: aft) 0 [])) eqn:E.
    + rewrite (exec_hit _ _ _ _ E) in H. injection H as <-.
      exists [], (x :: aft). auto.
    + rewrite exec_miss in H by exact E.
      apply IH in H as (pre & aft' & -> & Hp & H).
      exists (x :: pre), aft'. cbn [app rev]. rewrite <- app_assoc. auto.
Qed.

End Exec.

Lemma matcher_alt fl a b k s :
  matcher fl (Alt a b) k s =
  match matcher fl a k s with Some z => Some z | None => matcher fl b k s end.
Proof. reflexivity. Qed.

Lemma matcher_seq fl a b k s :
  matcher fl (Seq a b) k s = matcher fl a (matcher fl b k) s.
Proof. reflexivity. Qed.

Lemma matcher_quant fl mn mx g a k s :
  matcher fl (Quant mn mx g a) k s
  = repeatMatcher (matcher fl a) (repeat_fuel mn s) mn mx g k s.
Proof. reflexivity. Qed.

Lemma matcher_group fl n a k s :
  matcher fl (Group n a) k s =
  matcher fl a (fun s' => k (set_cap n (captured s s') s')) s.
Proof. reflexivity. Qed.

Lemma line_end_unfold :
  line_end = Alt (Seq (star (Chr CSpace)) Eol)
               (Alt (Seq (star (Chr CSpace)) (Chr (CChar 0x23)))
                  (Alt (Chr (CChar 0x0A)) (Chr (CChar 0x3C)))).
Proof. reflexivity. Qed.

Section LineEnd.

Variable fl : flags.
Hypothesis Hu : unicode fl = false.
Hypothesis Hm : multiline fl = false.

(** The terminator fails before a character that is neither white space
    nor one of [#], line feed and [<]. *)
Lemma line_end_fail k bef x aft n cs :
  class_matches fl CSpace x = false ->
  class_matches fl (CChar 0x23) x = false ->
  class_matches fl (CChar 0x0A) x = false ->
  class_matches fl (CChar 0x3C) x = false ->
  matcher fl line_end k (MState bef (x :: aft) n cs) = None.
Proof using Hu Hm.
  intros Hs Hh Hl Hlt. rewrite line_end_unfold.
  rewrite !matcher_alt, !matcher_seq.
  rewrite !(star_chr_miss fl Hu) by exact Hs.
  rewrite !(chr_miss fl Hu) by assumption.
  cbn [matcher at_eol after]. now rewrite Hm.
Qed.

(** Before a line feed the terminator succeeds, and leaves the captures as
    they are. *)
Lemma line_end_lf bef aft n cs :
  exists z, matcher fl line_end accept (MState bef (0x0A :: aft) n cs) = Some z /\
            caps z = cs.
Proof using Hu.
  rewrite line_end_unfold, !matcher_alt.
  destruct (matcher fl (Seq _ Eol) accept _) as [z|] eqn:E1.
  { exists z. split; [reflexivity|].
    apply group_free_caps in E1 as (s' & Hs & [= ->]); [exact Hs|reflexivity]. }
  destruct (matcher fl (Seq _ (Chr _)) accept _) as [z|] eqn:E2.
  { exists z. split; [reflexivity|].
    apply group_free_caps in E2 as (s' & Hs & [= ->]); [exact Hs|reflexivity]. }
  assert (Hlf : class_matches fl (CChar 0x0A) 0x0A = true).
  { unfold class_matches. destruct (ignoreCase fl); reflexivity. }
  rewrite (chr_hit fl Hu) by exact Hlf. eexists. split; reflexivity.
Qed.

End LineEnd.

Lemma W_miss x : x <> 0x57 -> x <> 0x77 -> class_matches fl_i (CChar 0x57) x = false.
Proof.
  intros H1 H2. unfold class_matches, swap_case, in_range.
  cbn [ignoreCase fl_i class_mem].
  apply orb_false_iff. split; [apply Z.eqb_neq; congruence|].
  destruct ((0x61 <=? x) && (x <=? 0x7A)) eqn:E1; [apply Z.eqb_neq; lia|].
  destruct ((0x41 <=? x) && (x <=? 0x5A)) eqn:E2; apply Z.eqb_neq; [|congruence].
  apply andb_true_iff in E2 as [E2 E3]. lia.
Qed.

Lemma P1_unfold :
  colon_form = Seq (chars (literal "World"))
         (Seq (star (Chr CSpace))
            (Seq (Chr (set ":："))
               (Seq (star (Chr CSpace))
                  (Seq (Group 1 (plus_lazy (Chr CAny))) line_end)))).
Proof. reflexivity. Qed.

Lemma P1_miss x bef aft :
  x <> 0x57 -> x <> 0x77 ->
  matcher fl_i colon_form accept (MState bef (x :: aft) 0 []) = None.
Proof.
  intros H1 H2. rewrite P1_unfold, matcher_seq.
  change (literal "World") with (map CChar [0x57; 0x6F; 0x72; 0x6C; 0x64]).
  cbn [map]. rewrite chars_cons. apply chr_miss; [reflexivity|]. now apply W_miss.
Qed.

Lemma P1_hit bef rest :
  exists z, matcher fl_i colon_form accept (MState bef (js "World: Alpha" ++ 0x0A :: rest) 0 [])
            = Some z /\ lookup_cap 1 (caps z) = Some (js "Alpha").
Proof.
  pose (s1 := MState (rev (js "World: ") ++ bef) (js "Alpha" ++ 0x0A :: rest) 7 []).
  pose (s2 := MState (rev (js "World: Alpha") ++ bef) (0x0A :: rest) 12 []).
  destruct (line_end_lf fl_i eq_refl (before s2) rest 12 [(1%nat, js "Alpha")])
    as (z & Hz & Hc).
  exists z. split; [|now rewrite Hc].
  rewrite P1_unfold, matcher_seq.
  change (js "World: Alpha" ++ 0x0A :: rest)
    with (js "World" ++ 0x3A :: [0x20] ++ 0x41 :: js "lpha" ++ 0x0A :: rest).
  rewrite (chars_step fl_i eq_refl) by reflexivity.
  rewrite matcher_seq, (star_chr_miss fl_i eq_refl) by reflexivity.
  rewrite matcher_seq, (chr_hit fl_i eq_refl) by reflexivity.
  rewrite matcher_seq.
  apply (star_chr_greedy fl_i eq_refl); [reflexivity|reflexivity|].
  rewrite matcher_seq, matcher_group.
  apply (lazy_plus fl_i eq_refl); [reflexivity|].
  cbn [lazy_path js app].
  repeat (split; [first [reflexivity | apply (line_end_fail fl_i eq_refl eq_refl); reflexivity]|]).
  exact Hz.
Qed.

(** ** The identifier grammar *)

Lemma chars_match_length fl l : forall w,
  chars_match fl l w = true -> length w = length l.
Proof.
  induction l as [|c l IH]; intros [|x w] H; try discriminate; [reflexivity|].
  cbn [chars_match] in H. apply andb_true_iff in H as [_ H].
  cbn [length]. f_equal. now apply IH.
Qed.

Lemma chars_match_app fl l1 l2 : forall w1 w2,
  chars_match fl l1 w1 = true ->
  chars_match fl (l1 ++ l2) (w1 ++ w2) = chars_match fl l2 w2.
Proof.
  induction l1 as [|c l1 IH]; intros [|x w1] w2 H; try discriminate; [reflexivity|].
  cbn [chars_match app] in *. apply andb_true_iff in H as [-> H]. now apply IH.
Qed.

Lemma chars_match_split fl l1 l2 : forall w,
  chars_match fl (l1 ++ l2) w = true ->
  chars_match fl l1 (take (length l1) w) = true /\
  chars_match fl l2 (drop (length l1) w) = true.
Proof.
  induction l1 as [|c l1 IH]; intros w H.
  - cbn in *. rewrite take_0, drop_0. auto.
  - destruct w as [|x w]; [discriminate|]. cbn [chars_match app] in H.
    apply andb_true_iff in H as [Hx H]. apply IH in H as [H1 H2].
    cbn [length take drop chars_match]. now rewrite Hx, H1.
Qed.

Lemma chars_match_replicate fl cl : forall h,
  chars_match fl (replicate (length h) cl) h = forallb (class_matches fl cl) h.
Proof.
  induction h as [|x h IH]; [reflexivity|].
  cbn [length replicate chars_match forallb]. now rewrite IH.
Qed.

Lemma captured_app bef aft n cs w aft' cs' :
  captured (MState bef aft n cs) (MState (rev w ++ bef) aft' (n + length w) cs') = w.
Proof.
  unfold captured. cbn [consumed before].
  replace (n + length w - n)%nat with (length (rev w)) by (rewrite length_rev; lia).
  now rewrite take_app_length, rev_involutive.
Qed.

Lemma world_id_unfold :
  world_id = Seq (chars (literal "wrld_")) (Quant 36 (Some 36%nat) true (Chr hex_or_hyphen)).
Proof. reflexivity. Qed.

Lemma is_world_id_split wid :
  is_world_id wid = true ->
  exists w h, wid = w ++ h /\ chars_match fl_i (literal "wrld_") w = true /\
              length h = 36%nat /\ forallb (class_matches fl_i hex_or_hyphen) h = true.
Proof.
  intros H. unfold is_world_id, ID_GRAMMAR in H.
  pose proof (chars_match_length _ _ _ H) as Hl.
  apply chars_match_split in H as [H1 H2].
  exists (take 5 wid), (drop 5 wid). rewrite take_drop.
  assert (Hd : length (drop 5 wid) = 36%nat)
    by (rewrite length_drop, Hl; reflexivity).
  repeat split; [exact H1 | exact Hd |].
  change (length (literal "wrld_")) with 5%nat in H2.
  rewrite <- Hd in H2 at 1. now rewrite chars_match_replicate in H2.
Qed.

Lemma is_world_id_join w h :
  chars_match fl_i (literal "wrld_") w = true -> length h = 36%nat ->
  forallb (class_matches fl_i hex_or_hyphen) h = true ->
  is_world_id (w ++ h) = true.
Proof.
  intros Hw Hl Hh. unfold is_world_id, ID_GRAMMAR.
  rewrite chars_match_app by exact Hw.
  rewrite <- Hl. now rewrite chars_match_replicate.
Qed.

(** The capture group of the two URL patterns consumes exactly a text of the
    identifier grammar and records it. *)
Lemma world_id_inv k bef aft n cs z :
  matcher fl_i (Group 1 world_id) k (MState bef aft n cs) = Some z ->
  exists wid aft', aft = wid ++ aft' /\ is_world_id wid = true /\
    k (set_cap 1 wid (MState (rev wid ++ bef) aft' (n + 41) cs)) = Some z.
Proof.
  rewrite matcher_group, world_id_unfold, matcher_seq. intros H.
  apply (chars_inv fl_i eq_refl) in H as (w & aft1 & -> & Hw & H).
  rewrite matcher_quant in H.
  apply (times_inv fl_i eq_refl) in H as (h & aft2 & -> & Hl & Hh & H).
  pose proof (chars_match_length _ _ _ Hw) as Hlw.
  change (length (literal "wrld_")) with 5%nat in Hlw.
  exists (w ++ h), aft2. split; [now rewrite <- app_assoc|].
  split; [now apply is_world_id_join|].
  rewrite <- H. f_equal.
  replace (n + length w + 36)%nat with (n + length (w ++ h))%nat
    by (rewrite length_app; lia).
  replace (rev h ++ rev w ++ bef) with (rev (w ++ h) ++ bef)
    by (now rewrite rev_app_distr, <- app_assoc).
  rewrite captured_app. f_equal. f_equal. rewrite length_app. lia.
Qed.

Lemma world_id_step k bef wid aft n cs :
  is_world_id wid = true ->
  matcher fl_i (Group 1 world_id) k (MState bef (wid ++ aft) n cs)
  = k (set_cap 1 wid (MState (rev wid ++ bef) aft (n + 41) cs)).
Proof.
  intros H. apply is_world_id_split in H as (w & h & -> & Hw & Hl & Hh).
  pose proof (chars_match_length _ _ _ Hw) as Hlw.
  change (length (literal "wrld_")) with 5%nat in Hlw.
  rewrite matcher_group, world_id_unfold, matcher_seq, <- app_assoc.
  rewrite (chars_step fl_i eq_refl) by exact Hw.
  rewrite matcher_quant, (times_step fl_i eq_refl) by
    (try assumption; unfold repeat_fuel; cbn [after]; rewrite length_app; lia).
  f_equal.
  replace (n + length w + 36)%nat with (n + length (w ++ h))%nat
    by (rewrite length_app; lia).
  replace (rev h ++ rev w ++ bef) with (rev (w ++ h) ++ bef)
    by (now rewrite rev_app_distr, <- app_assoc).
  rewrite captured_app. f_equal. f_equal. rewrite length_app. lia.
Qed.

Lemma path_form_anchored k s :
  matcher fl_i path_form k s = matcher fl_i (anchored PATH_ANCHOR) k s.
Proof. reflexivity. Qed.

Lemma query_form_anchored k s :
  matcher fl_i query_form k s = matcher fl_i (anchored QUERY_ANCHOR) k s.
Proof. reflexivity. Qed.

Lemma anchored_inv anchor bef aft z :
  matcher fl_i (anchored anchor) accept (MState bef aft 0 []) = Some z ->
  exists w wid aft', aft = w ++ wid ++ aft' /\
    chars_match fl_i anchor w = true /\ is_world_id wid = true /\
    lookup_cap 1 (caps z) = Some wid.
Proof.
  unfold anchored. rewrite matcher_seq. intros H.
  apply (chars_inv fl_i eq_refl) in H as (w & aft1 & -> & Hw & H).
  apply world_id_inv in H as (wid & aft2 & -> & Hid & [= <-]).
  exists w, wid, aft2. repeat split; try assumption.
Qed.

Lemma anchored_step anchor bef w wid aft :
  chars_match fl_i anchor w = true -> is_world_id wid = true ->
  exists z, matcher fl_i (anchored anchor) accept (MState bef (w ++ wid ++ aft) 0 [])
            = Some z /\ lookup_cap 1 (caps z) = Some wid.
Proof.
  intros Hw Hid. unfold anchored. rewrite matcher_seq.
  rewrite (chars_step fl_i eq_refl) by exact Hw.
  rewrite world_id_step by exact Hid. eexists. split; reflexivity.
Qed.

(** ** Where an anchor can occur *)

Lemma exec_from_ext fl r r' :
  unicode fl = false ->
  (forall k s, matcher fl r k s = matcher fl r' k s) ->
  forall aft bef, exec_from fl r bef aft = exec_from fl r' bef aft.
Proof.
  intros Hu H. induction aft as [|x aft IH]; intros bef.
  - cbn [exec_from]. now rewrite H.
  - destruct (matcher fl r' accept (MState bef (x :: aft) 0 [])) as [z|] eqn:E.
    + rewrite (exec_hit fl r' _ _ _ E). apply exec_hit. now rewrite H.
    + rewrite (exec_miss fl Hu r' _ _ _ E), exec_miss; [apply IH|exact Hu|].
      now rewrite H.
Qed.

Lemma char_class_exact c x :
  in_range 0x41 0x5A c = false -> in_range 0x61 0x7A c = false ->
  class_matches fl_i (CChar c) x = true -> x = c.
Proof.
  unfold class_matches, swap_case, in_range. cbn [ignoreCase fl_i class_mem].
  intros H1 H2 H. apply orb_true_iff in H as [H|H]; [apply Z.eqb_eq in H; congruence|].
  apply andb_false_iff in H1, H2.
  destruct ((0x61 <=? x) && (x <=? 0x7A)) eqn:E1.
  { apply andb_true_iff in E1 as [E1 E1']. apply Z.eqb_eq in H. lia. }
  destruct ((0x41 <=? x) && (x <=? 0x5A)) eqn:E2.
  { apply andb_true_iff in E2 as [E2 E2']. apply Z.eqb_eq in H. lia. }
  apply Z.eqb_eq in H. congruence.
Qed.

Section Anchors.

Variable fl : flags.
Variables (L : list cclass) (c : cclass).
Variables (base cand : jsstring).
Hypothesis Hc : forall x, class_matches fl c x = true -> is_token_char x = false.
Hypothesis Htok : forallb is_token_char cand = true.

(** An anchor that ends with a character no token has lies within [base]. *)
Lemma anchor_within pre w rest :
  base ++ cand = pre ++ w ++ rest ->
  chars_match fl (L ++ [c]) w = true ->
  (length pre + length (L ++ [c]) <= length base)%nat.
Proof using Hc Htok.
  intros E Hw. rewrite length_app. cbn [length].
  pose proof (chars_match_length _ _ _ Hw) as Hl. rewrite length_app in Hl.
  cbn [length] in Hl.
  apply chars_match_split in Hw as [_ Hw].
  destruct (drop (length L) w) as [|x [|? ?]] eqn:Ed; try discriminate.
  2:{ cbn in Hw. now rewrite andb_false_r in Hw. }
  cbn [chars_match] in Hw. rewrite andb_true_r in Hw.
  assert (Hx : (pre ++ w ++ rest) !! (length pre + length L)%nat = Some x).
  { rewrite lookup_app_r by lia.
    replace (length pre + length L - length pre)%nat with (length L) by lia.
    rewrite lookup_app_l by lia.
    rewrite <- (take_drop (length L) w), Ed.
    rewrite lookup_app_r by (rewrite length_take; lia).
    rewrite length_take.
    replace (length L - length L `min` length w)%nat with 0%nat by lia.
    reflexivity. }
  destruct (le_lt_dec (length base) (length pre + length L)) as [Hge|Hlt]; [|lia].
  exfalso. rewrite <- E, lookup_app_r in Hx by exact Hge.
  apply list_elem_of_lookup_2 in Hx.
  apply Hc in Hw.
  rewrite forallb_forall in Htok. apply list_elem_of_In in Hx.
  apply Htok in Hx. congruence.
Qed.

Lemma anchor_occurs A pre w rest :
  base ++ cand = pre ++ w ++ rest ->
  chars_match fl A w = true ->
  (length pre + length A <= length base)%nat ->
  length pre ∈ occurrences fl A base.
Proof.
  intros E Hw Hle. unfold occurrences.
  apply list_elem_of_filter. split.
  - pose proof (chars_match_length _ _ _ Hw) as Hl.
    assert (Ew : w = take (length A) (drop (length pre) (base ++ cand))).
    { rewrite E, drop_app_length, <- Hl. now rewrite take_app_length. }
    rewrite drop_app_le in Ew by lia.
    rewrite take_app_le in Ew by (rewrite length_drop; lia).
    now rewrite <- Ew.
  - apply elem_of_seq. lia.
Qed.

Lemma anchor_at_end pre w rest :
  base ++ cand = pre ++ w ++ rest ->
  (length pre + length w = length base)%nat ->
  rest = cand.
Proof.
  intros E Hl. rewrite app_assoc in E.
  apply app_inj_1 in E as [_ E]; [now symmetry|].
  rewrite length_app. lia.
Qed.

End Anchors.

Section AnchoredMatch.

Variables (L : list cclass) (c : cclass).
Variables (base cand : jsstring).
Hypothesis Hc : forall x, class_matches fl_i c x = true -> is_token_char x = false.
Hypothesis Htok : forallb is_token_char cand = true.

Let A := L ++ [c].

(** A match of an anchored pattern in [base ++ cand] starts at an occurrence
    of the anchor in [base]. *)
Lemma anchored_start bef pre aft z :
  base ++ cand = pre ++ aft ->
  matcher fl_i (anchored A) accept (MState bef aft 0 []) = Some z ->
  length pre ∈ occurrences fl_i A base /\
  exists w wid aft', aft = w ++ wid ++ aft' /\ length w = length A /\
    is_world_id wid = true /\ lookup_cap 1 (caps z) = Some wid.
Proof using Hc Htok.
  intros E H. apply anchored_inv in H as (w & wid & aft' & -> & Hw & Hid & Hz).
  split.
  - apply anchor_occurs with (cand := cand) (w := w) (rest := wid ++ aft');
      [exact E | exact Hw |].
    now apply anchor_within with (fl := fl_i) (cand := cand) (w := w)
                                 (rest := wid ++ aft').
  - exists w, wid, aft'. repeat split; try assumption.
    now apply chars_match_length in Hw.
Qed.

Lemma anchored_none :
  occurrences fl_i A base = [] ->
  regex_match fl_i (anchored A) (base ++ cand) = None.
Proof using Hc Htok.
  intros Ho. unfold regex_match.
  destruct (exec_from fl_i (anchored A) [] (base ++ cand)) as [m|] eqn:E;
    [|reflexivity].
  apply (exec_inv fl_i eq_refl) in E as (pre & aft & E & _ & H).
  apply (anchored_start _ pre) in H as [H _]; [|exact E].
  rewrite Ho in H. now apply elem_of_nil in H.
Qed.

Lemma anchored_some i0 :
  occurrences fl_i A base = [i0] -> (i0 + length A = length base)%nat ->
  (is_world_id (take 41 cand) = true ->
   exists m, regex_match fl_i (anchored A) (base ++ cand) = Some m /\
             capture 1 m = Some (take 41 cand)) /\
  (is_world_id (take 41 cand) = false ->
   regex_match fl_i (anchored A) (base ++ cand) = None).
Proof using Hc Htok.
  intros Ho Hi. split.
  - intros Hid.
    assert (Hw0 : chars_match fl_i A (drop i0 base) = true).
    { assert (Hin : i0 ∈ occurrences fl_i A base) by (rewrite Ho; apply list_elem_of_here).
      apply list_elem_of_filter in Hin as [Hin _].
      rewrite take_ge in Hin by (rewrite length_drop; lia). exact Hin. }
    unfold regex_match.
    rewrite <- (take_drop i0 base), <- app_assoc.
    rewrite (exec_skip fl_i eq_refl).
    + replace (drop i0 base ++ cand)
        with (drop i0 base ++ take 41 cand ++ drop 41 cand)
        by (now rewrite take_drop).
      destruct (anchored_step A (rev (take i0 base) ++ []) (drop i0 base)
                  (take 41 cand) (drop 41 cand) Hw0 Hid) as (z & Hz & Hcap).
      rewrite (exec_hit _ _ _ _ _ Hz). eexists. split; [reflexivity|exact Hcap].
    + intros p x q Ep.
      destruct (matcher fl_i (anchored A) accept _) as [z|] eqn:E; [|reflexivity].
      exfalso. apply (anchored_start _ p) in E as [E _].
      * rewrite Ho in E. apply list_elem_of_singleton in E.
        assert (length (take i0 base) = i0) by (rewrite length_take; lia).
        rewrite Ep, length_app in H. cbn [length] in H. lia.
      * rewrite <- (take_drop i0 base) at 1. rewrite Ep, <- !app_assoc.
        reflexivity.
  - intros Hid. unfold regex_match.
    destruct (exec_from fl_i (anchored A) [] (base ++ cand)) as [m|] eqn:E;
      [|reflexivity].
    exfalso.
    apply (exec_inv fl_i eq_refl) in E as (pre & aft & E & _ & H).
    apply (anchored_start _ pre) in H
      as [H (w & wid & aft' & -> & Hlw & Hwid & _)]; [|exact E].
    rewrite Ho in H. apply list_elem_of_singleton in H.
    assert (Er : wid ++ aft' = cand).
    { apply anchor_at_end with (base := base) (pre := pre) (w := w);
        [exact E | lia]. }
    assert (Hl : length wid = 41%nat) by (now apply chars_match_length in Hwid).
    rewrite <- Er, <- Hl, take_app_length in Hid. congruence.
Qed.

End AnchoredMatch.

Lemma slash_not_token x :
  class_matches fl_i (CChar 0x2F) x = true -> is_token_char x = false.
Proof. intros H. apply char_class_exact in H as ->; reflexivity. Qed.

Lemma equals_not_token x :
  class_matches fl_i (CChar 0x3D) x = true -> is_token_char x = false.
Proof. intros H. apply char_class_exact in H as ->; reflexivity. Qed.

Lemma regex_match_path url :
  regex_match fl_i path_form url = regex_match fl_i (anchored PATH_ANCHOR) url.
Proof. apply exec_from_ext; [reflexivity|]. intros k s. apply path_form_anchored. Qed.

Lemma regex_match_query url :
  regex_match fl_i query_form url = regex_match fl_i (anchored QUERY_ANCHOR) url.
Proof. apply exec_from_ext; [reflexivity|]. intros k s. apply query_form_anchored. Qed.

Lemma nonempty_app_l (a b : jsstring) : nonempty a = true -> nonempty (a ++ b) = true.
Proof. now destruct a. Qed.

Lemma PATH_ANCHOR_last : PATH_ANCHOR = literal "vrchat.com/home/world" ++ [CChar 0x2F].
Proof. vm_compute. reflexivity. Qed.

Lemma QUERY_ANCHOR_last : QUERY_ANCHOR = (set "?&" :: literal "worldId") ++ [CChar 0x3D].
Proof. vm_compute. reflexivity. Qed.

(** What the Link Resolver extracts from a world-page URL and from a launch
    URL that end with a token. *)
Lemma world_url_extract cand :
  forallb is_token_char cand = true ->
  extractWorldIdFromUrl (world_url cand)
  = if is_world_id (take 41 cand) then Some (take 41 cand) else None.
Proof.
  intros Htok. unfold extractWorldIdFromUrl, world_url.
  rewrite nonempty_app_l by (vm_compute; reflexivity). cbn [negb].
  rewrite regex_match_path, regex_match_query.
  rewrite PATH_ANCHOR_last, QUERY_ANCHOR_last.
  destruct (anchored_some (literal "vrchat.com/home/world") (CChar 0x2F)
              (js "https://vrchat.com/home/world/") cand slash_not_token Htok 8)
    as [Hyes Hno]; [vm_compute; reflexivity | vm_compute; reflexivity |].
  destruct (is_world_id (take 41 cand)) eqn:Hid.
  - destruct (Hyes eq_refl) as (m & Hm & Hcap). now rewrite Hm.
  - rewrite (Hno eq_refl).
    rewrite (anchored_none (set "?&" :: literal "worldId") (CChar 0x3D)
               (js "https://vrchat.com/home/world/") cand equals_not_token Htok);
      [reflexivity | vm_compute; reflexivity].
Qed.

Lemma launch_url_extract cand :
  forallb is_token_char cand = true ->
  extractWorldIdFromUrl (launch_url cand)
  = if is_world_id (take 41 cand) then Some (take 41 cand) else None.
Proof.
  intros Htok. unfold extractWorldIdFromUrl, launch_url.
  rewrite nonempty_app_l by (vm_compute; reflexivity). cbn [negb].
  rewrite regex_match_path, regex_match_query.
  rewrite PATH_ANCHOR_last, QUERY_ANCHOR_last.
  rewrite (anchored_none (literal "vrchat.com/home/world") (CChar 0x2F)
             (js "https://vrchat.com/home/launch?worldId=") cand
             slash_not_token Htok) by (vm_compute; reflexivity).
  destruct (anchored_some (set "?&" :: literal "worldId") (CChar 0x3D)
              (js "https://vrchat.com/home/launch?worldId=") cand
              equals_not_token Htok 30)
    as [Hyes Hno]; [vm_compute; reflexivity | vm_compute; reflexivity |].
  destruct (is_world_id (take 41 cand)) eqn:Hid.
  - destruct (Hyes eq_refl) as (m & Hm & Hcap). now rewrite Hm.
  - now rewrite (Hno eq_refl).
Qed.

Lemma is_hex_or_hyphen_spec c :
  is_hex_or_hyphen c =
  in_range 0x30 0x39 c || in_range 0x61 0x66 c || in_range 0x41 0x46 c || (c =? 0x2D).
Proof.
  unfold is_hex_or_hyphen, class_matches, hex_or_hyphen, swap_case.
  cbn [ignoreCase fl_i class_mem]. unfold in_range.
  repeat (match goal with
          | |- context [c <=? ?b] => destruct (Z.leb_spec c b)
          | |- context [?a <=? c] => destruct (Z.leb_spec a c)
          | |- context [?a =? c] => destruct (Z.eqb_spec a c)
          | |- context [c =? ?b] => destruct (Z.eqb_spec c b)
          end; try lia; cbn [andb orb]);
    repeat (match goal with
            | |- context [?a <=? ?b] => destruct (Z.leb_spec a b)
            | |- context [?a =? ?b] => destruct (Z.eqb_spec a b)
            end; try lia; cbn [andb orb]);
    reflexivity.
Qed.

Lemma hex_is_token c : is_hex_or_hyphen c = true -> is_token_char c = true.
Proof.
  rewrite is_hex_or_hyphen_spec. unfold is_token_char, in_range. intros H.
  repeat (apply orb_true_iff in H as [H|H]);
    repeat match goal with
    | H : _ && _ = true |- _ => apply andb_true_iff in H as [? ?]
    | H : (_ <=? _) = true |- _ => apply Z.leb_le in H
    | H : (_ =? _) = true |- _ => apply Z.eqb_eq in H
    end.
  - rewrite (proj2 (Z.leb_le 0x30 c)), (proj2 (Z.leb_le c 0x39)) by lia. reflexivity.
  - rewrite (proj2 (Z.leb_le 0x61 c)), (proj2 (Z.leb_le c 0x7A)) by lia.
    cbn [andb]. now rewrite !orb_true_r.
  - rewrite (proj2 (Z.leb_le 0x41 c)), (proj2 (Z.leb_le c 0x5A)) by lia.
    cbn [andb]. now rewrite !orb_true_r.
  - subst c. reflexivity.
Qed.

Lemma extract_shape url wid :
  extractWorldIdFromUrl url = Some wid -> is_world_id wid = true.
Proof.
  unfold extractWorldIdFromUrl. destruct (negb (nonempty url)); [discriminate|].
  rewrite regex_match_path, regex_match_query. unfold regex_match.
  assert (Hm : forall A m, exec_from fl_i (anchored A) [] url = Some m ->
                           capture 1 m = Some wid -> is_world_id wid = true).
  { intros A m E Hcap.
    apply (exec_inv fl_i eq_refl) in E as (pre & aft & _ & _ & H).
    apply anchored_inv in H as (w & wid' & aft' & _ & _ & Hid & Hz).
    unfold capture in Hcap. congruence. }
  destruct (exec_from fl_i (anchored PATH_ANCHOR) [] url) as [m|] eqn:E1;
    [exact (Hm _ m E1)|].
  destruct (exec_from fl_i (anchored QUERY_ANCHOR) [] url) as [m|] eqn:E2;
    [exact (Hm _ m E2)|discriminate].
Qed.

Lemma tokens_app a b :
  forallb is_token_char a = true -> forallb is_token_char b = true ->
  forallb is_token_char (a ++ b) = true.
Proof. intros Ha Hb. rewrite forallb_app. now rewrite Ha, Hb. Qed.

Lemma hex_tokens h :
  forallb is_hex_or_hyphen h = true -> forallb is_token_char h = true.
Proof.
  rewrite !forallb_forall. intros H x Hx. apply hex_is_token. now apply H.
Qed.

Lemma wrld_length : length (js "wrld_") = 5%nat.
Proof. vm_compute. reflexivity. Qed.

Lemma literal_wrld_length : length (literal "wrld_") = 5%nat.
Proof. vm_compute. reflexivity. Qed.

Lemma is_world_id_length wid : is_world_id wid = true -> length wid = 41%nat.
Proof. intros H. now apply chars_match_length in H. Qed.

(** C3 (amended): the two URL patterns carry the [i] flag and no end anchor.
    Every identifier the Link Resolver extracts is 41 characters long: the
    prefix [wrld] and the separator [_], in either case, and 36 characters
    that are hex digits of either case or hyphens.  From a world-page URL or
    a launch URL that ends with a candidate made of letters, digits, hyphens
    and underscores, an identifier is extracted exactly when the first 41
    characters of the candidate have that form, and it is those characters.
    So a candidate with 35 hex or hyphen characters after the prefix yields
    none, a candidate that does not start with the prefix and separator
    yields none, and a candidate with more than 36 yields the identifier made
    of its first 36. *)
Theorem identifier_grammar :
  (forall url wid, extractWorldIdFromUrl url = Some wid -> is_world_id wid = true) /\
  (forall cand, forallb is_token_char cand = true ->
     extractWorldIdFromUrl (world_url cand)
       = (if is_world_id (take 41 cand) then Some (take 41 cand) else None) /\
     extractWorldIdFromUrl (launch_url cand)
       = (if is_world_id (take 41 cand) then Some (take 41 cand) else None)) /\
  (forall h, length h = 35%nat -> forallb is_hex_or_hyphen h = true ->
     extractWorldIdFromUrl (world_url (js "wrld_" ++ h)) = None /\
     extractWorldIdFromUrl (launch_url (js "wrld_" ++ h)) = None) /\
  (forall cand, forallb is_token_char cand = true ->
     chars_match fl_i (literal "wrld_") (take 5 cand) = false ->
     extractWorldIdFromUrl (world_url cand) = None /\
     extractWorldIdFromUrl (launch_url cand) = None) /\
  (forall h more, length h = 36%nat -> forallb is_hex_or_hyphen h = true ->
     forallb is_token_char more = true ->
     extractWorldIdFromUrl (world_url (js "wrld_" ++ h ++ more)) = Some (js "wrld_" ++ h) /\
     extractWorldIdFromUrl (launch_url (js "wrld_" ++ h ++ more)) = Some (js "wrld_" ++ h)).
Proof.
  split; [exact extract_shape|].
  split; [intros cand H; split; [now apply world_url_extract | now apply launch_url_extract]|].
  split; [|split].
  - intros h Hl Hh.
    assert (Htok : forallb is_token_char (js "wrld_" ++ h) = true)
      by (apply tokens_app; [vm_compute; reflexivity | now apply hex_tokens]).
    assert (Hid : is_world_id (take 41 (js "wrld_" ++ h)) = false).
    { destruct (is_world_id _) eqn:E; [|reflexivity].
      apply is_world_id_length in E.
      rewrite length_take, length_app, Hl, wrld_length in E. lia. }
    rewrite world_url_extract, launch_url_extract, Hid by exact Htok. now split.
  - intros cand Htok Hp.
    assert (Hid : is_world_id (take 41 cand) = false).
    { destruct (is_world_id _) eqn:E; [|reflexivity].
      apply chars_match_split in E as [E _].
      rewrite literal_wrld_length, take_take in E.
      change (5 `min` 41)%nat with 5%nat in E. congruence. }
    rewrite world_url_extract, launch_url_extract, Hid by exact Htok. now split.
  - intros h more Hl Hh Hmore.
    assert (Htok : forallb is_token_char (js "wrld_" ++ h ++ more) = true)
      by (apply tokens_app; [vm_compute; reflexivity|];
          apply tokens_app; [now apply hex_tokens | exact Hmore]).
    assert (Et : take 41 (js "wrld_" ++ h ++ more) = js "wrld_" ++ h).
    { rewrite app_assoc.
      replace 41%nat with (length (js "wrld_" ++ h))
        by (rewrite length_app, Hl, wrld_length; reflexivity).
      apply take_app_length. }
    assert (Hid : is_world_id (js "wrld_" ++ h) = true)
      by (apply is_world_id_join; [vm_compute; reflexivity | exact Hl | exact Hh]).
    rewrite world_url_extract, launch_url_extract, Et, Hid by exact Htok.
    now split.
Qed.

Lemma extractWith_cons p ps text :
  extractWith (p :: ps) text =
  match candidate p text with
  | Some w => Some w
  | None => extractWith ps text
  end.
Proof.
  destruct p as [fl r]. cbn [extractWith]. unfold candidate. cbn [fst snd].
  destruct (regex_match fl r text) as [m|]; [|reflexivity].
  destruct (truthy (capture 1 m)); [|reflexivity]. cbn [andb].
  destruct (cleanup _) as [|c w]; reflexivity.
Qed.

(** The loop returns what the first pattern with a candidate yields. *)
Lemma extractWith_first ps text w :
  extractWith ps text = Some w <->
  exists i p, ps !! i = Some p /\ candidate p text = Some w /\
    forall j q, (j < i)%nat -> ps !! j = Some q -> candidate q text = None.
Proof.
  induction ps as [|p ps IH].
  - split; [discriminate|]. intros (i & p & H & _). now destruct i.
  - rewrite extractWith_cons. destruct (candidate p text) as [w'|] eqn:E.
    + split.
      * intros [= <-]. exists 0%nat, p. repeat split; [exact E|]. intros j q Hj. lia.
      * intros ([|i] & q & Hq & Hc & Hprev).
        -- cbn in Hq. congruence.
        -- specialize (Hprev 0%nat p). rewrite Hprev in E by (cbn; auto with lia).
           discriminate.
    + rewrite IH. split.
      * intros (i & q & Hq & Hc & Hprev). exists (S i), q.
        repeat split; try assumption.
        intros [|j] q' Hj Hq'; [cbn in Hq'; congruence|].
        apply (Hprev j); [lia|exact Hq'].
      * intros ([|i] & q & Hq & Hc & Hprev).
        -- cbn in Hq. congruence.
        -- exists i, q. repeat split; try assumption.
           intros j q' Hj Hq'. apply (Hprev (S j)); [lia|exact Hq'].
Qed.

Lemma extractWith_none ps text :
  extractWith ps text = None <-> forall p, p ∈ ps -> candidate p text = None.
Proof.
  induction ps as [|p ps IH].
  - split; [|reflexivity]. intros _ p Hp. now apply elem_of_nil in Hp.
  - rewrite extractWith_cons. destruct (candidate p text) as [w'|] eqn:E.
    + split; [discriminate|]. intros H. rewrite H in E by apply list_elem_of_here.
      discriminate.
    + rewrite IH. split.
      * intros H q Hq. apply elem_of_cons in Hq as [->|Hq]; auto.
      * intros H q Hq. apply H. now apply list_elem_of_further.
Qed.

Lemma candidates_of_empty p : p ∈ WORLD_PATTERNS -> candidate p [] = None.
Proof.
  intros H. unfold WORLD_PATTERNS in H.
  repeat (apply elem_of_cons in H as [->|H]; [vm_compute; reflexivity|]).
  now apply elem_of_nil in H.
Qed.

Lemma P1_first : exists others, WORLD_PATTERNS = (fl_i, colon_form) :: others.
Proof. eexists. reflexivity. Qed.

Lemma world_alpha_line pre rest :
  Forall (fun c => c <> 0x57 /\ c <> 0x77) pre ->
  extractWorldName (pre ++ js "World: Alpha" ++ 0x0A :: rest) = Some (js "Alpha").
Proof.
  intros Hpre. unfold extractWorldName.
  assert (Hne : nonempty (pre ++ js "World: Alpha" ++ 0x0A :: rest) = true)
    by (destruct pre; reflexivity).
  rewrite Hne. cbn [negb].
  destruct P1_first as (others & ->). rewrite extractWith_cons.
  replace (candidate (fl_i, colon_form) (pre ++ js "World: Alpha" ++ 0x0A :: rest))
    with (Some (js "Alpha")); [reflexivity|].
  unfold candidate, regex_match. cbn [fst snd].
  rewrite (exec_skip fl_i eq_refl).
  - destruct (P1_hit (rev pre ++ []) rest) as (z & Hz & Hcap).
    rewrite (exec_hit _ _ _ _ _ Hz). unfold capture. cbn [m_end]. rewrite Hcap.
    reflexivity.
  - intros p x q ->. apply Forall_app in Hpre as [_ Hpre].
    apply Forall_cons in Hpre as [[H1 H2] _]. now apply P1_miss.
Qed.

(** C2 (amended): the extractor returns the cleaned-up capture of the first
    pattern of the list, in the order of the list, whose capture is non-empty
    after clean-up, and none when no pattern has one.  In particular a text
    in which [World: Alpha] ends its line, preceded by text with no letter W,
    yields [Alpha] whatever follows the line feed, a trailing globe form
    included. *)
Theorem pattern_priority :
  (forall text w,
     extractWorldName text = Some w <->
     exists i p, WORLD_PATTERNS !! i = Some p /\ candidate p text = Some w /\
       forall j q, (j < i)%nat -> WORLD_PATTERNS !! j = Some q ->
                   candidate q text = None) /\
  (forall text,
     extractWorldName text = None <->
     forall p, p ∈ WORLD_PATTERNS -> candidate p text = None) /\
  (forall pre rest,
     Forall (fun c => c <> 0x57 /\ c <> 0x77) pre ->
     extractWorldName (pre ++ js "World: Alpha" ++ 0x0A :: rest) = Some (js "Alpha")) /\
  extractWorldName (js "World: Alpha" ++ 0x0A :: js "🌐 Beta") = Some (js "Alpha").
Proof.
  split; [|split; [|split]].
  - intros text w. unfold extractWorldName. destruct text as [|c text].
    + cbn [nonempty negb]. split; [discriminate|].
      intros (i & p & Hp & Hc & _).
      apply list_elem_of_lookup_2 in Hp. apply candidates_of_empty in Hp. congruence.
    + cbn [nonempty negb]. apply extractWith_first.
  - intros text. unfold extractWorldName. destruct text as [|c text].
    + cbn [nonempty negb]. split; [|reflexivity]. intros _. apply candidates_of_empty.
    + cbn [nonempty negb]. apply extractWith_none.
  - exact world_alpha_line.
  - apply (world_alpha_line [] (js "🌐 Beta")). constructor.
Qed.

(** On one line the capture of the first pattern runs up to the end of the
    text: the globe form that trails is part of the name. *)
Lemma pattern_priority_counterexample :
  let text := js "World: Alpha 🌐 Beta" in
  includes text (js "World: Alpha") = true /\
  drop 13 text = js "🌐 Beta" /\
  extractWorldName text = Some (js "Alpha  Beta") /\
  extractWorldName text <> Some (js "Alpha").
Proof. repeat split; try (vm_compute; reflexivity). vm_compute. discriminate. Qed.

(** ** Documents *)

Lemma node_induction (P : node -> Prop) :
  (forall d, P (TextNode d)) ->
  (forall d, P (CommentNode d)) ->
  (forall i t a ls cs, Forall P cs -> P (Element i t a ls cs)) ->
  forall n, P n.
Proof.
  intros Ht Hc He. fix IH 1. intros [d|d|i t a ls cs].
  - apply Ht.
  - apply Hc.
  - apply He. induction cs as [|c cs IHcs]; constructor; [apply IH | exact IHcs].
Qed.

Lemma descendants_setAttribute k v n :
  descendants (setAttribute k v n) = descendants n.
Proof. destruct n; reflexivity. Qed.

Lemma querySelectorAll_setAttribute sel k v n :
  querySelectorAll sel (setAttribute k v n) = querySelectorAll sel n.
Proof. unfold querySelectorAll. now rewrite descendants_setAttribute. Qed.

Lemma querySelector_setAttribute sel k v n :
  querySelector sel (setAttribute k v n) = querySelector sel n.
Proof. unfold querySelector. now rewrite querySelectorAll_setAttribute. Qed.

Lemma hasAttribute_setAttribute k v i t a ls cs :
  hasAttribute k (setAttribute k v (Element i t a ls cs)) = true.
Proof.
  unfold hasAttribute. simpl. apply bool_decide_eq_true.
  rewrite lookup_insert_eq. eauto.
Qed.

Lemma insertBeforeFirst_attrs sel new i t a ls cs n' :
  insertBeforeFirst sel new (Element i t a ls cs) = Some n' ->
  exists cs', n' = Element i t a ls cs'.
Proof.
  simpl. intros H. apply fmap_Some in H as (cs' & _ & ->). eauto.
Qed.

Lemma insertBeforeFirst_matches q sel new n n' :
  insertBeforeFirst sel new n = Some n' -> matches q n' = matches q n.
Proof.
  destruct n as [d|d|i t a ls cs]; try discriminate.
  intros H. apply insertBeforeFirst_attrs in H as (cs' & ->). reflexivity.
Qed.

Lemma count_app q l1 l2 : count q (l1 ++ l2) = (count q l1 + count q l2)%nat.
Proof. unfold count. now rewrite filter_app, length_app. Qed.

Lemma count_cons q c l :
  count q (c :: l) = ((if matches q c then 1 else 0) + count q l)%nat.
Proof.
  unfold count. rewrite filter_cons. destruct (matches q c); simpl.
  - destruct (decide (true = true)); [reflexivity | congruence].
  - destruct (decide (false = true)); [congruence | reflexivity].
Qed.

(** Inserting before the first match adds the matches of the new subtree to
    those of the post, whatever the selector counted. *)
Lemma insertBeforeFirst_count q sel new n :
  forall n', insertBeforeFirst sel new n = Some n' ->
  count q (descendants n') =
  (count q (descendants n) + count q (new :: descendants new))%nat.
Proof.
  remember (count q (new :: descendants new)) as k eqn:Hk.
  induction n as [d|d|i t a ls cs IH] using node_induction; intros n' H;
    try discriminate.
  simpl in H. apply fmap_Some in H as (cs' & H & ->). simpl.
  revert cs' H. induction IH as [|c cs Hc _ IHcs]; intros cs' H; [discriminate|].
  destruct (matches sel c) eqn:Hm.
  - injection H as <-. cbn [flat_map]. rewrite !count_app, <- Hk. ring.
  - destruct (insertBeforeFirst sel new c) as [c'|] eqn:Hi.
    + injection H as <-. cbn [flat_map app]. rewrite !count_cons, !count_app.
      rewrite (Hc _ eq_refl), (insertBeforeFirst_matches q _ _ _ _ Hi).
      ring.
    + apply fmap_Some in H as (cs'' & H & ->).
      cbn [flat_map app]. rewrite !count_cons, !count_app.
      rewrite (IHcs _ H). ring.
Qed.

Lemma extractWith_nonempty ps text w :
  extractWith ps text = Some w -> nonempty w = true.
Proof.
  induction ps as [|[fl r] ps IH]; cbn [extractWith]; [discriminate|].
  destruct (regex_match fl r text) as [m|]; [|exact IH].
  destruct (truthy (capture 1 m)); [|exact IH].
  destruct (cleanup _) as [|c w'] eqn:E; cbn [length Nat.ltb Nat.leb]; [exact IH|].
  intros [= <-]. reflexivity.
Qed.

Lemma extractWorldName_nonempty text w :
  extractWorldName text = Some w -> nonempty w = true.
Proof.
  unfold extractWorldName. destruct (negb (nonempty text)); [discriminate|].
  apply extractWith_nonempty.
Qed.

Lemma findWorldId_nonempty links id :
  findWorldId links = Some id -> nonempty id = true.
Proof.
  induction links as [|link rest IH]; cbn [findWorldId]; [discriminate|].
  destruct (truthy (extractWorldIdFromUrl (prop "href" link))) eqn:E1.
  { intros H. rewrite H in E1. exact E1. }
  destruct (truthy (extractWorldIdFromUrl (textContent link))) eqn:E2.
  { intros H. rewrite H in E2. exact E2. }
  destruct (truthy (extractWorldIdFromUrl (prop "title" link))) eqn:E3.
  { intros H. rewrite H in E3. exact E3. }
  exact IH.
Qed.

(** A Control Group is one container, and nothing inside it is one. *)
Lemma controlGroup_count so ss wn id :
  let g := controlGroup so ss wn id in
  count SEL_CONTAINER (g :: descendants g) = 1%nat.
Proof.
  destruct so, ss, wn as [[|c w]|], id as [[|d i]|]; vm_compute; reflexivity.
Qed.

Section PostProcessor.

Variable toLowerCase : jsstring -> jsstring.

Abbreviation processTweet := (processTweet toLowerCase).

(** What [processTweet] returns is the marked post, possibly with one
    Control Group inserted before its action bar. *)
Lemma processTweet_cases so ss post :
  processTweet so ss post = mark post \/
  exists g, g = controlGroup so ss (worldName_of post) (foundWorldId_of post) /\
            hasAttribute PROCESSED_ATTR post = false /\
            insertBeforeFirst SEL_ACTION_BAR g
              (setAttribute PROCESSED_ATTR (js "true") post)
            = Some (processTweet so ss post).
Proof.
  unfold processTweet, mark, worldName_of, foundWorldId_of, tweetText_of.
  destruct (hasAttribute PROCESSED_ATTR post) eqn:Hp; [now left|].
  rewrite querySelector_setAttribute, querySelectorAll_setAttribute.
  destruct (querySelector SEL_TWEET_TEXT post) as [e|]; [|now left].
  cbn [getTextWithEmoji].
  destruct (negb (nonempty (traverse e))); [now left|].
  destruct (negb (includes _ _)); [now left|].
  destruct (negb (truthy _) && negb (truthy _)); [now left|].
  destruct (bool_decide _); [now left|].
  destruct (hasChildNodes _); [|now left].
  destruct (insertBeforeFirst _ _ _) as [t'|] eqn:Hi; [|now left].
  right. eexists. split; [reflexivity|]. split; [reflexivity|]. exact Hi.
Qed.

Lemma processTweet_marked so ss i t a ls cs :
  hasAttribute PROCESSED_ATTR (processTweet so ss (Element i t a ls cs)) = true.
Proof.
  destruct (processTweet_cases so ss (Element i t a ls cs)) as [->|(g & _ & Hp & Hi)].
  - unfold mark.
    destruct (hasAttribute PROCESSED_ATTR (Element i t a ls cs)) eqn:E; [exact E|].
    apply hasAttribute_setAttribute.
  - apply insertBeforeFirst_attrs in Hi as (cs' & ->).
    unfold hasAttribute. simpl. apply bool_decide_eq_true.
    rewrite lookup_insert_eq. eauto.
Qed.

Lemma processTweet_processed so ss post :
  hasAttribute PROCESSED_ATTR post = true -> processTweet so ss post = post.
Proof. intros H. unfold processTweet. now rewrite H. Qed.

Lemma controlGroups_mark post : controlGroups (mark post) = controlGroups post.
Proof.
  unfold mark, controlGroups. destruct (hasAttribute _ _); [reflexivity|].
  apply querySelectorAll_setAttribute.
Qed.

Lemma processTweet_count so ss post :
  length (controlGroups (processTweet so ss post)) = length (controlGroups post) \/
  length (controlGroups (processTweet so ss post)) = S (length (controlGroups post)).
Proof.
  destruct (processTweet_cases so ss post) as [->|(g & -> & Hp & Hi)].
  - left. now rewrite controlGroups_mark.
  - right. unfold controlGroups, querySelectorAll.
    fold (count SEL_CONTAINER (descendants (processTweet so ss post))).
    rewrite (insertBeforeFirst_count SEL_CONTAINER _ _ _ _ Hi).
    rewrite descendants_setAttribute, controlGroup_count.
    unfold count. lia.
Qed.

Lemma tweetText_of_empty post :
  querySelector SEL_TWEET_TEXT post = None -> tweetText_of post = [].
Proof. unfold tweetText_of. now intros ->. Qed.

(** C4: a Post whose normalised text does not contain the trigger hashtag
    (tested on the lower-cased text) is only marked: the Post Processor
    returns before extraction and link resolution, and the Post has the
    Control Groups it had, none added, whatever the text would yield. *)
Theorem hashtag_gate so ss post :
  includes (toLowerCase (tweetText_of post)) TARGET_HASHTAG = false ->
  processTweet so ss post = mark post /\
  controlGroups (processTweet so ss post) = controlGroups post.
Proof.
  intros Hgate.
  assert (H : processTweet so ss post = mark post).
  { unfold processTweet, mark.
    destruct (hasAttribute PROCESSED_ATTR post); [reflexivity|].
    rewrite querySelector_setAttribute.
    unfold tweetText_of in Hgate.
    destruct (querySelector SEL_TWEET_TEXT post) as [e|]; [|reflexivity].
    destruct (negb (nonempty (getTextWithEmoji (Some e)))); [reflexivity|].
    now rewrite Hgate. }
  split; [exact H|]. rewrite H. apply controlGroups_mark.
Qed.

Lemma click_open_with_id wid :
  nonempty wid = true ->
  exists openBtn,
    openControl None (Some wid) = Some openBtn /\
    (forall name, openControl (Some name) (Some wid) = Some openBtn) /\
    getAttribute "data-world-id" openBtn = Some wid /\
    click openBtn = [WindowOpen (VRCHAT_WEB_BASE ++ js "/world/" ++ wid)].
Proof.
  intros Hid. eexists. unfold openControl. rewrite Hid.
  split; [reflexivity|]. split; [reflexivity|].
  unfold createLinkButton, setAttribute, click, on_click, prop, getAttribute.
  rewrite lookup_insert_ne by discriminate. rewrite lookup_insert_eq.
  cbn [map default from_option]. unfold Datatypes.id. now rewrite Hid.
Qed.

(** C5: for a Post that yields both an identifier (from its links) and a
    name (from its text), with both controls enabled, the Control Group built
    holds an "open" control that carries the identifier and opens the
    identifier's page, followed by a "search" control that opens the search
    page of the name; the group is what is inserted before the action bar.
    Without a name no "search" control is built. *)
Theorem link_precedence post name id :
  hasAttribute PROCESSED_ATTR post = false ->
  includes (toLowerCase (tweetText_of post)) TARGET_HASHTAG = true ->
  worldName_of post = Some name ->
  foundWorldId_of post = Some id ->
  querySelector SEL_BTN post = None ->
  let group := controlGroup true true (Some name) (Some id) in
  let marked := setAttribute PROCESSED_ATTR (js "true") post in
  (exists openBtn,
     childNodes group = [openBtn; createSearchButton name] /\
     getAttribute "data-world-id" openBtn = Some id /\
     click openBtn = [WindowOpen (VRCHAT_WEB_BASE ++ js "/world/" ++ id)] /\
     click (createSearchButton name) =
       [WindowOpen (VRCHAT_WEB_BASE ++ js "/search/worlds/"
                    ++ default [] (safeEncodeURIComponent name))]) /\
  processTweet true true post =
    default marked (insertBeforeFirst SEL_ACTION_BAR group marked) /\
  (forall so ss id',
     count SEL_SEARCH_BTN (descendants (controlGroup so ss None id')) = 0%nat).
Proof.
  intros Hp Hgate Hname Hid Hbtn group marked.
  pose proof (extractWorldName_nonempty _ _ Hname) as Hn.
  pose proof (findWorldId_nonempty _ _ Hid) as Hi.
  destruct (click_open_with_id id Hi) as (openBtn & _ & Ho & Hattr & Hclick).
  split; [|split].
  - exists openBtn. split; [|split; [exact Hattr | split; [exact Hclick | reflexivity]]].
    unfold group, controlGroup. rewrite (Ho name).
    cbn [truthy andb default childNodes app]. now rewrite Hn.
  - unfold processTweet. rewrite Hp.
    rewrite querySelector_setAttribute, querySelectorAll_setAttribute.
    unfold worldName_of, foundWorldId_of, tweetText_of in *.
    destruct (querySelector SEL_TWEET_TEXT post) as [e|];
      [|discriminate Hname].
    destruct (nonempty (getTextWithEmoji (Some e))) eqn:Ht.
    2:{ destruct (getTextWithEmoji (Some e)); discriminate. }
    rewrite Hgate, Hname, Hid. cbn [negb truthy]. rewrite Hn, Hi.
    rewrite querySelector_setAttribute, Hbtn.
    cbn [negb andb].
    rewrite bool_decide_eq_false_2 by (intros [? ?]; discriminate).
    fold marked. fold group.
    assert (Hc : hasChildNodes group = true).
    { unfold group, controlGroup. rewrite (Ho name). reflexivity. }
    rewrite Hc. destruct (insertBeforeFirst _ _ _); reflexivity.
  - intros so ss id'. unfold controlGroup.
    cbn [truthy andb]. rewrite andb_false_r, app_nil_r.
    destruct so; [|reflexivity].
    destruct id' as [i|]; cbn [openControl truthy option_map]; [|reflexivity].
    destruct (nonempty i); [|reflexivity].
    vm_compute. reflexivity.
Qed.

End PostProcessor.

(** ** Text normalisation and extraction on the sample of the specification *)

(** C7: the subtree made of the text "World: ", an image of alt-text "🌍" and
    the text "Park" normalises to "World: 🌍Park", from which the extractor
    returns "Park". *)
Theorem normalization_round_trip i a ls j a' ls' :
  getTextWithEmoji
    (Some (Element i "SPAN" a ls
             [TextNode (js "World: ");
              Element j "IMG" (<["alt" := js "🌍"]> a') ls' [];
              TextNode (js "Park")]))
  = js "World: 🌍Park" /\
  extractWorldName (js "World: 🌍Park") = Some (js "Park").
Proof.
  split; [|vm_compute; reflexivity].
  cbn [getTextWithEmoji traverse flat_map]. unfold prop, getAttribute.
  rewrite lookup_insert_eq. reflexivity.
Qed.

(** The removal of [/[\uD800-\uDFFF]/g] deletes every surrogate code unit,
    paired or not. *)
Lemma replace_all_class fl cl bef aft :
  unicode fl = false ->
  replace_all_from fl (Chr cl) 0 true bef aft
  = filter (fun c => class_matches fl cl c = false) aft.
Proof.
  intros Hu. revert bef. induction aft as [|c aft IH]; intros bef; [reflexivity|].
  rewrite filter_cons.
  cbn [replace_all_from matcher read after]. rewrite Hu. cbn [andb].
  destruct (class_matches fl cl c) eqn:E.
  - cbn [accept consumed advance1].
    destruct (decide (true = false)); [discriminate|].
    destruct aft; apply (IH (c :: bef)).
  - destruct (decide (false = false)); [|congruence].
    destruct aft; f_equal; apply (IH (c :: bef)).
Qed.

Lemma strip_surrogates_filter w :
  strip_surrogates w = filter (fun c => in_range 0xD800 0xDFFF c = false) w.
Proof. apply replace_all_class. reflexivity. Qed.

(** C6 (the code departs from it): U+20BB7 is a well-formed surrogate pair
    outside the range U+1F300 to U+1F9FF; the emoji removal keeps it, the
    surrogate removal that follows deletes both of its code units, and the
    extracted name lacks the character. *)
Theorem paired_surrogates_are_stripped :
  js "𠮷" = [0xD842; 0xDFB7] /\
  strip_emoji (js "𠮷野家") = js "𠮷野家" /\
  strip_surrogates (js "𠮷野家") = js "野家" /\
  extractWorldName (js "World: 𠮷野家") = Some (js "野家").
Proof. repeat split; vm_compute; reflexivity. Qed.

(** ** Clearing a document *)

Lemma count_nil q : count q [] = 0%nat.
Proof. reflexivity. Qed.

Lemma remove_all_count sel n :
  count sel (descendants (remove_all sel n)) = 0%nat.
Proof.
  induction n as [d|d|i t a ls cs IH] using node_induction; try reflexivity.
  cbn [remove_all descendants].
  induction IH as [|c cs Hc _ IHcs]; [reflexivity|].
  destruct (matches sel c) eqn:Hm; [exact IHcs|].
  cbn [flat_map app]. rewrite count_cons, count_app, Hc, IHcs.
  replace (matches sel (remove_all sel c)) with (matches sel c);
    [now rewrite Hm|].
  destruct c; reflexivity.
Qed.

Lemma doc_remove_all_count sel d :
  count sel (doc_descendants (doc_remove_all sel d)) = 0%nat.
Proof.
  unfold doc_descendants.
  induction d as [|c d IH]; [reflexivity|].
  cbn [doc_remove_all]. destruct (matches sel c) eqn:Hm; [exact IH|].
  cbn [flat_map app]. rewrite count_cons, count_app, remove_all_count, IH.
  replace (matches sel (remove_all sel c)) with (matches sel c);
    [now rewrite Hm|].
  destruct c; reflexivity.
Qed.

Lemma matches_removeAttribute_all_class cls k n :
  k <> "class" ->
  matches (SelClass cls) (removeAttribute_all k n) = matches (SelClass cls) n.
Proof.
  intros Hk. destruct n as [d|d|i t a ls cs]; try reflexivity.
  cbn [removeAttribute_all matches]. now rewrite lookup_delete_ne.
Qed.

Lemma matches_removeAttribute_all_has k n :
  matches (SelHasAttr k) (removeAttribute_all k n) = false.
Proof.
  destruct n as [d|d|i t a ls cs]; try reflexivity.
  cbn [removeAttribute_all matches]. rewrite lookup_delete_eq.
  apply bool_decide_eq_false. intros [? ?]; discriminate.
Qed.

Lemma removeAttribute_all_count_class cls k n :
  k <> "class" ->
  count (SelClass cls) (descendants (removeAttribute_all k n))
  = count (SelClass cls) (descendants n).
Proof.
  intros Hk.
  induction n as [d|d|i t a ls cs IH] using node_induction; try reflexivity.
  cbn [removeAttribute_all descendants].
  induction IH as [|c cs Hc _ IHcs]; [reflexivity|].
  cbn [map flat_map app]. rewrite !count_cons, !count_app, Hc, IHcs.
  now rewrite matches_removeAttribute_all_class.
Qed.

Lemma removeAttribute_all_count_has k n :
  count (SelHasAttr k) (descendants (removeAttribute_all k n)) = 0%nat.
Proof.
  induction n as [d|d|i t a ls cs IH] using node_induction; try reflexivity.
  cbn [removeAttribute_all descendants].
  induction IH as [|c cs Hc _ IHcs]; [reflexivity|].
  cbn [map flat_map app]. rewrite !count_cons, !count_app, Hc, IHcs.
  now rewrite matches_removeAttribute_all_has.
Qed.

Lemma count_zero_nil q l :
  count q l = 0%nat -> filter (fun d => matches q d = true) l = [].
Proof. unfold count. apply length_zero_iff_nil. Qed.

(** A cleared document has no Control Group and no Processed Marker. *)
Lemma cleared_clean d :
  doc_querySelectorAll SEL_CONTAINER (cleared d) = [] /\
  doc_querySelectorAll SEL_PROCESSED (cleared d) = [].
Proof.
  unfold doc_querySelectorAll, cleared. split; apply count_zero_nil.
  - pose proof (doc_remove_all_count SEL_CONTAINER d) as H.
    revert H. unfold doc_descendants.
    induction (doc_remove_all SEL_CONTAINER d) as [|c l IH]; [reflexivity|].
    cbn [map flat_map app]. rewrite !count_cons, !count_app.
    unfold SEL_CONTAINER at 1 2 4 5.
    rewrite removeAttribute_all_count_class, matches_removeAttribute_all_class
      by discriminate.
    intros H.
    assert (count SEL_CONTAINER (flat_map (fun c => c :: descendants c) l) = 0%nat)
      as H' by (unfold SEL_CONTAINER in *; lia).
    rewrite (IH H'). unfold SEL_CONTAINER in *. lia.
  - unfold doc_descendants.
    induction (doc_remove_all SEL_CONTAINER d) as [|c l IH]; [reflexivity|].
    cbn [map flat_map app]. rewrite !count_cons, !count_app, IH.
    unfold SEL_PROCESSED.
    now rewrite removeAttribute_all_count_has, matches_removeAttribute_all_has.
Qed.

Lemma not_false_flag_of obj key : not_false (get obj key) = flag_of obj key.
Proof.
  unfold get, flag_of. destruct (obj !! key) as [[| |[|]| |]|]; reflexivity.
Qed.

Section Page.

Variable toLowerCase : jsstring -> jsstring.

Abbreviation processAllTweets := (processAllTweets toLowerCase).
Abbreviation processAllTweetsIfEnabled := (processAllTweetsIfEnabled toLowerCase).
Abbreviation on_message := (on_message toLowerCase).
Abbreviation init := (init toLowerCase).
Abbreviation scan := (scan toLowerCase).
Abbreviation advance_to := (advance_to toLowerCase).
Abbreviation deliver := (deliver toLowerCase).
Abbreviation run := (run toLowerCase).

(** C8: a settings-update notification (a message of that action that
    carries a settings object) removes every Control Group and clears every
    Processed Marker of the document, and then rescans the cleared document
    exactly when the new enabled flag is true; so whatever marker or Control
    Group the document holds afterwards was put there by that rescan, and none
    is left when the flag is false. *)
Theorem settings_update_resets req st p :
  action req = ACTION_UPDATE_SETTINGS ->
  settings req = Some st ->
  let enabled := not_false (get st KEY_EXTENSION_ENABLED) in
  let showOpen := not_false (get st KEY_SHOW_OPEN_BTN) in
  let showSearch := not_false (get st KEY_SHOW_SEARCH_BTN) in
  let p' := on_message req p in
  doc_querySelectorAll SEL_CONTAINER (cleared (doc p)) = [] /\
  doc_querySelectorAll SEL_PROCESSED (cleared (doc p)) = [] /\
  doc p' = (if enabled then scan showOpen showSearch (cleared (doc p))
            else cleared (doc p)) /\
  calls p' = calls p ++ (if enabled then [CallProcessAllTweets] else []) /\
  (enabled = false ->
   doc_querySelectorAll SEL_CONTAINER (doc p') = [] /\
   doc_querySelectorAll SEL_PROCESSED (doc p') = []).
Proof.
  intros Ha Hs enabled showOpen showSearch p'.
  destruct (cleared_clean (doc p)) as [Hc Hm].
  assert (Hd : doc p' = (if enabled then scan showOpen showSearch (cleared (doc p))
                         else cleared (doc p))).
  { subst p'. unfold on_message. rewrite Ha, Hs.
    rewrite bool_decide_eq_true_2 by reflexivity.
    cbn [with_flags with_doc isExtensionEnabled doc]. fold enabled.
    destruct enabled; reflexivity. }
  assert (Hl : calls p' = calls p ++ (if enabled then [CallProcessAllTweets] else [])).
  { subst p'. unfold on_message. rewrite Ha, Hs.
    rewrite bool_decide_eq_true_2 by reflexivity.
    cbn [with_flags with_doc isExtensionEnabled doc]. fold enabled.
    destruct enabled; [reflexivity|]. cbn [calls]. now rewrite app_nil_r. }
  split; [exact Hc|]. split; [exact Hm|]. split; [exact Hd|].
  split; [exact Hl|]. intros He. rewrite Hd, He. now split.
Qed.

(** C10: each of the three settings flags is true unless the value stored or
    delivered under its key is the boolean [false]: so it is for the flags
    read by [init], for those of a settings-update message and for the
    enabled flag read before a debounced scan; a missing or [undefined] key
    gives true, and with nothing stored the pipeline runs and shows both
    controls. *)
Theorem flags_default_true :
  (forall v, not_false v = false <-> v = JBool false) /\
  (forall obj key, obj !! key = None \/ obj !! key = Some JUndefined ->
                   not_false (get obj key) = true) /\
  (forall p result, storage p = Some result ->
     isExtensionEnabled (init p) = not_false (get result KEY_EXTENSION_ENABLED) /\
     showOpenBtn (init p) = not_false (get result KEY_SHOW_OPEN_BTN) /\
     showSearchBtn (init p) = not_false (get result KEY_SHOW_SEARCH_BTN)) /\
  (forall req st p,
     action req = ACTION_UPDATE_SETTINGS -> settings req = Some st ->
     isExtensionEnabled (on_message req p) = not_false (get st KEY_EXTENSION_ENABLED) /\
     showOpenBtn (on_message req p) = not_false (get st KEY_SHOW_OPEN_BTN) /\
     showSearchBtn (on_message req p) = not_false (get st KEY_SHOW_SEARCH_BTN)) /\
  (forall p result, storage p = Some result ->
     isExtensionEnabled (processAllTweetsIfEnabled p)
     = not_false (get result KEY_EXTENSION_ENABLED)) /\
  (forall d,
     let p := init (initial_page d (Some ∅)) in
     isExtensionEnabled p = true /\ showOpenBtn p = true /\ showSearchBtn p = true /\
     calls p = [CallProcessAllTweets]).
Proof.
  split; [|split; [|split; [|split; [|split]]]].
  - intros v. split; [|now intros ->].
    destruct v as [| |[|]| |]; simpl; congruence.
  - intros obj key [H|H]; unfold get; now rewrite H.
  - intros p result Hs. unfold init. rewrite Hs.
    cbn [with_flags isExtensionEnabled].
    destruct (not_false (get result KEY_EXTENSION_ENABLED)); repeat split.
  - intros req st p Ha Hs. unfold on_message. rewrite Ha, Hs.
    rewrite bool_decide_eq_true_2 by reflexivity.
    cbn [with_flags with_doc isExtensionEnabled].
    destruct (not_false (get st KEY_EXTENSION_ENABLED)); repeat split.
  - intros p result Hs. unfold processAllTweetsIfEnabled.
    cbn [with_call storage]. rewrite Hs.
    cbn [with_flags isExtensionEnabled].
    destruct (not_false (get result KEY_EXTENSION_ENABLED)); reflexivity.
  - intros d p. subst p. repeat split.
Qed.

End Page.

(** * Further properties *)

(** ** Extracted names and encoded strings *)

(** ** Trimming *)

Lemma drop_while_Forall {A} (P : A -> Prop) (p : A -> bool) (l : list A) :
  Forall P l -> Forall P (drop_while p l).
Proof.
  induction 1 as [|x l Hx Hl IH]; cbn; [constructor|].
  destruct (p x); [exact IH | now constructor].
Qed.

Lemma drop_while_head {A} (p : A -> bool) (l : list A) x r :
  drop_while p l = x :: r -> p x = false.
Proof.
  induction l as [|y l IH]; cbn; [discriminate|].
  destruct (p y) eqn:E; [exact IH|]. intros [= <- <-]. exact E.
Qed.

Lemma drop_while_suffix {A} (p : A -> bool) (l : list A) :
  exists pre, l = pre ++ drop_while p l.
Proof.
  induction l as [|y l [pre IH]]; cbn; [now exists []|].
  destruct (p y); [exists (y :: pre); cbn; now f_equal | now exists []].
Qed.

Lemma drop_while_id {A} (p : A -> bool) (l : list A) :
  match l with [] => True | x :: _ => p x = false end -> drop_while p l = l.
Proof. destruct l as [|x l]; cbn; [reflexivity|]. now intros ->. Qed.

Lemma trim_Forall (P : Z -> Prop) s : Forall P s -> Forall P (trim s).
Proof.
  intros H. unfold trim. apply Forall_rev, drop_while_Forall, Forall_rev,
    drop_while_Forall, H.
Qed.

(** The ends of a trimmed string are not white space. *)
Lemma trim_ends s :
  match trim s with [] => True | x :: _ => is_space x = false end /\
  match rev (trim s) with [] => True | x :: _ => is_space x = false end.
Proof.
  unfold trim. rewrite rev_involutive.
  set (a := drop_while is_space s).
  destruct (drop_while is_space (rev a)) as [|y b] eqn:Eb; [now split|].
  split; [|exact (drop_while_head _ _ _ _ Eb)].
  destruct (drop_while_suffix is_space (rev a)) as [pre Hpre].
  rewrite Eb in Hpre.
  assert (Ha : a = rev (y :: b) ++ rev pre).
  { rewrite <- (rev_involutive a), Hpre, rev_app_distr. reflexivity. }
  destruct (rev (y :: b)) as [|z c] eqn:Ez.
  { apply (f_equal (@length Z)) in Ez. rewrite length_rev in Ez. discriminate. }
  cbn in Ha. subst a. exact (drop_while_head _ _ _ _ Ha).
Qed.

Lemma trim_idempotent s : trim (trim s) = trim s.
Proof.
  destruct (trim_ends s) as [H1 H2].
  unfold trim at 1. rewrite (drop_while_id _ _ H1), (drop_while_id _ _ H2).
  apply rev_involutive.
Qed.

Lemma cleanup_shape raw :
  Forall (fun c => is_surrogate c = false) (cleanup raw) /\
  trim (cleanup raw) = cleanup raw.
Proof.
  unfold cleanup. split; [|apply trim_idempotent].
  apply trim_Forall. rewrite strip_surrogates_filter.
  apply list.Forall_forall. intros c Hc.
  apply list_elem_of_filter in Hc. exact (proj1 Hc).
Qed.

Lemma extractWith_cleanup ps text w :
  extractWith ps text = Some w ->
  w <> [] /\ exists raw, w = cleanup raw.
Proof.
  induction ps as [|[fl r] ps IH]; cbn [extractWith]; [discriminate|].
  destruct (regex_match fl r text) as [m|]; [|exact IH].
  destruct (truthy (capture 1 m)); [|exact IH].
  destruct (0 <? length (cleanup (default [] (capture 1 m))))%nat eqn:E; [|exact IH].
  intros [= <-]. split; [|eauto].
  intros H. rewrite H in E. discriminate.
Qed.

Lemma extractWorldName_clean text name :
  extractWorldName text = Some name ->
  name <> [] /\
  Forall (fun c => is_surrogate c = false) name /\
  trim name = name.
Proof.
  unfold extractWorldName. destruct (negb (nonempty text)); [discriminate|].
  intros H. destruct (extractWith_cleanup _ _ _ H) as [Hne [raw ->]].
  split; [exact Hne|]. apply cleanup_shape.
Qed.

(** X1: a name that [extractWorldName] returns is not empty, contains no
    surrogate code unit, and has no white space at its ends. *)
Theorem extracted_name_is_clean text name :
  extractWorldName text = Some name ->
  name <> [] /\
  Forall (fun c => is_surrogate c = false) name /\
  trim name = name.
Proof. apply extractWorldName_clean. Qed.

(** ** Encoding *)

Lemma Forall_forallb {A} (f : A -> bool) (l : list A) :
  forallb f l = true -> Forall (fun x => f x = true) l.
Proof.
  induction l as [|x l IH]; [constructor|].
  cbn [forallb]. intros H. apply andb_true_iff in H as [H1 H2].
  constructor; auto.
Qed.

Lemma encodeURIComponent_total s :
  Forall (fun c => is_surrogate c = false) s ->
  is_Some (encodeURIComponent s).
Proof.
  induction 1 as [|c s Hc Hs IH]; cbn [encodeURIComponent]; [eauto|].
  destruct IH as [r ->].
  assert (is_low_surrogate c = false /\ is_high_surrogate c = false) as [-> ->].
  { unfold is_surrogate, in_range, is_low_surrogate, is_high_surrogate in *. lia. }
  destruct (uri_unreserved c); cbn; eauto.
Qed.

Lemma hex_digit_unreserved d : 0 <= d < 16 -> uri_unreserved (hex_digit d) = true.
Proof.
  intros Hd. unfold uri_unreserved, hex_digit.
  destruct (Z.ltb_spec d 10).
  - assert (E : in_range 0x30 0x39 (0x30 + d) = true) by (unfold in_range; lia).
    rewrite E. now rewrite orb_true_r.
  - assert (E : in_range 0x41 0x5A (0x41 + (d - 10)) = true) by (unfold in_range; lia).
    now rewrite E.
Qed.

Lemma percent_safe o : 0 <= o < 256 -> Forall (fun c => url_safe c = true) (percent o).
Proof.
  intros Ho. unfold percent.
  repeat constructor; unfold url_safe.
  - rewrite hex_digit_unreserved; [reflexivity|].
    split; [apply Z.div_pos; lia | apply Z.div_lt_upper_bound; lia].
  - rewrite hex_digit_unreserved; [reflexivity|]. apply Z.mod_pos_bound. lia.
Qed.

Lemma utf8_octets cp :
  0 <= cp < 0x110000 -> Forall (fun o => 0 <= o < 256) (utf8_encode_cp cp).
Proof.
  intros Hcp. unfold utf8_encode_cp.
  destruct (Z.ltb_spec cp 0x80); [repeat constructor; lia|].
  destruct (Z.ltb_spec cp 0x800).
  { repeat constructor; Z.div_mod_to_equations; lia. }
  destruct (Z.ltb_spec cp 0x10000).
  { repeat constructor; Z.div_mod_to_equations; lia. }
  repeat constructor; Z.div_mod_to_equations; lia.
Qed.

Lemma escape_safe cp :
  0 <= cp < 0x110000 ->
  Forall (fun c => url_safe c = true) (flat_map percent (utf8_encode_cp cp)).
Proof.
  intros Hcp. pose proof (utf8_octets cp Hcp) as H.
  induction H as [|o l Ho Hl IH]; cbn [flat_map]; [constructor|].
  apply Forall_app. split; [now apply percent_safe | exact IH].
Qed.

Lemma encodeURIComponent_safe_len n : forall s r,
  (length s <= n)%nat ->
  Forall (fun c => is_code_unit c = true) s ->
  encodeURIComponent s = Some r ->
  Forall (fun c => url_safe c = true) r.
Proof.
  induction n as [|n IH]; intros s r Hn Hs.
  { destruct s; [|cbn in Hn; lia]. intros [= <-]. constructor. }
  destruct s as [|c s]; [intros [= <-]; constructor|].
  cbn [length] in Hn. inversion Hs as [|? ? Hc Hs']; subst.
  cbn [encodeURIComponent].
  destruct (uri_unreserved c) eqn:Eu.
  { destruct (encodeURIComponent s) as [r'|] eqn:E; [|discriminate].
    intros [= <-]. constructor.
    - unfold url_safe. now rewrite Eu.
    - apply (IH s); [lia | exact Hs' | exact E]. }
  destruct (is_low_surrogate c); [discriminate|].
  destruct (is_high_surrogate c) eqn:Eh.
  { destruct s as [|d s]; [discriminate|].
    destruct (is_low_surrogate d) eqn:El; [|discriminate].
    destruct (encodeURIComponent s) as [r'|] eqn:E; [|discriminate].
    intros [= <-]. inversion Hs' as [|? ? Hd Hs'']; subst. cbn [length] in Hn.
    apply Forall_app. split.
    - apply escape_safe.
      unfold is_high_surrogate, is_low_surrogate in *. lia.
    - apply (IH s); [lia | exact Hs'' | exact E]. }
  destruct (encodeURIComponent s) as [r'|] eqn:E; [|discriminate].
  intros [= <-]. apply Forall_app. split.
  - apply escape_safe. unfold is_code_unit in Hc. lia.
  - apply (IH s); [lia | exact Hs' | exact E].
Qed.

Lemma Forall_filter_keep {A} (Q : A -> Prop) (P : A -> Prop)
    `{forall c, Decision (P c)} (s : list A) :
  Forall Q s -> Forall Q (filter P s).
Proof.
  intros Hs. apply list.Forall_forall. intros c Hc.
  apply list_elem_of_filter in Hc. destruct Hc as [_ Hc].
  rewrite list.Forall_forall in Hs. now apply Hs.
Qed.

Lemma safeEncodeURIComponent_strip str :
  exists r, safeEncodeURIComponent str = Some r /\
            encodeURIComponent (strip_surrogates str) = Some r.
Proof.
  unfold safeEncodeURIComponent.
  change (replace_all fl_none (Chr (CRange 0xD800 0xDFFF)) str)
    with (strip_surrogates str).
  destruct (encodeURIComponent_total (strip_surrogates str)) as [r Hr].
  { rewrite strip_surrogates_filter. apply list.Forall_forall. intros c Hc.
    apply list_elem_of_filter in Hc. exact (proj1 Hc). }
  exists r. split; [|exact Hr].
  rewrite Hr. destruct str; cbn [nonempty negb]; [|reflexivity].
  rewrite strip_surrogates_filter in Hr. cbn in Hr. congruence.
Qed.

(** X2: [safeEncodeURIComponent] returns a string for every argument, the
    encoding of the argument without its surrogate code units: its [catch]
    branch is never taken. *)
Theorem safeEncodeURIComponent_total str :
  exists r, safeEncodeURIComponent str = Some r /\
            encodeURIComponent (strip_surrogates str) = Some r.
Proof. apply safeEncodeURIComponent_strip. Qed.

(** X3: on a string of UTF-16 code units, what [safeEncodeURIComponent]
    returns consists of unreserved URI characters and percent signs only. *)
Theorem safeEncodeURIComponent_alphabet str r :
  Forall (fun c => is_code_unit c = true) str ->
  safeEncodeURIComponent str = Some r ->
  Forall (fun c => url_safe c = true) r.
Proof.
  intros Hs Hr. destruct (safeEncodeURIComponent_strip str) as [r' [H1 H2]].
  assert (r' = r) as -> by congruence.
  rewrite strip_surrogates_filter in H2.
  eapply encodeURIComponent_safe_len; [reflexivity| |exact H2].
  now apply Forall_filter_keep.
Qed.

(** ** Text in document order *)

Lemma flat_map_flat_map {A B C} (f : B -> list C) (g : A -> list B) l :
  flat_map f (flat_map g l) = flat_map (fun x => flat_map f (g x)) l.
Proof.
  induction l as [|x l IH]; cbn; [reflexivity|].
  now rewrite flat_map_app, IH.
Qed.

Lemma flat_map_ext_Forall {A B} (f g : A -> list B) l :
  Forall (fun x => f x = g x) l -> flat_map f l = flat_map g l.
Proof. induction 1 as [|x l Hx Hl IH]; cbn; [reflexivity|]. now rewrite Hx, IH. Qed.

Lemma traverse_order n : traverse n = flat_map contribution (n :: descendants n).
Proof.
  induction n as [d|d|i t a ls cs IH] using node_induction;
    cbn [traverse descendants flat_map contribution is_emoji_image];
    try now rewrite app_nil_r.
  f_equal. rewrite flat_map_flat_map. apply flat_map_ext_Forall.
  exact IH.
Qed.

Lemma textContent_order n : textContent n = flat_map data_of (n :: descendants n).
Proof.
  induction n as [d|d|i t a ls cs IH] using node_induction;
    cbn [textContent descendants flat_map data_of app];
    try now rewrite app_nil_r.
  { reflexivity. }
  rewrite flat_map_flat_map. apply flat_map_ext_Forall. exact IH.
Qed.

(** X4: [getTextWithEmoji] reads an element in document order: the result is
    the concatenation, over the element and its descendants, of the content
    of each text node and the [alt] of each IMG element that has one. *)
Theorem getTextWithEmoji_document_order e :
  getTextWithEmoji (Some e) = flat_map contribution (e :: descendants e).
Proof. apply traverse_order. Qed.

(** X5: on an element without IMG elements that have an [alt] text,
    [getTextWithEmoji] returns [textContent]. *)
Theorem getTextWithEmoji_without_images e :
  Forall (fun n => is_emoji_image n = false) (e :: descendants e) ->
  getTextWithEmoji (Some e) = textContent e.
Proof.
  intros H. cbn [getTextWithEmoji]. rewrite traverse_order, textContent_order.
  apply flat_map_ext_Forall. eapply Forall_impl; [exact H|].
  intros [d|d|i t a ls cs]; try reflexivity.
  unfold contribution, data_of. now intros ->.
Qed.

Lemma filter_all {A} (P : A -> Prop) `{forall x, Decision (P x)} (l : list A) :
  Forall P l -> filter P l = l.
Proof.
  induction 1 as [|x l Hx _ IH]; [reflexivity|].
  rewrite filter_cons, IH. now destruct (decide (P x)).
Qed.

(** X6: for a name that [extractWorldName] returned, a click on the search
    control opens the search page for the encoding of the whole name: the
    safety step of [safeEncodeURIComponent] drops nothing from it. *)
Theorem search_control_encodes_the_whole_name text name :
  extractWorldName text = Some name ->
  exists e, encodeURIComponent name = Some e /\
            click (createSearchButton name)
            = [WindowOpen (VRCHAT_WEB_BASE ++ js "/search/worlds/" ++ e)].
Proof.
  intros Hx. destruct (extractWorldName_clean _ _ Hx) as (Hn & Hs & _).
  destruct (safeEncodeURIComponent_strip name) as (e & He & He').
  rewrite strip_surrogates_filter, (filter_all _ _ Hs) in He'.
  exists e. split; [exact He'|].
  unfold createSearchButton, click. cbn [map on_click]. now rewrite He.
Qed.

(** ** The identifier loop and the gates of the Post Processor *)

Lemma first_truthy_cons o l :
  first_truthy (o :: l) = if truthy o then o else first_truthy l.
Proof.
  unfold first_truthy. rewrite filter_cons.
  destruct (truthy o); cbn.
  - destruct (decide (true = true)); [reflexivity|congruence].
  - destruct (decide (false = true)); [congruence|reflexivity].
Qed.

Lemma findWorldId_first links :
  findWorldId links =
  first_truthy (map extractWorldIdFromUrl (flat_map id_sources links)).
Proof.
  induction links as [|link rest IH]; [reflexivity|].
  cbn [findWorldId flat_map id_sources app map].
  rewrite !first_truthy_cons, IH.
  destruct (truthy _); [reflexivity|].
  destruct (truthy _); [reflexivity|].
  destruct (truthy _); reflexivity.
Qed.

(** X7: the loop over the anchors of a post returns the first identifier
    found when the URL, the text and the title of each anchor are tried in
    that order, anchor after anchor. *)
Theorem findWorldId_first_truthy links :
  findWorldId links =
  first_truthy (map extractWorldIdFromUrl (flat_map id_sources links)).
Proof. apply findWorldId_first. Qed.

Lemma first_truthy_Some l w :
  first_truthy l = Some w -> Some w ∈ l /\ nonempty w = true.
Proof.
  induction l as [|o l IH]; [discriminate|].
  rewrite first_truthy_cons. destruct (truthy o) eqn:E.
  - intros ->. split; [apply list_elem_of_here | exact E].
  - intros H. destruct (IH H). split; [now apply list_elem_of_further | assumption].
Qed.

(** X8: an identifier found by the loop over the anchors of a post has the
    form of the identifier grammar and was extracted from the URL, the text
    or the title of one of the anchors. *)
Theorem found_identifier_is_well_formed links wid :
  findWorldId links = Some wid ->
  is_world_id wid = true /\
  exists link source, link ∈ links /\ source ∈ id_sources link /\
                      extractWorldIdFromUrl source = Some wid.
Proof.
  rewrite findWorldId_first. intros H.
  apply first_truthy_Some in H as [H _].
  apply list_elem_of_fmap in H as (source & H & Hs).
  apply list_elem_of_In, in_flat_map in Hs as (link & Hl & Hs).
  split; [now apply (extract_shape source)|].
  exists link, source. repeat split; [now apply list_elem_of_In.. | now symmetry].
Qed.

(** Insertion fails exactly when nothing matches. *)
Lemma insertBeforeFirst_None sel new n :
  insertBeforeFirst sel new n = None <-> querySelectorAll sel n = [].
Proof.
  unfold querySelectorAll.
  induction n as [d|d|i t a ls cs IH] using node_induction; try easy.
  cbn [insertBeforeFirst descendants]. rewrite fmap_None.
  induction IH as [|c cs Hc _ IHcs]; [easy|].
  cbn [flat_map app]. rewrite filter_cons, filter_app.
  destruct (matches sel c) eqn:Hm.
  { destruct (decide (true = true)); [|congruence]. easy. }
  destruct (decide (false = true)); [congruence|].
  destruct (insertBeforeFirst sel new c) as [c'|] eqn:Hi.
  { split; [easy|]. intros H. apply app_eq_nil in H as [H _].
    apply Hc in H. discriminate. }
  rewrite fmap_None, IHcs. rewrite (proj1 Hc eq_refl). easy.
Qed.

Lemma insertBeforeFirst_is_Some sel new n :
  is_Some (insertBeforeFirst sel new n) <-> is_Some (querySelector sel n).
Proof.
  unfold querySelector. rewrite <- !not_eq_None_Some, insertBeforeFirst_None.
  rewrite head_None. reflexivity.
Qed.

Lemma hasChildNodes_controlGroup so ss wn id :
  hasChildNodes (controlGroup so ss wn id) = has_controls so ss wn id.
Proof.
  unfold controlGroup, has_controls, hasChildNodes, openControl.
  destruct so, ss; cbn [andb orb app].
  all: destruct id as [[|c id]|]; cbn [truthy nonempty orb];
    destruct wn as [[|d wn]|]; cbn [truthy nonempty option_map andb orb app];
    reflexivity.
Qed.

Section Gates.

Variable toLowerCase : jsstring -> jsstring.

Abbreviation processTweet := (processTweet toLowerCase).
Abbreviation passes_gates := (passes_gates toLowerCase).

Lemma processTweet_gates so ss post :
  if passes_gates so ss post
  then insertBeforeFirst SEL_ACTION_BAR
         (controlGroup so ss (worldName_of post) (foundWorldId_of post))
         (setAttribute PROCESSED_ATTR (js "true") post)
       = Some (processTweet so ss post)
  else processTweet so ss post = mark post.
Proof.
  unfold passes_gates, processTweet, mark, worldName_of, foundWorldId_of, tweetText_of.
  destruct (hasAttribute PROCESSED_ATTR post) eqn:Hp; [reflexivity|].
  rewrite querySelector_setAttribute, querySelectorAll_setAttribute.
  cbn [negb andb].
  destruct (querySelector SEL_TWEET_TEXT post) as [e|]; [|reflexivity].
  cbn [getTextWithEmoji].
  destruct (nonempty (traverse e)); [|reflexivity]. cbn [negb andb].
  destruct (includes _ _); [|reflexivity]. cbn [negb andb].
  rewrite hasChildNodes_controlGroup.
  set (wn := extractWorldName (traverse e)).
  set (id := findWorldId (querySelectorAll SEL_ANCHOR post)).
  destruct (has_controls so ss wn id) eqn:Hc; cbn [andb].
  2:{ destruct (negb (truthy wn) && negb (truthy id)); [reflexivity|].
      rewrite querySelector_setAttribute.
      destruct (bool_decide _); reflexivity. }
  assert (Hr : negb (truthy wn) && negb (truthy id) = false).
  { unfold has_controls in Hc. destruct (truthy wn), (truthy id); try reflexivity.
    now destruct so, ss. }
  rewrite Hr. rewrite querySelector_setAttribute.
  destruct (bool_decide (is_Some (querySelector SEL_BTN post))); [reflexivity|].
  cbn [negb andb].
  destruct (bool_decide (is_Some (querySelector SEL_ACTION_BAR post))) eqn:Hb.
  - apply bool_decide_eq_true in Hb.
    rewrite <- (querySelector_setAttribute _ PROCESSED_ATTR (js "true")) in Hb.
    apply insertBeforeFirst_is_Some with (new := controlGroup so ss wn id) in Hb.
    destruct Hb as [n' Hn']. now rewrite Hn'.
  - apply bool_decide_eq_false in Hb.
    destruct (insertBeforeFirst _ _ _) as [n'|] eqn:Hi; [|reflexivity].
    exfalso. apply Hb.
    rewrite <- (querySelector_setAttribute _ PROCESSED_ATTR (js "true")).
    apply (insertBeforeFirst_is_Some _ (controlGroup so ss wn id)). eauto.
Qed.

(** X9: [processTweet] adds one Control Group to a post exactly when the
    post passes every gate (not yet marked, non-empty text with the trigger
    hashtag, a reference that gives a control under the current settings, no
    control present, an action bar present), and none otherwise. *)
Theorem control_group_added_iff_gates_pass so ss post :
  length (controlGroups (processTweet so ss post)) =
  (length (controlGroups post) + if passes_gates so ss post then 1 else 0)%nat.
Proof.
  pose proof (processTweet_gates so ss post) as H.
  destruct (passes_gates so ss post).
  - unfold controlGroups, querySelectorAll.
    fold (count SEL_CONTAINER (descendants (processTweet so ss post))).
    rewrite (insertBeforeFirst_count SEL_CONTAINER _ _ _ _ H).
    rewrite descendants_setAttribute, controlGroup_count.
    unfold count. lia.
  - rewrite H, controlGroups_mark. lia.
Qed.

End Gates.

(** ** Clearing undoes scanning *)

Lemma remove_all_Element sel i t a ls cs :
  remove_all sel (Element i t a ls cs) = Element i t a ls (doc_remove_all sel cs).
Proof.
  cbn [remove_all]. f_equal.
  induction cs as [|c cs IH]; [reflexivity|].
  cbn [doc_remove_all]. destruct (matches sel c); now rewrite IH.
Qed.

Lemma clear_node_Element i t a ls cs :
  clear_node (Element i t a ls cs) = Element i t (delete PROCESSED_ATTR a) ls (cleared cs).
Proof. unfold clear_node. now rewrite remove_all_Element. Qed.

Lemma cleared_cons c d :
  cleared (c :: d) = if matches SEL_CONTAINER c then cleared d else clear_node c :: cleared d.
Proof.
  unfold cleared. cbn [doc_remove_all]. now destruct (matches SEL_CONTAINER c).
Qed.

Lemma matches_container_clear_node n :
  matches SEL_CONTAINER (clear_node n) = matches SEL_CONTAINER n.
Proof.
  destruct n as [d|d|i t a ls cs]; try reflexivity.
  rewrite clear_node_Element. cbn [matches SEL_CONTAINER].
  now rewrite lookup_delete_ne.
Qed.

Lemma clear_node_idempotent n : clear_node (clear_node n) = clear_node n.
Proof.
  induction n as [d|d|i t a ls cs IH] using node_induction; try reflexivity.
  rewrite !clear_node_Element. f_equal.
  - apply delete_delete_eq.
  - induction IH as [|c cs Hc _ IHcs]; [reflexivity|].
    rewrite !cleared_cons. destruct (matches SEL_CONTAINER c) eqn:Hm; [exact IHcs|].
    rewrite cleared_cons, matches_container_clear_node, Hm, Hc, IHcs. reflexivity.
Qed.

Lemma cleared_idempotent d : cleared (cleared d) = cleared d.
Proof.
  induction d as [|c d IH]; [reflexivity|].
  rewrite !cleared_cons. destruct (matches SEL_CONTAINER c) eqn:Hm; [exact IH|].
  rewrite cleared_cons, matches_container_clear_node, Hm, clear_node_idempotent, IH.
  reflexivity.
Qed.

Lemma cleared_map f d :
  Forall (fun c => clear_node (f c) = clear_node c /\
                   matches SEL_CONTAINER (f c) = matches SEL_CONTAINER c) d ->
  cleared (map f d) = cleared d.
Proof.
  induction 1 as [|c d [Hc Hm] _ IH]; [reflexivity|].
  cbn [map]. now rewrite !cleared_cons, Hm, Hc, IH.
Qed.

Lemma update_at_unseen i f : unseen f -> unseen (update_at i f).
Proof.
  intros Hf n.
  induction n as [d|d|j t a ls cs IH] using node_induction; try easy.
  cbn [update_at]. destruct (bool_decide (j = Some i)); [apply Hf|].
  split; [|reflexivity].
  rewrite !clear_node_Element. f_equal. now apply cleared_map.
Qed.

Lemma clear_node_setAttribute v n :
  clear_node (setAttribute PROCESSED_ATTR v n) = clear_node n.
Proof.
  destruct n as [d|d|i t a ls cs]; try reflexivity.
  cbn [setAttribute]. rewrite !clear_node_Element. f_equal.
  apply delete_insert_eq.
Qed.

Lemma remove_all_insertBeforeFirst sel sel' new n :
  matches sel new = true ->
  forall n', insertBeforeFirst sel' new n = Some n' ->
  remove_all sel n' = remove_all sel n.
Proof.
  intros Hnew.
  induction n as [d|d|i t a ls cs IH] using node_induction; intros n' H;
    try discriminate.
  cbn [insertBeforeFirst] in H. apply fmap_Some in H as (cs' & H & ->).
  rewrite !remove_all_Element. f_equal.
  revert cs' H. induction IH as [|c cs Hc _ IHcs]; intros cs' H; [discriminate|].
  destruct (matches sel' c) eqn:Hm.
  - injection H as <-. cbn [doc_remove_all]. now rewrite Hnew.
  - destruct (insertBeforeFirst sel' new c) as [c'|] eqn:Hi.
    + injection H as <-. cbn [doc_remove_all].
      rewrite (insertBeforeFirst_matches sel _ _ _ _ Hi), (Hc _ eq_refl).
      reflexivity.
    + apply fmap_Some in H as (cs'' & H & ->). cbn [doc_remove_all].
      now rewrite (IHcs _ H).
Qed.

Lemma matches_controlGroup so ss wn id :
  matches SEL_CONTAINER (controlGroup so ss wn id) = true.
Proof. unfold controlGroup. vm_compute. reflexivity. Qed.

Lemma matches_container_mark v n :
  matches SEL_CONTAINER (setAttribute PROCESSED_ATTR v n) = matches SEL_CONTAINER n.
Proof.
  destruct n as [d|d|i t a ls cs]; try reflexivity.
  cbn [setAttribute matches SEL_CONTAINER]. now rewrite lookup_insert_ne.
Qed.

Section Clearing.

Variable toLowerCase : jsstring -> jsstring.

Abbreviation processTweet := (processTweet toLowerCase).
Abbreviation scan := (scan toLowerCase).
Abbreviation processAllTweets := (processAllTweets toLowerCase).
Abbreviation on_message := (on_message toLowerCase).

Lemma mark_unseen : unseen mark.
Proof.
  intros n. unfold mark. destruct (hasAttribute PROCESSED_ATTR n); [easy|].
  split; [apply clear_node_setAttribute | apply matches_container_mark].
Qed.

Lemma processTweet_unseen so ss : unseen (processTweet so ss).
Proof.
  intros n.
  destruct (processTweet_cases toLowerCase so ss n) as [->|(g & -> & Hp & Hi)];
    [apply mark_unseen|].
  split.
  - unfold clear_node.
    rewrite (remove_all_insertBeforeFirst _ _ _ _ (matches_controlGroup _ _ _ _) _ Hi).
    apply clear_node_setAttribute.
  - rewrite (insertBeforeFirst_matches _ _ _ _ _ Hi).
    apply matches_container_mark.
Qed.

Lemma cleared_scan_step so ss tweets : forall d,
  cleared
    (fold_left
       (fun d tweet =>
          match ident_of tweet with
          | Some i => map (update_at i (processTweet so ss)) d
          | None => d
          end) tweets d) = cleared d.
Proof.
  induction tweets as [|t tweets IH]; intros d; [reflexivity|].
  cbn [fold_left]. rewrite IH. destruct (ident_of t) as [i|]; [|reflexivity].
  apply cleared_map, list.Forall_forall. intros c _.
  apply update_at_unseen, processTweet_unseen.
Qed.

Lemma cleared_scan so ss d : cleared (scan so ss d) = cleared d.
Proof. apply cleared_scan_step. Qed.

(** The document after a settings update, by the document before. *)
Lemma on_message_doc req st p :
  action req = ACTION_UPDATE_SETTINGS ->
  settings req = Some st ->
  doc (on_message req p) =
  if not_false (get st KEY_EXTENSION_ENABLED)
  then scan (not_false (get st KEY_SHOW_OPEN_BTN))
            (not_false (get st KEY_SHOW_SEARCH_BTN)) (cleared (doc p))
  else cleared (doc p).
Proof.
  intros Ha Hs. unfold on_message.
  rewrite Ha, Hs, bool_decide_eq_true_2 by reflexivity.
  cbn [with_flags with_doc doc isExtensionEnabled].
  destruct (not_false (get st KEY_EXTENSION_ENABLED)); reflexivity.
Qed.

Lemma on_message_cleared req p :
  cleared (doc (on_message req p)) = cleared (doc p).
Proof.
  unfold on_message.
  destruct (bool_decide _); [|reflexivity].
  destruct (settings req) as [st|]; [|reflexivity].
  cbn [with_flags with_doc doc isExtensionEnabled].
  destruct (not_false (get st KEY_EXTENSION_ENABLED)).
  - unfold processAllTweets.
    cbn [with_doc with_call doc showOpenBtn showSearchBtn].
    rewrite cleared_scan. apply cleared_idempotent.
  - cbn [doc]. apply cleared_idempotent.
Qed.

(** X10: the document after a settings update does not depend on the
    messages handled before it: handling any message first and then the
    update gives the document that the update alone gives. *)
Theorem settings_update_forgets_history req0 req st p :
  action req = ACTION_UPDATE_SETTINGS ->
  settings req = Some st ->
  doc (on_message req (on_message req0 p)) = doc (on_message req p).
Proof.
  intros Ha Hs.
  rewrite !(on_message_doc req st) by assumption.
  now rewrite on_message_cleared.
Qed.

End Clearing.

(** ** Scanning twice *)

Lemma controlGroup_shape so ss wn id :
  exists a bs,
    controlGroup so ss wn id = Element None "DIV" a [] bs /\
    Forall (fun b => exists a' ls' d, b = Element None "BUTTON" a' ls' [TextNode d]) bs.
Proof.
  unfold controlGroup. eexists _, _. split; [reflexivity|].
  apply Forall_app. split.
  - destruct so; [|constructor].
    destruct (openControl wn id) as [b|] eqn:E; [|constructor].
    constructor; [|constructor].
    unfold openControl in E.
    assert (H : forall w, (if truthy wn then option_map createLinkButton w else None) = Some b ->
                exists a' ls' d, b = Element None "BUTTON" a' ls' [TextNode d]).
    { intros w. destruct (truthy wn); [|discriminate].
      destruct w; [|discriminate]. intros [= <-]. unfold createLinkButton. eauto. }
    destruct id as [i|]; [|now apply (H wn)].
    destruct (nonempty i); [|now apply (H wn)].
    apply (inj Some) in E. subst b. unfold createLinkButton, setAttribute. eauto.
  - destruct (ss && truthy wn); constructor; [|constructor].
    unfold createSearchButton. eauto.
Qed.

Lemma settled_controlGroup i so ss wn id : settled i (controlGroup so ss wn id) = true.
Proof.
  destruct (controlGroup_shape so ss wn id) as (a & bs & -> & H).
  cbn [settled]. rewrite bool_decide_eq_false_2 by discriminate.
  induction H as [|b bs (a' & ls' & d & ->) _ IH]; [reflexivity|].
  cbn [forallb settled]. rewrite bool_decide_eq_false_2 by discriminate.
  exact IH.
Qed.

Lemma tweet_ident_None n : ident_of n = None -> tweet_ident n = None.
Proof. unfold tweet_ident. intros ->. now destruct (matches _ _). Qed.

Lemma tweet_idents_controlGroup so ss wn id :
  let g := controlGroup so ss wn id in
  omap tweet_ident (g :: descendants g) = [].
Proof.
  destruct (controlGroup_shape so ss wn id) as (a & bs & -> & H).
  cbn [omap list_omap descendants]. rewrite tweet_ident_None by reflexivity.
  induction H as [|b bs (a' & ls' & d & ->) _ IH]; [reflexivity|].
  cbn [flat_map descendants app omap list_omap].
  rewrite tweet_ident_None by reflexivity. exact IH.
Qed.

Lemma update_at_settled i f n :
  (forall m, hasAttribute PROCESSED_ATTR m = true -> f m = m) ->
  settled i n = true -> update_at i f n = n.
Proof.
  intros Hf.
  induction n as [d|d|j t a ls cs IH] using node_induction; try reflexivity.
  cbn [settled update_at]. destruct (bool_decide (j = Some i)); [apply Hf|].
  intros H. f_equal. induction IH as [|c cs Hc _ IHcs]; [reflexivity|].
  cbn [forallb] in H. apply andb_true_iff in H as [H1 H2].
  cbn [map]. now rewrite Hc, IHcs.
Qed.

Lemma settled_insertBeforeFirst i sel new n :
  settled i new = true ->
  forall n', insertBeforeFirst sel new n = Some n' -> settled i n' = settled i n.
Proof.
  intros Hnew.
  induction n as [d|d|j t a ls cs IH] using node_induction; intros n' H;
    try discriminate.
  cbn [insertBeforeFirst] in H. apply fmap_Some in H as (cs' & H & ->).
  cbn [settled]. destruct (bool_decide (j = Some i)); [reflexivity|].
  revert cs' H. induction IH as [|c cs Hc _ IHcs]; intros cs' H; [discriminate|].
  destruct (matches sel c).
  - injection H as <-. cbn [forallb]. now rewrite Hnew.
  - destruct (insertBeforeFirst sel new c) as [c'|] eqn:Hi.
    + injection H as <-. cbn [forallb]. now rewrite (Hc _ eq_refl).
    + apply fmap_Some in H as (cs'' & H & ->). cbn [forallb].
      now rewrite (IHcs _ H).
Qed.

Lemma settled_setAttribute i v n :
  settled i n = true -> settled i (setAttribute PROCESSED_ATTR v n) = true.
Proof.
  destruct n as [d|d|j t a ls cs]; try easy.
  cbn [setAttribute settled]. destruct (bool_decide (j = Some i)); [|easy].
  intros _. apply hasAttribute_setAttribute.
Qed.

Lemma tweet_ident_setAttribute v n :
  tweet_ident (setAttribute PROCESSED_ATTR v n) = tweet_ident n.
Proof.
  destruct n as [d|d|j t a ls cs]; try reflexivity.
  unfold tweet_ident. cbn [setAttribute matches SEL_TWEET ident_of].
  now rewrite lookup_insert_ne.
Qed.

Lemma tweet_ident_insertBeforeFirst sel new n n' :
  insertBeforeFirst sel new n = Some n' -> tweet_ident n' = tweet_ident n.
Proof.
  destruct n as [d|d|j t a ls cs]; try discriminate.
  intros H. apply insertBeforeFirst_attrs in H as (cs' & ->). reflexivity.
Qed.

Lemma tweet_idents_insertBeforeFirst sel new n :
  omap tweet_ident (new :: descendants new) = [] ->
  forall n', insertBeforeFirst sel new n = Some n' ->
  omap tweet_ident (descendants n') = omap tweet_ident (descendants n).
Proof.
  intros Hnew.
  induction n as [d|d|j t a ls cs IH] using node_induction; intros n' H;
    try discriminate.
  cbn [insertBeforeFirst] in H. apply fmap_Some in H as (cs' & H & ->).
  cbn [descendants].
  revert cs' H. induction IH as [|c cs Hc _ IHcs]; intros cs' H; [discriminate|].
  destruct (matches sel c).
  - injection H as <-. cbn [flat_map]. rewrite !omap_app, Hnew. reflexivity.
  - destruct (insertBeforeFirst sel new c) as [c'|] eqn:Hi.
    + injection H as <-. cbn [flat_map app omap list_omap].
      rewrite (tweet_ident_insertBeforeFirst _ _ _ _ Hi), !omap_app, (Hc _ eq_refl).
      reflexivity.
    + apply fmap_Some in H as (cs'' & H & ->). cbn [flat_map].
      rewrite !omap_app. now rewrite (IHcs _ H).
Qed.

Section Rescan.

Variable toLowerCase : jsstring -> jsstring.

Abbreviation processTweet := (processTweet toLowerCase).
Abbreviation scan := (scan toLowerCase).
Abbreviation scan_step := (scan_step toLowerCase).

Lemma settled_processTweet i so ss n :
  settled i n = true -> settled i (processTweet so ss n) = true.
Proof.
  intros H.
  destruct (processTweet_cases toLowerCase so ss n) as [->|(g & -> & Hp & Hi)].
  - unfold mark. destruct (hasAttribute _ _); [exact H|].
    now apply settled_setAttribute.
  - rewrite (settled_insertBeforeFirst i _ _ _ (settled_controlGroup i _ _ _ _) _ Hi).
    now apply settled_setAttribute.
Qed.

Lemma processTweet_ident so ss n : ident_of (processTweet so ss n) = ident_of n.
Proof.
  destruct (processTweet_cases toLowerCase so ss n) as [->|(g & -> & Hp & Hi)].
  - unfold mark. destruct (hasAttribute _ _); [reflexivity|]. now destruct n.
  - destruct n as [d|d|j t a ls cs]; try discriminate.
    apply insertBeforeFirst_attrs in Hi as (cs' & ->). reflexivity.
Qed.

Lemma settled_update_at i j so ss n :
  settled i n = true -> settled i (update_at j (processTweet so ss) n) = true.
Proof.
  induction n as [d|d|k t a ls cs IH] using node_induction; try easy.
  intros H. cbn [update_at].
  destruct (bool_decide (k = Some j)); [now apply settled_processTweet|].
  revert H. cbn [settled]. destruct (bool_decide (k = Some i)); [easy|].
  induction IH as [|c cs Hc _ IHcs]; [easy|].
  cbn [map forallb]. rewrite !andb_true_iff. intros [H1 H2]. auto.
Qed.

Lemma settled_update_at_same i so ss n :
  settled i (update_at i (processTweet so ss) n) = true.
Proof.
  induction n as [d|d|k t a ls cs IH] using node_induction; try easy.
  cbn [update_at]. destruct (bool_decide (k = Some i)) eqn:E.
  - apply bool_decide_eq_true in E. subst k.
    pose proof (processTweet_ident so ss (Element (Some i) t a ls cs)) as Hid.
    pose proof (processTweet_marked toLowerCase so ss (Some i) t a ls cs) as Hm.
    destruct (processTweet so ss (Element (Some i) t a ls cs)) as [d|d|k t' a' ls' cs'];
      try reflexivity.
    cbn [ident_of] in Hid. subst k. cbn [settled].
    now rewrite bool_decide_eq_true_2.
  - cbn [settled]. rewrite E.
    induction IH as [|c cs Hc _ IHcs]; [easy|].
    cbn [map forallb]. now rewrite Hc, IHcs.
Qed.

Lemma scan_fold so ss d :
  scan so ss d = fold_left (scan_step so ss) (doc_querySelectorAll SEL_TWEET d) d.
Proof. reflexivity. Qed.

Lemma settled_scan_step i so ss d t :
  forallb (settled i) d = true -> forallb (settled i) (scan_step so ss d t) = true.
Proof.
  unfold scan_step. destruct (ident_of t) as [j|]; [|easy].
  induction d as [|c d IH]; [easy|].
  cbn [map forallb]. rewrite !andb_true_iff. intros [H1 H2].
  split; [now apply settled_update_at | auto].
Qed.

Lemma settled_fold i so ss tweets : forall d,
  forallb (settled i) d = true ->
  forallb (settled i) (fold_left (scan_step so ss) tweets d) = true.
Proof.
  induction tweets as [|t tweets IH]; intros d H; [exact H|].
  cbn [fold_left]. now apply IH, settled_scan_step.
Qed.

Lemma settled_after_fold i so ss tweets : forall d t,
  t ∈ tweets -> ident_of t = Some i ->
  forallb (settled i) (fold_left (scan_step so ss) tweets d) = true.
Proof.
  induction tweets as [|t0 tweets IH]; intros d t Ht Hi.
  { now apply elem_of_nil in Ht. }
  cbn [fold_left]. apply elem_of_cons in Ht as [<-|Ht]; [|now apply (IH _ t)].
  apply settled_fold. unfold scan_step. rewrite Hi.
  induction d as [|c d IHd]; [reflexivity|].
  cbn [map forallb]. now rewrite settled_update_at_same, IHd.
Qed.

Lemma map_update_at_settled i so ss d :
  forallb (settled i) d = true -> map (update_at i (processTweet so ss)) d = d.
Proof.
  induction d as [|c d IHd]; [reflexivity|].
  cbn [forallb map]. intros H. apply andb_true_iff in H as [H1 H2].
  rewrite IHd by exact H2. f_equal.
  apply update_at_settled; [|exact H1].
  apply processTweet_processed.
Qed.

Lemma fold_settled so ss d tweets :
  (forall t i, t ∈ tweets -> ident_of t = Some i -> forallb (settled i) d = true) ->
  fold_left (scan_step so ss) tweets d = d.
Proof.
  induction tweets as [|t tweets IH]; intros H; [reflexivity|].
  cbn [fold_left].
  assert (E : scan_step so ss d t = d).
  { unfold scan_step. destruct (ident_of t) as [i|] eqn:Hi; [|reflexivity].
    apply map_update_at_settled, (H t i (list_elem_of_here _ _) Hi). }
  rewrite E. apply IH. intros t' i Ht'. apply H. now apply list_elem_of_further.
Qed.

Lemma processTweet_keeps_idents so ss : keeps_idents (processTweet so ss).
Proof.
  intros n.
  destruct (processTweet_cases toLowerCase so ss n) as [->|(g & -> & Hp & Hi)].
  - unfold mark. destruct (hasAttribute _ _); [easy|].
    now rewrite tweet_ident_setAttribute, descendants_setAttribute.
  - rewrite (tweet_ident_insertBeforeFirst _ _ _ _ Hi), tweet_ident_setAttribute.
    rewrite (tweet_idents_insertBeforeFirst _ _ _
               (tweet_idents_controlGroup _ _ _ _) _ Hi).
    now rewrite descendants_setAttribute.
Qed.

Lemma tweet_idents_map f d :
  Forall (fun c => tweet_ident (f c) = tweet_ident c /\
                   omap tweet_ident (descendants (f c))
                   = omap tweet_ident (descendants c)) d ->
  omap tweet_ident (doc_descendants (map f d)) = omap tweet_ident (doc_descendants d).
Proof.
  unfold doc_descendants.
  induction 1 as [|c d [H1 H2] _ IH]; [reflexivity|].
  cbn [map flat_map app omap list_omap]. now rewrite H1, !omap_app, H2, IH.
Qed.

Lemma update_at_keeps_idents i f : keeps_idents f -> keeps_idents (update_at i f).
Proof.
  intros Hf n.
  induction n as [d|d|j t a ls cs IH] using node_induction; try easy.
  cbn [update_at]. destruct (bool_decide (j = Some i)); [apply Hf|].
  split; [reflexivity|]. cbn [descendants].
  now apply (tweet_idents_map (update_at i f) cs).
Qed.

Lemma tweet_idents_fold so ss tweets : forall d,
  omap tweet_ident (doc_descendants (fold_left (scan_step so ss) tweets d))
  = omap tweet_ident (doc_descendants d).
Proof.
  induction tweets as [|t tweets IH]; intros d; [reflexivity|].
  cbn [fold_left]. rewrite IH. unfold scan_step.
  destruct (ident_of t) as [i|]; [|reflexivity].
  apply tweet_idents_map, list.Forall_forall. intros c _.
  apply update_at_keeps_idents, processTweet_keeps_idents.
Qed.

Lemma tweet_ident_Some d t i :
  t ∈ doc_querySelectorAll SEL_TWEET d -> ident_of t = Some i ->
  i ∈ omap tweet_ident (doc_descendants d).
Proof.
  intros Ht Hi. apply list_elem_of_filter in Ht as [Hm Ht].
  apply list_elem_of_omap. exists t. split; [exact Ht|].
  unfold tweet_ident. now rewrite Hm.
Qed.

Lemma tweet_ident_elem d i :
  i ∈ omap tweet_ident (doc_descendants d) ->
  exists t, t ∈ doc_querySelectorAll SEL_TWEET d /\ ident_of t = Some i.
Proof.
  intros H. apply list_elem_of_omap in H as (t & Ht & Hi).
  unfold tweet_ident in Hi. destruct (matches SEL_TWEET t) eqn:Hm; [|discriminate].
  exists t. split; [|exact Hi]. apply list_elem_of_filter. now split.
Qed.

(** X11: the Feed Scanner is idempotent: scanning a scanned document
    changes nothing, for every document and all settings. *)
Theorem scan_idempotent so ss d : scan so ss (scan so ss d) = scan so ss d.
Proof.
  rewrite (scan_fold so ss (scan so ss d)).
  apply fold_settled. intros t i Ht Hi.
  apply (tweet_ident_Some _ _ _ Ht) in Hi.
  rewrite scan_fold, tweet_idents_fold in Hi.
  apply tweet_ident_elem in Hi as (t0 & Ht0 & Hi0).
  rewrite scan_fold. now apply (settled_after_fold i so ss _ d t0).
Qed.

End Rescan.

(** ** Settings updates *)

Lemma has_controls_off wn id : has_controls false false wn id = false.
Proof. reflexivity. Qed.

Lemma count_map q f d :
  Forall (fun c => matches q (f c) = matches q c /\
                   count q (descendants (f c)) = count q (descendants c)) d ->
  count q (doc_descendants (map f d)) = count q (doc_descendants d).
Proof.
  unfold doc_descendants.
  induction 1 as [|c d [H1 H2] _ IH]; [reflexivity|].
  cbn [map flat_map app]. now rewrite !count_cons, !count_app, H1, H2, IH.
Qed.

Lemma update_at_count q i f :
  (forall n, matches q (f n) = matches q n /\
             count q (descendants (f n)) = count q (descendants n)) ->
  forall n, matches q (update_at i f n) = matches q n /\
            count q (descendants (update_at i f n)) = count q (descendants n).
Proof.
  intros Hf n.
  induction n as [d|d|j t a ls cs IH] using node_induction; try easy.
  cbn [update_at]. destruct (bool_decide (j = Some i)); [apply Hf|].
  split; [reflexivity|]. cbn [descendants].
  now apply (count_map q (update_at i f) cs).
Qed.

Section Toggles.

Variable toLowerCase : jsstring -> jsstring.

Abbreviation processTweet := (processTweet toLowerCase).
Abbreviation scan := (scan toLowerCase).
Abbreviation on_message := (on_message toLowerCase).

Lemma processTweet_off post : processTweet false false post = mark post.
Proof.
  pose proof (processTweet_gates toLowerCase false false post) as H.
  unfold passes_gates in H. rewrite has_controls_off, !andb_false_r in H.
  exact H.
Qed.

Lemma scan_off_count d :
  count SEL_CONTAINER (doc_descendants (scan false false d))
  = count SEL_CONTAINER (doc_descendants d).
Proof.
  unfold scan.
  generalize (doc_querySelectorAll SEL_TWEET d). intros tweets. revert d.
  induction tweets as [|t tweets IH]; intros d; [reflexivity|].
  cbn [fold_left]. rewrite IH. destruct (ident_of t) as [i|]; [|reflexivity].
  apply count_map, list.Forall_forall. intros c _.
  apply update_at_count. intros n. rewrite processTweet_off.
  unfold mark. destruct (hasAttribute _ _); [easy|].
  split; [apply matches_container_mark | now rewrite descendants_setAttribute].
Qed.

(** X12: after a settings update that turns both controls off, the document
    has no Control Group, whether or not the extension is enabled. *)
Theorem no_controls_when_both_buttons_are_off req st p :
  action req = ACTION_UPDATE_SETTINGS ->
  settings req = Some st ->
  not_false (get st KEY_SHOW_OPEN_BTN) = false ->
  not_false (get st KEY_SHOW_SEARCH_BTN) = false ->
  doc_querySelectorAll SEL_CONTAINER (doc (on_message req p)) = [].
Proof.
  intros Ha Hs Ho Hb. rewrite (on_message_doc toLowerCase req st) by assumption.
  rewrite Ho, Hb.
  destruct (not_false (get st KEY_EXTENSION_ENABLED)); [|apply cleared_clean].
  apply count_zero_nil. rewrite scan_off_count.
  destruct (cleared_clean (doc p)) as [H _].
  unfold count. fold (doc_querySelectorAll SEL_CONTAINER (cleared (doc p))).
  now rewrite H.
Qed.

(** X13: on a page that carries no marker and no Control Group, handling
    any message and then a settings update that disables the extension gives
    the document back as it was. *)
Theorem disabling_restores_the_page req_on req_off st p :
  action req_off = ACTION_UPDATE_SETTINGS ->
  settings req_off = Some st ->
  not_false (get st KEY_EXTENSION_ENABLED) = false ->
  cleared (doc p) = doc p ->
  doc (on_message req_off (on_message req_on p)) = doc p.
Proof.
  intros Ha Hs Hoff Hclean.
  rewrite (on_message_doc toLowerCase req_off st) by assumption.
  now rewrite Hoff, on_message_cleared.
Qed.

End Toggles.

(** ** The host's timers *)

Lemma earliest_None l : earliest l = None -> l = [].
Proof.
  destruct l as [|tm l]; [reflexivity|]. cbn [earliest].
  destruct (earliest l) as [tm'|]; [|discriminate].
  destruct (bool_decide _); discriminate.
Qed.

Lemma earliest_elem l tm : earliest l = Some tm -> tm ∈ l.
Proof.
  revert tm. induction l as [|x l IH]; intros tm; [discriminate|].
  cbn [earliest]. destruct (earliest l) as [tm'|].
  - destruct (bool_decide _); intros [= <-];
      [apply list_elem_of_here | apply list_elem_of_further, IH; reflexivity].
  - intros [= <-]. apply list_elem_of_here.
Qed.

Lemma earliest_least l tm :
  earliest l = Some tm -> Forall (fun x => tm.2 <= x.2) l.
Proof.
  revert tm. induction l as [|x l IH]; intros tm; [constructor|].
  cbn [earliest]. destruct (earliest l) as [tm'|] eqn:E.
  - specialize (IH tm' eq_refl).
    destruct (bool_decide (x.2 <= tm'.2)) eqn:Hb; intros [= <-].
    + apply bool_decide_eq_true in Hb. constructor; [lia|].
      eapply Forall_impl; [exact IH|]. cbn. intros; lia.
    + apply bool_decide_eq_false in Hb. constructor; [lia | exact IH].
  - apply earliest_None in E. subst l. intros [= <-]. constructor; [lia|constructor].
Qed.

Lemma pending_work_cons t tm l :
  pending_work t (tm :: l) = (Z.to_nat (t + 1 - tm.2) + pending_work t l)%nat.
Proof. reflexivity. Qed.

Lemma pending_work_app t l1 l2 :
  pending_work t (l1 ++ l2) = (pending_work t l1 + pending_work t l2)%nat.
Proof.
  induction l1 as [|tm l1 IH]; [reflexivity|].
  cbn [app]. rewrite !pending_work_cons, IH. lia.
Qed.

Lemma pending_work_filter t (P : nat * Z -> Prop) `{forall x, Decision (P x)} l :
  (pending_work t (filter P l) <= pending_work t l)%nat.
Proof.
  induction l as [|tm l IH]; [reflexivity|].
  rewrite filter_cons. destruct (decide (P tm)); rewrite !pending_work_cons; lia.
Qed.

Lemma pending_work_remove t id due l :
  (id, due) ∈ l ->
  (pending_work t (filter (fun tm => tm.1 ≠ id) l) + Z.to_nat (t + 1 - due)
   <= pending_work t l)%nat.
Proof.
  induction l as [|tm l IH]; intros H; [now apply elem_of_nil in H|].
  rewrite filter_cons, pending_work_cons.
  apply elem_of_cons in H as [<-|H].
  - cbn [fst snd]. destruct (decide (id ≠ id)); [congruence|].
    pose proof (pending_work_filter t (fun tm : nat * Z => tm.1 ≠ id) l). lia.
  - specialize (IH H). destruct (decide (tm.1 ≠ id));
      rewrite ?pending_work_cons; lia.
Qed.

Section Host.

Variable toLowerCase : jsstring -> jsstring.

Abbreviation processAllTweetsIfEnabled := (processAllTweetsIfEnabled toLowerCase).
Abbreviation fire := (fire toLowerCase).
Abbreviation advance := (advance toLowerCase).
Abbreviation advance_to := (advance_to toLowerCase).

Lemma processAllTweetsIfEnabled_host p :
  timers (processAllTweetsIfEnabled p) = timers p /\
  debounceTimerId (processAllTweetsIfEnabled p) = debounceTimerId p /\
  observing (processAllTweetsIfEnabled p) = observing p /\
  storage (processAllTweetsIfEnabled p) = storage p /\
  clock (processAllTweetsIfEnabled p) = clock p /\
  nextTimerId (processAllTweetsIfEnabled p) = nextTimerId p.
Proof.
  unfold processAllTweetsIfEnabled.
  cbn [with_call storage].
  destruct (storage p) as [st|] eqn:E;
    [|repeat split; try reflexivity; exact E].
  cbn [with_flags isExtensionEnabled].
  destruct (not_false _); repeat split; try reflexivity; exact E.
Qed.

(** What a timeout leaves pending: what was pending, or, when its callback
    inserted something under an observer, the timeout set anew. *)
Lemma fire_timers p :
  clock (fire p) = clock p /\
  (timers (fire p) = timers p \/
   exists l, timers (fire p) = l ++ [(nextTimerId p, clock p + DEBOUNCE_DELAY_MS)] /\
             forall t, (pending_work t l <= pending_work t (timers p))%nat).
Proof.
  destruct (processAllTweetsIfEnabled_host p) as (Ht & Hd & Ho & Hs & Hc & Hn).
  unfold fire. destruct (observing (processAllTweetsIfEnabled p)); [|now split; [|left]].
  unfold on_mutations. destruct (existsb _ _); [|now split; [|left]].
  destruct (debounceTimerId (processAllTweetsIfEnabled p)) as [id|];
    cbn [setTimeout clearTimeout clock timers nextTimerId];
    rewrite Hc, Ht, Hn; (split; [reflexivity|]); right; eexists; (split; [reflexivity|]).
  - intros t. apply pending_work_filter.
  - reflexivity.
Qed.

(** A timeout that fires leaves less work. *)
Lemma fire_less t p id due :
  earliest (timers p) = Some (id, due) -> due <= t ->
  (pending_work t (timers (fire (pop id due p))) < pending_work t (timers p))%nat.
Proof.
  intros He Hd. apply earliest_elem in He.
  pose proof (pending_work_remove t id due _ He) as Hr.
  destruct (fire_timers (pop id due p)) as [_ [Ht|(l & Ht & Hl)]]; rewrite Ht.
  - cbn [pop timers]. lia.
  - specialize (Hl t). cbn [pop timers clock nextTimerId] in *.
    rewrite pending_work_app, pending_work_cons. cbn [pending_work foldr snd].
    unfold DEBOUNCE_DELAY_MS. lia.
Qed.

Lemma advance_idle f t p :
  match earliest (timers p) with
  | Some (id, due) => t < due
  | None => True
  end -> advance f t p = tick t p.
Proof.
  destruct f as [|f]; cbn [advance]; [now destruct (earliest _) as [[? ?]|]|].
  destruct (earliest (timers p)) as [[id due]|]; [|reflexivity].
  intros H. rewrite bool_decide_eq_false_2 by lia. reflexivity.
Qed.

Lemma advance_enough t f : forall g p,
  (pending_work t (timers p) <= f)%nat -> (pending_work t (timers p) <= g)%nat ->
  advance f t p = advance g t p.
Proof.
  induction f as [|f IH]; intros g p Hf Hg.
  - destruct (earliest (timers p)) as [[id due]|] eqn:He.
    + destruct (decide (due <= t)) as [Hd|Hd].
      * pose proof (fire_less t p id due He Hd). lia.
      * rewrite !advance_idle; [reflexivity|rewrite He; lia..].
    + rewrite !advance_idle; [reflexivity|now rewrite He..].
  - destruct (earliest (timers p)) as [[id due]|] eqn:He.
    + destruct (decide (due <= t)) as [Hd|Hd].
      * pose proof (fire_less t p id due He Hd) as Hl.
        destruct g as [|g]; [lia|].
        cbn [advance]. rewrite He, bool_decide_eq_true_2 by exact Hd.
        apply IH; lia.
      * rewrite !advance_idle; [reflexivity|rewrite He; lia..].
    + rewrite !advance_idle; [reflexivity|now rewrite He..].
Qed.

(** The host fires the timeout due first, and goes on from there. *)
Lemma advance_to_eq t p :
  advance_to t p =
  match earliest (timers p) with
  | Some (id, due) =>
    if bool_decide (due <= t) then advance_to t (fire (pop id due p)) else tick t p
  | None => tick t p
  end.
Proof.
  unfold advance_to at 1.
  destruct (earliest (timers p)) as [[id due]|] eqn:He.
  - destruct (decide (due <= t)) as [Hd|Hd].
    + rewrite bool_decide_eq_true_2 by exact Hd.
      pose proof (fire_less t p id due He Hd) as Hl.
      destruct (pending_work t (timers p)) as [|f] eqn:Ef; [lia|].
      cbn [advance]. rewrite He, bool_decide_eq_true_2 by exact Hd.
      apply advance_enough; lia.
    + rewrite bool_decide_eq_false_2 by exact Hd.
      apply advance_idle. rewrite He. lia.
  - apply advance_idle. now rewrite He.
Qed.

(** The bound of [advance_to] is enough: no timeout due by [t] is left. *)
Lemma advance_to_settles t p :
  Forall (fun tm => t < tm.2) (timers (advance_to t p)).
Proof.
  remember (pending_work t (timers p)) as n eqn:En. revert p En.
  induction n as [n IH] using lt_wf_ind. intros p En.
  rewrite advance_to_eq. destruct (earliest (timers p)) as [[id due]|] eqn:He.
  - destruct (decide (due <= t)) as [Hd|Hd].
    + rewrite bool_decide_eq_true_2 by exact Hd.
      apply (IH (pending_work t (timers (fire (pop id due p))))); [|reflexivity].
      subst n. now apply fire_less.
    + rewrite bool_decide_eq_false_2 by exact Hd. cbn [tick timers].
      apply earliest_least in He. eapply Forall_impl; [exact He|].
      cbn. intros; lia.
  - apply earliest_None in He. cbn [tick timers]. rewrite He. constructor.
Qed.

End Host.

(** ** The records of a scan *)



Section Records.

Variable toLowerCase : jsstring -> jsstring.

Abbreviation processTweet := (processTweet toLowerCase).
Abbreviation passes_gates := (passes_gates toLowerCase).
Abbreviation inserted := (inserted toLowerCase).
Abbreviation scan := (scan toLowerCase).
Abbreviation scan_step := (scan_step toLowerCase).
Abbreviation scan_records := (scan_records toLowerCase).



Abbreviation step_records := (step_records toLowerCase).
Abbreviation scan_records_from := (scan_records_from toLowerCase).





(** Each record stands for one Control Group more in the document. *)
Lemma processTweet_inserted_count so ss post :
  matches SEL_CONTAINER (processTweet so ss post) = matches SEL_CONTAINER post /\
  count SEL_CONTAINER (descendants (processTweet so ss post))
  = (count SEL_CONTAINER (descendants post) + length (inserted so ss post))%nat.
Proof.
  pose proof (processTweet_gates toLowerCase so ss post) as H.
  unfold inserted. destruct (passes_gates so ss post).
  - split.
    + rewrite (insertBeforeFirst_matches _ _ _ _ _ H). apply matches_container_mark.
    + rewrite (insertBeforeFirst_count SEL_CONTAINER _ _ _ _ H).
      now rewrite descendants_setAttribute, controlGroup_count.
  - rewrite H. unfold mark. destruct (hasAttribute _ _).
    + split; [reflexivity | cbn [length]; lia].
    + split; [apply matches_container_mark|].
      rewrite descendants_setAttribute. cbn [length]. lia.
Qed.








End Records.

(** ** Two calls of the Post Processor *)

Section Twice.

Variable toLowerCase : jsstring -> jsstring.

Abbreviation processTweet := (processTweet toLowerCase).
Abbreviation passes_gates := (passes_gates toLowerCase).

(** C1 (amended): two calls of the Post Processor on a Post leave exactly
    the Control Groups of one call.  The first call sets the Processed
    Marker and adds exactly one Control Group when the Post passes every gate
    (no marker yet, non-empty text with the trigger hashtag, a reference
    that gives a control under the settings, no control present, an action
    bar present), and none when a gate stops it; the second call returns the
    Post unchanged. *)
Theorem processTweet_idempotent so ss i t a ls cs :
  let post := Element i t a ls cs in
  let once := processTweet so ss post in
  let twice := processTweet so ss once in
  hasAttribute PROCESSED_ATTR once = true /\
  twice = once /\
  length (controlGroups twice)
  = (length (controlGroups post) + if passes_gates so ss post then 1 else 0)%nat.
Proof.
  intros post once twice.
  assert (Hm : hasAttribute PROCESSED_ATTR once = true)
    by apply processTweet_marked.
  assert (Ht : twice = once) by (apply processTweet_processed; exact Hm).
  repeat split; [exact Hm | exact Ht |].
  rewrite Ht. subst once. unfold controlGroups, querySelectorAll.
  fold (count SEL_CONTAINER (descendants (processTweet so ss post))).
  fold (count SEL_CONTAINER (descendants post)).
  rewrite (proj2 (processTweet_inserted_count toLowerCase so ss post)).
  unfold inserted. now destruct (passes_gates so ss post).
Qed.

End Twice.

(** ** Timers and the stored flag *)

Section Watcher.

Variable toLowerCase : jsstring -> jsstring.

Abbreviation processAllTweets := (processAllTweets toLowerCase).
Abbreviation processAllTweetsIfEnabled := (processAllTweetsIfEnabled toLowerCase).
Abbreviation scan := (scan toLowerCase).
Abbreviation scan_records := (scan_records toLowerCase).
Abbreviation timer_records := (timer_records toLowerCase).
Abbreviation fire := (fire toLowerCase).
Abbreviation advance := (advance toLowerCase).
Abbreviation advance_to := (advance_to toLowerCase).
Abbreviation deliver := (deliver toLowerCase).
Abbreviation run := (run toLowerCase).
Abbreviation on_message := (on_message toLowerCase).
Abbreviation receive := (receive toLowerCase).
Abbreviation init := (init toLowerCase).
Abbreviation step := (step toLowerCase).
Abbreviation execute := (execute toLowerCase).

Lemma one_pending_on_mutations batch p :
  one_pending p -> one_pending (on_mutations batch p).
Proof.
  intros H. unfold on_mutations. destruct (existsb _ _); [|exact H].
  right. destruct H as [H|(id & due & H & Hid)].
  - exists (nextTimerId p), (clock p + DEBOUNCE_DELAY_MS).
    destruct (debounceTimerId p) as [id|];
      cbn [setTimeout clearTimeout timers debounceTimerId nextTimerId clock];
      rewrite H; easy.
  - rewrite Hid.
    cbn [setTimeout clearTimeout timers debounceTimerId nextTimerId clock].
    rewrite H, filter_cons, filter_nil. cbn [fst].
    destruct (decide (id ≠ id)); [congruence|]. eauto.
Qed.

Lemma one_pending_fire p : one_pending p -> one_pending (fire p).
Proof.
  intros H. unfold fire.
  assert (Hq : one_pending (processAllTweetsIfEnabled p)).
  { destruct (processAllTweetsIfEnabled_host toLowerCase p) as (Ht & Hd & _).
    unfold one_pending. now rewrite Ht, Hd. }
  destruct (observing _); [now apply one_pending_on_mutations | exact Hq].
Qed.

Lemma one_pending_pop id due p : one_pending p -> one_pending (pop id due p).
Proof.
  intros [H|(id' & due' & H & Hid)]; unfold one_pending; cbn [pop timers debounceTimerId];
    rewrite H.
  - now left.
  - rewrite filter_cons, filter_nil. destruct (decide _); [|now left].
    right. eauto.
Qed.

Lemma one_pending_advance t f : forall p,
  one_pending p -> one_pending (advance f t p).
Proof.
  induction f as [|f IH]; intros p H; [exact H|].
  cbn [advance]. destruct (earliest (timers p)) as [[id due]|]; [|exact H].
  destruct (bool_decide (due <= t)); [|exact H].
  now apply IH, one_pending_fire, one_pending_pop.
Qed.

Lemma one_pending_advance_to t p : one_pending p -> one_pending (advance_to t p).
Proof. apply one_pending_advance. Qed.

Lemma on_message_timers req p :
  timers (on_message req p) = timers p /\
  debounceTimerId (on_message req p) = debounceTimerId p.
Proof.
  unfold on_message.
  destruct (bool_decide _); [|easy].
  destruct (settings req) as [st|]; [|easy].
  cbn [with_flags with_doc isExtensionEnabled].
  destruct (not_false _); split; reflexivity.
Qed.

Lemma one_pending_step ev p : one_pending p -> one_pending (step p ev).
Proof.
  intros H. destruct ev as [t batch|t req|t]; unfold step.
  - unfold deliver. cbn [fst snd].
    apply (one_pending_advance_to t) in H.
    destruct (observing _); [now apply one_pending_on_mutations | exact H].
  - apply (one_pending_advance_to t) in H.
    assert (Hq : one_pending (on_message req (advance_to t p))).
    { destruct (on_message_timers req (advance_to t p)) as [Ht Hd].
      unfold one_pending. now rewrite Ht, Hd. }
    unfold receive. destruct (observing _);
      [now apply one_pending_on_mutations | exact Hq].
  - now apply one_pending_advance_to.
Qed.

Lemma one_pending_execute evs : forall p,
  one_pending p -> one_pending (execute evs p).
Proof.
  induction evs as [|ev evs IH]; intros p H; [exact H|].
  apply IH, one_pending_step, H.
Qed.

Lemma init_timers p :
  timers (init p) = timers p /\ debounceTimerId (init p) = debounceTimerId p.
Proof.
  unfold init. destruct (storage p) as [st|]; [|easy].
  cbn [with_flags isExtensionEnabled]. destruct (not_false _); split; reflexivity.
Qed.

(** X14: from initialisation on, whatever mutation batches, messages and
    waits follow, at most one debounce timer is pending, and it is the one
    whose identifier the script holds. *)
Theorem at_most_one_pending_timer evs d st :
  let p := execute evs (init (initial_page d st)) in
  (length (timers p) <= 1)%nat /\
  forall tm, tm ∈ timers p -> debounceTimerId p = Some tm.1.
Proof.
  intros p.
  assert (H : one_pending p).
  { apply one_pending_execute. left.
    now rewrite (proj1 (init_timers _)). }
  destruct H as [H|(id & due & H & Hid)]; rewrite H.
  - split; [cbn; lia|]. intros tm Htm. now apply elem_of_nil in Htm.
  - split; [cbn; lia|]. intros tm Htm.
    apply list_elem_of_singleton in Htm. now subst tm.
Qed.

(** With the stored flag off, nothing the watcher does changes the page. *)
Lemma fire_off st p0 p :
  not_false (get st KEY_EXTENSION_ENABLED) = false ->
  off_like st p0 p -> off_like st p0 (fire p).
Proof.
  intros Hoff (Hd & Hs & Hc). unfold fire, timer_records.
  rewrite Hs, Hoff.
  assert (Hq : off_like st p0 (processAllTweetsIfEnabled p)).
  { unfold processAllTweetsIfEnabled, off_like.
    cbn [with_call storage]. rewrite Hs.
    cbn [with_flags isExtensionEnabled]. rewrite Hoff.
    cbn [doc storage]. repeat split; [exact Hd | exact Hs|].
    rewrite <- Hc. unfold scanner_invocations, with_flags, with_call. cbn [calls].
    rewrite filter_app, filter_cons, filter_nil.
    destruct (decide _); [discriminate|]. now rewrite app_nil_r. }
  destruct (observing _); exact Hq.
Qed.

Lemma advance_off st p0 t f : forall p,
  not_false (get st KEY_EXTENSION_ENABLED) = false ->
  off_like st p0 p -> off_like st p0 (advance f t p).
Proof.
  induction f as [|f IH]; intros p Hoff H; [exact H|].
  cbn [advance]. destruct (earliest (timers p)) as [[id due]|]; [|exact H].
  destruct (bool_decide (due <= t)); [|exact H].
  apply IH; [exact Hoff|]. apply fire_off; [exact Hoff|exact H].
Qed.

Lemma deliver_off st p0 p ev :
  not_false (get st KEY_EXTENSION_ENABLED) = false ->
  off_like st p0 p -> off_like st p0 (deliver p ev).
Proof.
  intros Hoff H. unfold deliver.
  assert (Ha : off_like st p0 (advance_to ev.1 p)) by now apply advance_off.
  destruct (observing _); [|exact Ha].
  unfold on_mutations. destruct (existsb _ _); [|exact Ha].
  destruct (debounceTimerId _); exact Ha.
Qed.

(** X15: when the stored enabled flag is [false], initialisation and any
    sequence of mutation batches leave the document as it is and never
    invoke the Feed Scanner. *)
Theorem disabled_extension_is_inert st evs p :
  storage p = Some st ->
  not_false (get st KEY_EXTENSION_ENABLED) = false ->
  doc (run evs (init p)) = doc p /\
  scanner_invocations (run evs (init p)) = scanner_invocations p.
Proof.
  intros Hs Hoff.
  assert (H0 : off_like st p (init p)).
  { unfold init, off_like. rewrite Hs. cbn [with_flags isExtensionEnabled].
    rewrite Hoff. repeat split. exact Hs. }
  assert (H : off_like st p (run evs (init p))).
  { unfold run. revert H0. generalize (init p).
    induction evs as [|ev evs IH]; intros q Hq; [exact Hq|].
    cbn [fold_left]. now apply IH, deliver_off. }
  destruct H as (Hd & _ & Hc). now split.
Qed.





End Watcher.

(** ** Debouncing *)

Section Debounce.

Variable toLowerCase : jsstring -> jsstring.

Abbreviation processAllTweets := (processAllTweets toLowerCase).
Abbreviation processAllTweetsIfEnabled := (processAllTweetsIfEnabled toLowerCase).
Abbreviation scan := (scan toLowerCase).
Abbreviation scan_records := (scan_records toLowerCase).
Abbreviation fire := (fire toLowerCase).
Abbreviation advance_to := (advance_to toLowerCase).
Abbreviation deliver := (deliver toLowerCase).
Abbreviation run := (run toLowerCase).
Abbreviation init := (init toLowerCase).











End Debounce.

(** ** Clicks on the open control *)

Lemma BUTTON_TEXT_DEFAULT_nonempty : nonempty BUTTON_TEXT_DEFAULT = true.
Proof. vm_compute. reflexivity. Qed.

Lemma set_textContent_nonempty text i t a ls cs :
  nonempty text = true ->
  set_textContent text (Element i t a ls cs) = Element i t a ls [TextNode text].
Proof. destruct text; [discriminate|reflexivity]. Qed.

Lemma set_textContent_attrs text i t a ls cs :
  exists cs', set_textContent text (Element i t a ls cs) = Element i t a ls cs'.
Proof. cbn [set_textContent]. eauto. Qed.

(** X17: a whole click on an "open" control in its initial state, the
    reset timer included, leaves the control as it was (enabled, with the
    default label), however the search request ends. *)
Theorem open_click_restores_the_control button worldName d :
  pristine button ->
  (open_click button worldName d).1 = button.
Proof.
  intros (i & t & a & ls & -> & Ha).
  unfold open_click, open_click_start.
  set (b := Element i t a ls [TextNode BUTTON_TEXT_DEFAULT]).
  destruct (nonempty (prop "data-world-id" b)).
  - cbn [fst]. unfold open_click_reset_known, b.
    destruct (set_textContent_attrs BUTTON_TEXT_SUCCESS i t a ls
                [TextNode BUTTON_TEXT_DEFAULT]) as [cs' ->].
    apply set_textContent_nonempty, BUTTON_TEXT_DEFAULT_nonempty.
  - unfold b, set_disabled. cbn [setAttribute].
    destruct (set_textContent_attrs BUTTON_TEXT_LOADING i t (<["disabled" := []]> a) ls
                [TextNode BUTTON_TEXT_DEFAULT]) as [cs1 ->].
    assert (H : exists cs2 e2,
               open_click_settle (Element i t (<["disabled" := []]> a) ls cs1) d
               = (Element i t (<["disabled" := []]> a) ls cs2, e2)).
    { unfold open_click_settle.
      destruct d as [|[r|]]; try (cbn [set_textContent]; eauto).
      destruct (r_success r && truthy (r_worldId r)); [cbn [set_textContent]; eauto|].
      destruct (r_needsAuth r); cbn [set_textContent]; eauto. }
    destruct H as (cs2 & e2 & ->). cbn [fst].
    unfold open_click_reset, set_disabled. cbn [removeAttribute].
    rewrite delete_insert_id by exact Ha.
    apply set_textContent_nonempty, BUTTON_TEXT_DEFAULT_nonempty.
Qed.

Lemma open_click_settle_effects button d :
  let effects := (open_click_settle button d).2 in
  opens_window effects = match world_page d with Some url => [url] | None => [] end /\
  alerts effects = (if asks_login d then [AUTH_ALERT] else []) /\
  resets effects = [BUTTON_RESET_DELAY_MS] /\
  (world_page d = None \/ asks_login d = false).
Proof.
  unfold open_click_settle, world_page, asks_login.
  destruct d as [|[r|]]; cbn [snd]; try (repeat split; auto; fail).
  destruct (r_success r && truthy (r_worldId r)); cbn [negb andb snd].
  - repeat split; auto.
  - destruct (r_needsAuth r); cbn [snd]; repeat split; auto.
Qed.

Lemma open_click_effects button worldName d :
  (open_click button worldName d).2 =
  if nonempty (prop "data-world-id" button)
  then [Perform (WindowOpen (VRCHAT_WEB_BASE ++ js "/world/"
                             ++ prop "data-world-id" button));
        ResetAfter BUTTON_RESET_DELAY_MS]
  else Perform (SendSearchWorld worldName)
       :: (open_click_settle
             (set_textContent BUTTON_TEXT_LOADING (set_disabled true button)) d).2.
Proof.
  unfold open_click, open_click_start, on_click.
  destruct (nonempty (prop "data-world-id" button)); [reflexivity|].
  destruct (open_click_settle _ d) as [b2 e2]. reflexivity.
Qed.

(** X18: whatever the answer, a click on an "open" control schedules
    exactly one reset, after the reset delay, and shows at most one of a
    world page and an alert. *)
Theorem open_click_resets_once button worldName d :
  let effects := (open_click button worldName d).2 in
  resets effects = [BUTTON_RESET_DELAY_MS] /\
  (length (opens_window effects) + length (alerts effects) <= 1)%nat.
Proof.
  cbn zeta. rewrite open_click_effects.
  destruct (nonempty (prop "data-world-id" button)).
  { split; [reflexivity|]. cbn. lia. }
  destruct (open_click_settle_effects
              (set_textContent BUTTON_TEXT_LOADING (set_disabled true button)) d)
    as (Ho & Ha & Hr & Hx).
  unfold resets, opens_window, alerts in *. cbn [omap list_omap].
  rewrite Ho, Ha, Hr. split; [reflexivity|].
  destruct Hx as [-> | ->]; [destruct (asks_login d)|destruct (world_page d)];
    cbn [length]; lia.
Qed.

Section Search.

Variable toLowerCase : jsstring -> jsstring.

Abbreviation searchWorld := (searchWorld toLowerCase).
Abbreviation is_exact_match := (is_exact_match toLowerCase).
Abbreviation selected := (selected toLowerCase).

Lemma find_first {A} (p : A -> bool) l x :
  find p l = Some x ->
  exists l1 l2, l = l1 ++ x :: l2 /\ p x = true /\ Forall (fun y => p y = false) l1.
Proof.
  induction l as [|y l IH]; [discriminate|]. cbn [find].
  destruct (p y) eqn:E.
  - intros [= ->]. exists [], l. repeat split; [exact E | constructor].
  - intros H. destruct (IH H) as (l1 & l2 & -> & Hx & Hl).
    exists (y :: l1), l2. repeat split; [exact Hx | now constructor].
Qed.

Lemma find_none {A} (p : A -> bool) l :
  find p l = None -> Forall (fun y => p y = false) l.
Proof.
  induction l as [|y l IH]; [constructor|]. cbn [find].
  destruct (p y) eqn:E; [discriminate|]. intros H. constructor; auto.
Qed.

Lemma searchWorld_cases {U} worldName (auth : fetched U) search :
  let r := searchWorld worldName auth search in
  if blank worldName then r = failure (js "ワールド名を入力してください")
  else if negb (isAuthenticated (checkAuthStatus auth))
  then r = Reply false None None true false None
  else if negb (bool_decide (is_Some (encodeURIComponent (trim worldName))))
  then r = failure (js "検索エラー: " ++ URI_MALFORMED)
  else match search with
       | Response true (Value (Worlds (w :: ws))) =>
         exists s, selected (trim worldName) (w :: ws) = Some s /\
                   r = Reply true (w_id s) (w_name s) false false None
       | Response true (Value _) => r = Reply false None None false true None
       | Response true (Throws m) => r = failure (js "検索エラー: " ++ m)
       | NetworkError m => r = failure (js "検索エラー: " ++ m)
       | Response false _ => r = failure (js "API リクエストに失敗しました")
       end.
Proof.
  cbn zeta. unfold searchWorld, blank.
  destruct (negb (nonempty worldName) || _); [reflexivity|].
  destruct (negb (isAuthenticated (checkAuthStatus auth))); [reflexivity|].
  destruct (encodeURIComponent (trim worldName)) as [e|]; [|reflexivity].
  rewrite bool_decide_eq_true_2 by eauto. cbn [negb].
  destruct search as [m|[|] [m|[|[|w ws]]]]; try reflexivity.
  unfold selected.
  destruct (find _ (w :: ws)) as [s|]; eexists; split; reflexivity.
Qed.

(** X19: every reply of [searchWorld] reports exactly one of the four
    outcomes: success, sign-in needed, nothing found, or an error. *)
Theorem searchWorld_has_one_outcome {U} worldName (auth : fetched U) search :
  outcome_count (searchWorld worldName auth search) = 1%nat.
Proof.
  pose proof (searchWorld_cases worldName auth search) as H. cbn zeta in H.
  destruct (blank worldName); [now rewrite H|].
  destruct (negb _); [now rewrite H|].
  destruct (negb _); [now rewrite H|].
  destruct search as [m|[|] [m|[|[|w ws]]]]; try (now rewrite H).
  destruct H as (s & _ & ->). reflexivity.
Qed.

(** X20: a successful reply of [searchWorld] was given for a non-blank
    name by an authenticated search, and names a world of the result list:
    the first whose name equals the trimmed name up to case, or, when there
    is none, the first of the list. *)
Theorem searchWorld_prefers_exact_match {U} worldName (auth : fetched U) search :
  let r := searchWorld worldName auth search in
  r_success r = true ->
  blank worldName = false /\
  isAuthenticated (checkAuthStatus auth) = true /\
  is_Some (encodeURIComponent (trim worldName)) /\
  exists worlds s,
    search = Response true (Value (Worlds worlds)) /\
    s ∈ worlds /\ r_worldId r = w_id s /\ r_worldName r = w_name s /\
    ((exists before after,
        worlds = before ++ s :: after /\
        is_exact_match (trim worldName) s = true /\
        Forall (fun w => is_exact_match (trim worldName) w = false) before)
     \/ (Forall (fun w => is_exact_match (trim worldName) w = false) worlds /\
         head worlds = Some s)).
Proof.
  intros r. pose proof (searchWorld_cases worldName auth search) as H.
  cbn zeta in H. fold r in H. intros Hr.
  destruct (blank worldName); [rewrite H in Hr; discriminate|].
  destruct (negb _) eqn:Ha; [rewrite H in Hr; discriminate|].
  apply negb_false_iff in Ha.
  destruct (negb _) eqn:He; [rewrite H in Hr; discriminate|].
  apply negb_false_iff, bool_decide_eq_true in He.
  destruct search as [m|[|] [m|[|[|w ws]]]]; try (rewrite H in Hr; discriminate).
  destruct H as (s & Hs & ->). split; [reflexivity|]. split; [exact Ha|].
  split; [exact He|].
  exists (w :: ws), s. split; [reflexivity|]. cbn [r_worldId r_worldName].
  unfold selected in Hs.
  destruct (find _ (w :: ws)) as [s'|] eqn:Hf.
  - injection Hs as ->. apply find_first in Hf as (l1 & l2 & E & Hx & Hl).
    rewrite E. repeat split; [|left; eauto].
    apply elem_of_app. right. apply list_elem_of_here.
  - apply find_none in Hf. cbn [head] in Hs. injection Hs as ->.
    repeat split; [apply list_elem_of_here | right; split; [exact Hf|reflexivity]].
Qed.

End Search.

Lemma createLinkButton_no_id worldName :
  prop "data-world-id" (createLinkButton worldName) = [].
Proof. reflexivity. Qed.

Section EndToEnd.

Variable toLowerCase : jsstring -> jsstring.

Abbreviation searchWorld := (searchWorld toLowerCase).

Lemma trimmed_not_blank name : name <> [] -> trim name = name -> blank name = false.
Proof.
  intros Hne Ht. unfold blank. rewrite Ht.
  destruct name; [congruence|reflexivity].
Qed.

(** X21: for a name that [extractWorldName] returned, a click on the "open"
    control built for it, answered by [searchWorld] for an authenticated
    user with a result list whose selected world has an identifier, sends
    the search request, opens the page of that world, and schedules the
    reset; the name is never rejected as blank or malformed. *)
Theorem extracted_name_opens_selected_world {U}
    text name (auth : fetched U) worlds s wid :
  extractWorldName text = Some name ->
  isAuthenticated (checkAuthStatus auth) = true ->
  selected toLowerCase name worlds = Some s ->
  w_id s = Some wid -> nonempty wid = true ->
  (open_click (createLinkButton name) name
     (Delivered (Some (searchWorld name auth (Response true (Value (Worlds worlds))))))).2
  = [Perform (SendSearchWorld name);
     Perform (WindowOpen (VRCHAT_WEB_BASE ++ js "/world/" ++ wid));
     ResetAfter BUTTON_RESET_DELAY_MS].
Proof.
  intros Hx Ha Hs Hw Hne.
  destruct (extractWorldName_clean _ _ Hx) as (Hn & Hsur & Ht).
  pose proof (searchWorld_cases toLowerCase name auth
                (Response true (Value (Worlds worlds)))) as H.
  cbn zeta in H. rewrite (trimmed_not_blank _ Hn Ht), Ha, Ht in H.
  rewrite bool_decide_eq_true_2 in H
    by (apply encodeURIComponent_total, Hsur).
  cbn [negb] in H.
  destruct worlds as [|w ws]; [discriminate|].
  destruct H as (s' & Hs' & Hr). rewrite Hs in Hs'. injection Hs' as <-.
  rewrite open_click_effects, createLinkButton_no_id. cbn [nonempty].
  f_equal. unfold open_click_settle. rewrite Hr. cbn [r_success r_worldId andb].
  rewrite Hw. cbn [truthy default from_option]. rewrite Hne. reflexivity.
Qed.

End EndToEnd.

(** ** Settings between the popup and the page *)

Lemma popup_settings_get t :
  get (popup_settings t) KEY_EXTENSION_ENABLED = JBool (enabledToggle t) /\
  get (popup_settings t) KEY_SHOW_OPEN_BTN = JBool (default true (showOpenBtnToggle t)) /\
  get (popup_settings t) KEY_SHOW_SEARCH_BTN
  = JBool (default true (showSearchBtnToggle t)).
Proof.
  unfold get, popup_settings.
  rewrite lookup_insert_eq.
  rewrite (lookup_insert_ne _ KEY_EXTENSION_ENABLED KEY_SHOW_OPEN_BTN) by discriminate.
  rewrite lookup_insert_eq.
  rewrite (lookup_insert_ne _ KEY_EXTENSION_ENABLED KEY_SHOW_SEARCH_BTN) by discriminate.
  rewrite (lookup_insert_ne _ KEY_SHOW_OPEN_BTN KEY_SHOW_SEARCH_BTN) by discriminate.
  rewrite lookup_insert_eq. easy.
Qed.

Lemma stored_settings_get t st key :
  is_Some (popup_settings t !! key) ->
  get (storage_set (popup_settings t) st) key = get (popup_settings t) key.
Proof.
  intros [v Hv]. unfold get, storage_set.
  now rewrite (lookup_union_Some_l _ _ _ _ Hv), Hv.
Qed.

Lemma stored_settings t st :
  let s := storage_set (popup_settings t) st in
  get s KEY_EXTENSION_ENABLED = JBool (enabledToggle t) /\
  get s KEY_SHOW_OPEN_BTN = JBool (default true (showOpenBtnToggle t)) /\
  get s KEY_SHOW_SEARCH_BTN = JBool (default true (showSearchBtnToggle t)).
Proof.
  cbn zeta. destruct (popup_settings_get t) as (H1 & H2 & H3).
  rewrite !stored_settings_get; [easy|..]; unfold popup_settings.
  - rewrite !lookup_insert_ne by discriminate. rewrite lookup_insert_eq. eauto.
  - rewrite lookup_insert_ne by discriminate. rewrite lookup_insert_eq. eauto.
  - rewrite lookup_insert_eq. eauto.
Qed.

Lemma not_false_JBool b : not_false (JBool b) = b.
Proof. now destruct b. Qed.


Section Popup.

Variable toLowerCase : jsstring -> jsstring.

Abbreviation on_message := (on_message toLowerCase).
Abbreviation init := (init toLowerCase).

Lemma on_message_flags req st p :
  action req = ACTION_UPDATE_SETTINGS -> settings req = Some st ->
  page_flags (on_message req p) =
  (not_false (get st KEY_EXTENSION_ENABLED), not_false (get st KEY_SHOW_OPEN_BTN),
   not_false (get st KEY_SHOW_SEARCH_BTN)).
Proof.
  intros Ha Hs. unfold on_message. rewrite Ha, Hs, bool_decide_eq_true_2 by reflexivity.
  cbn [with_flags with_doc isExtensionEnabled].
  destruct (not_false (get st KEY_EXTENSION_ENABLED)); reflexivity.
Qed.

Lemma init_flags st p :
  storage p = Some st ->
  page_flags (init p) =
  (not_false (get st KEY_EXTENSION_ENABLED), not_false (get st KEY_SHOW_OPEN_BTN),
   not_false (get st KEY_SHOW_SEARCH_BTN)).
Proof.
  intros Hs. unfold init. rewrite Hs.
  cbn [with_flags isExtensionEnabled].
  destruct (not_false (get st KEY_EXTENSION_ENABLED)); reflexivity.
Qed.

(** X23: the flags of the content script are what the popup shows, after
    the message of [updateSettings] and after the initialisation of a page
    loaded from the storage that [updateSettings] wrote. *)
Theorem toggles_reach_the_content_script t st p d :
  page_flags (on_message (settings_message t) p) = shown t /\
  page_flags (init (initial_page d (Some (storage_set (popup_settings t) st)))) = shown t.
Proof.
  split.
  - rewrite (on_message_flags _ (popup_settings t)) by reflexivity.
    destruct (popup_settings_get t) as (-> & -> & ->).
    now rewrite !not_false_JBool.
  - rewrite (init_flags (storage_set (popup_settings t) st)) by reflexivity.
    destruct (stored_settings t st) as (-> & -> & ->).
    now rewrite !not_false_JBool.
Qed.

(** X24: when the popup is opened, its three toggles show what the content
    script of a page loaded from the same storage uses as its flags,
    whatever is stored and also when the storage cannot be read. *)
Theorem popup_and_content_script_agree result e o s d :
  shown (loadSettings result (all_toggles e o s))
  = page_flags (init (initial_page d result)).
Proof.
  destruct result as [st|]; [|reflexivity].
  rewrite (init_flags st) by reflexivity. reflexivity.
Qed.

End Popup.

(** ** Credentials *)

Lemma uri_unreserved_ascii c :
  uri_unreserved c = true -> is_printable_ascii c = true /\ c <> 0x3A /\ c <> 0x25.
Proof.
  unfold uri_unreserved, is_printable_ascii, in_range.
  remember (set "-_.!~*'()") as cl eqn:E. vm_compute in E. subst cl.
  cbn [class_mem]. rewrite !orb_true_iff, !andb_true_iff, !Z.eqb_eq, !Z.leb_le.
  lia.
Qed.

Lemma url_safe_ascii c :
  url_safe c = true -> is_printable_ascii c = true /\ c <> 0x3A.
Proof.
  unfold url_safe. rewrite orb_true_iff, Z.eqb_eq. intros [H| ->].
  - apply uri_unreserved_ascii in H. tauto.
  - split; [reflexivity|discriminate].
Qed.

(** X25: the credentials string of [login] consists of printable ASCII
    characters, and its only colon is the separator between the encoded
    user name and the encoded password. *)
Theorem credentials_are_unambiguous username password s :
  Forall (fun c => is_code_unit c = true) username ->
  Forall (fun c => is_code_unit c = true) password ->
  credentials username password = Some s ->
  Forall (fun c => is_printable_ascii c = true) s /\
  exists u p, s = u ++ [0x3A] ++ p /\ (0x3A ∉ u) /\ (0x3A ∉ p) /\
              encodeURIComponent username = Some u /\
              encodeURIComponent password = Some p.
Proof.
  intros Hu Hp. unfold credentials.
  destruct (encodeURIComponent username) as [u|] eqn:Eu; [|discriminate].
  destruct (encodeURIComponent password) as [p|] eqn:Ep; [|discriminate].
  intros [= <-].
  pose proof (encodeURIComponent_safe_len _ _ _ (le_n _) Hu Eu) as Su.
  pose proof (encodeURIComponent_safe_len _ _ _ (le_n _) Hp Ep) as Sp.
  assert (A : forall l, Forall (fun c => url_safe c = true) l ->
                Forall (fun c => is_printable_ascii c = true) l /\ (0x3A ∉ l)).
  { induction 1 as [|c l Hc _ [IH1 IH2]].
    - split; [constructor | apply not_elem_of_nil].
    - apply url_safe_ascii in Hc as [Hc1 Hc2].
      split; [now constructor|]. rewrite not_elem_of_cons. split; [congruence|exact IH2]. }
  destruct (A u Su) as [Au Nu]. destruct (A p Sp) as [Ap Np].
  split.
  - apply Forall_app. split; [exact Au|]. now constructor.
  - exists u, p. easy.
Qed.

(** * The properties on the sample data *)

(** A Post without the trigger hashtag has no Control Group after two
    calls. *)
Lemma processTweet_idempotent_counterexample :
  let twice :=
    processTweet ascii_lower true true
      (processTweet ascii_lower true true plain_tweet) in
  length (controlGroups twice) = 0%nat /\ length (controlGroups twice) <> 1%nat.
Proof. split; [vm_compute; reflexivity | vm_compute; discriminate]. Qed.

Lemma processTweet_idempotent_witness :
  let twice :=
    processTweet ascii_lower true true
      (processTweet ascii_lower true true sample_tweet) in
  passes_gates ascii_lower true true sample_tweet = true /\
  controlGroups sample_tweet = [] /\
  length (controlGroups twice) = 1%nat.
Proof.
  intros twice.
  assert (Hg : passes_gates ascii_lower true true sample_tweet = true)
    by (vm_compute; reflexivity).
  assert (H0 : controlGroups sample_tweet = []) by (vm_compute; reflexivity).
  split; [exact Hg|]. split; [exact H0|].
  assert (H : length (controlGroups twice)
              = (length (controlGroups sample_tweet)
                 + if passes_gates ascii_lower true true sample_tweet then 1 else 0)%nat).
  { exact (proj2 (proj2 (processTweet_idempotent ascii_lower true true
             (Some 10%nat) "ARTICLE" (attrs_of [("data-testid", js "tweet")]) []
             [el 11 "DIV" [("data-testid", js "tweetText")]
                [TextNode (js "World: Alpha #VRChat_World紹介 ");
                 el 12 "A" [("href", js "https://vrchat.com/home/world/" ++ sample_id)]
                    [TextNode (js "link")]];
              el 13 "DIV" [("role", js "group")] []]))). }
  rewrite H, Hg, H0. reflexivity.
Defined.

Lemma pattern_priority_witness :
  Forall (fun c => c <> 0x57 /\ c <> 0x77) (js "see: ") /\
  extractWorldName (js "see: " ++ js "World: Alpha" ++ 0x0A :: js "🌐 Beta")
  = Some (js "Alpha").
Proof.
  assert (H : Forall (fun c => c <> 0x57 /\ c <> 0x77) (js "see: "))
    by (repeat constructor; discriminate).
  split; [exact H|].
  exact (proj1 (proj2 (proj2 pattern_priority)) (js "see: ") (js "🌐 Beta") H).
Defined.

(** A candidate with 37 characters after the prefix, and one in upper case,
    yield an identifier. *)
Lemma identifier_grammar_counterexample :
  length candidate_37 = 42%nat /\
  extractWorldIdFromUrl (world_url candidate_37) = Some (take 41 candidate_37) /\
  extractWorldIdFromUrl (world_url candidate_37) <> None /\
  extractWorldIdFromUrl (world_url candidate_upper) = Some candidate_upper.
Proof. repeat split; try (vm_compute; reflexivity). vm_compute. discriminate. Qed.

Lemma identifier_grammar_witness :
  (forallb is_token_char candidate_35 = true /\
   extractWorldIdFromUrl (world_url candidate_35) = None) /\
  (forallb is_token_char candidate_usr = true /\
   chars_match fl_i (literal "wrld_") (take 5 candidate_usr) = false /\
   extractWorldIdFromUrl (launch_url candidate_usr) = None) /\
  is_world_id (take 41 candidate_37) = true.
Proof.
  destruct identifier_grammar as (Hshape & Hiff & _ & Hprefix & _).
  split; [|split].
  - split; [vm_compute; reflexivity|].
    rewrite (proj1 (Hiff candidate_35 eq_refl)). vm_compute. reflexivity.
  - split; [vm_compute; reflexivity|]. split; [vm_compute; reflexivity|].
    apply (Hprefix candidate_usr); vm_compute; reflexivity.
  - apply (Hshape (world_url candidate_37)). vm_compute. reflexivity.
Defined.

Lemma hashtag_gate_witness :
  includes (ascii_lower (tweetText_of plain_tweet)) TARGET_HASHTAG = false /\
  extractWorldName (tweetText_of plain_tweet) = Some (js "Alpha") /\
  processTweet ascii_lower true true plain_tweet = mark plain_tweet /\
  controlGroups (processTweet ascii_lower true true plain_tweet) = [].
Proof.
  assert (H : includes (ascii_lower (tweetText_of plain_tweet)) TARGET_HASHTAG = false)
    by (vm_compute; reflexivity).
  split; [exact H|]. split; [vm_compute; reflexivity|].
  exact (hashtag_gate ascii_lower true true plain_tweet H).
Defined.

Lemma link_precedence_witness :
  exists openBtn,
    childNodes (controlGroup true true (Some (js "Alpha")) (Some sample_id))
      = [openBtn; createSearchButton (js "Alpha")] /\
    getAttribute "data-world-id" openBtn = Some sample_id /\
    click openBtn = [WindowOpen (VRCHAT_WEB_BASE ++ js "/world/" ++ sample_id)] /\
    safeEncodeURIComponent (js "Alpha") = Some (js "Alpha").
Proof.
  assert (Hp : hasAttribute PROCESSED_ATTR sample_tweet = false)
    by (vm_compute; reflexivity).
  assert (Hg : includes (ascii_lower (tweetText_of sample_tweet)) TARGET_HASHTAG = true)
    by (vm_compute; reflexivity).
  assert (Hn : worldName_of sample_tweet = Some (js "Alpha"))
    by (vm_compute; reflexivity).
  assert (Hi : foundWorldId_of sample_tweet = Some sample_id)
    by (vm_compute; reflexivity).
  assert (Hb : querySelector SEL_BTN sample_tweet = None)
    by (vm_compute; reflexivity).
  destruct (link_precedence ascii_lower sample_tweet (js "Alpha") sample_id
              Hp Hg Hn Hi Hb) as ((openBtn & H1 & H2 & H3 & _) & _).
  exists openBtn. split; [exact H1|]. split; [exact H2|]. split; [exact H3|].
  vm_compute. reflexivity.
Defined.

Lemma settings_update_resets_witness :
  let p := init ascii_lower (sample_page (Some ∅)) in
  let p' := on_message ascii_lower (update_request disabled) p in
  length (doc_querySelectorAll SEL_CONTAINER (doc p)) = 1%nat /\
  doc_querySelectorAll SEL_CONTAINER (doc p') = [] /\
  doc_querySelectorAll SEL_PROCESSED (doc p') = [] /\
  calls p' = calls p.
Proof.
  intros p p'.
  assert (He : not_false (get disabled KEY_EXTENSION_ENABLED) = false)
    by (vm_compute; reflexivity).
  destruct (settings_update_resets ascii_lower (update_request disabled) disabled p
              eq_refl eq_refl) as (_ & _ & _ & Hcalls & Hoff).
  split; [vm_compute; reflexivity|].
  destruct (Hoff He) as [Hc Hm].
  split; [exact Hc|]. split; [exact Hm|].
  unfold p'. rewrite Hcalls, He. apply app_nil_r.
Defined.



Lemma flags_default_true_witness :
  let p := init ascii_lower (sample_page (Some disabled)) in
  isExtensionEnabled p = false /\ showOpenBtn p = true /\ showSearchBtn p = true.
Proof.
  intros p.
  destruct (flags_default_true ascii_lower) as (_ & _ & Hinit & _).
  destruct (Hinit (sample_page (Some disabled)) disabled eq_refl) as (He & Ho & Hs).
  subst p. rewrite He, Ho, Hs. repeat split.
Defined.

Lemma extracted_name_is_clean_witness :
  extractWorldName (js "World: Alpha") = Some (js "Alpha") /\
  js "Alpha" <> [] /\
  Forall (fun c => is_surrogate c = false) (js "Alpha") /\
  trim (js "Alpha") = js "Alpha".
Proof.
  assert (H : extractWorldName (js "World: Alpha") = Some (js "Alpha"))
    by (vm_compute; reflexivity).
  split; [exact H|]. exact (extracted_name_is_clean _ _ H).
Defined.

Lemma safeEncodeURIComponent_alphabet_witness :
  safeEncodeURIComponent (js "Alpha 野") = Some (js "Alpha%20%E9%87%8E") /\
  Forall (fun c => url_safe c = true) (js "Alpha%20%E9%87%8E").
Proof.
  assert (H : safeEncodeURIComponent (js "Alpha 野") = Some (js "Alpha%20%E9%87%8E"))
    by (vm_compute; reflexivity).
  split; [exact H|].
  apply (safeEncodeURIComponent_alphabet (js "Alpha 野")); [|exact H].
  apply Forall_forallb. vm_compute. reflexivity.
Defined.

Lemma search_control_encodes_the_whole_name_witness :
  extractWorldName (js "World: Alpha") = Some (js "Alpha") /\
  exists e, encodeURIComponent (js "Alpha") = Some e /\
            click (createSearchButton (js "Alpha"))
            = [WindowOpen (VRCHAT_WEB_BASE ++ js "/search/worlds/" ++ e)].
Proof.
  assert (H : extractWorldName (js "World: Alpha") = Some (js "Alpha"))
    by (vm_compute; reflexivity).
  split; [exact H|]. exact (search_control_encodes_the_whole_name _ _ H).
Defined.

Lemma getTextWithEmoji_without_images_witness :
  let e := el 21 "DIV" [("data-testid", js "tweetText")] [TextNode (js "World: Alpha")] in
  Forall (fun n => is_emoji_image n = false) (e :: descendants e) /\
  getTextWithEmoji (Some e) = textContent e.
Proof.
  intros e.
  assert (H : Forall (fun n => is_emoji_image n = false) (e :: descendants e))
    by (repeat constructor).
  split; [exact H|]. exact (getTextWithEmoji_without_images e H).
Defined.

Lemma found_identifier_is_well_formed_witness :
  findWorldId (querySelectorAll SEL_ANCHOR sample_tweet) = Some sample_id /\
  is_world_id sample_id = true.
Proof.
  assert (H : findWorldId (querySelectorAll SEL_ANCHOR sample_tweet) = Some sample_id)
    by (vm_compute; reflexivity).
  split; [exact H|].
  exact (proj1 (found_identifier_is_well_formed _ _ H)).
Defined.

Lemma settings_update_forgets_history_witness :
  let p := sample_page None in
  doc (on_message ascii_lower (update_request ∅)
         (on_message ascii_lower (update_request disabled) p))
  = doc (on_message ascii_lower (update_request ∅) p).
Proof.
  intros p.
  exact (settings_update_forgets_history ascii_lower (update_request disabled)
           (update_request ∅) ∅ p eq_refl eq_refl).
Defined.

Lemma disabling_restores_the_page_witness :
  let p := sample_page None in
  cleared (doc p) = doc p /\
  doc (on_message ascii_lower (update_request disabled)
         (on_message ascii_lower (update_request ∅) p))
  = doc p.
Proof.
  intros p.
  assert (H : cleared (doc p) = doc p) by (vm_compute; reflexivity).
  assert (He : not_false (get disabled KEY_EXTENSION_ENABLED) = false)
    by (vm_compute; reflexivity).
  split; [exact H|].
  exact (disabling_restores_the_page ascii_lower (update_request ∅)
           (update_request disabled) disabled p eq_refl eq_refl He H).
Defined.

Lemma no_controls_when_both_buttons_are_off_witness :
  let p := init ascii_lower (sample_page (Some ∅)) in
  length (doc_querySelectorAll SEL_CONTAINER (doc p)) = 1%nat /\
  doc_querySelectorAll SEL_CONTAINER
    (doc (on_message ascii_lower (update_request buttons_off) p)) = [].
Proof.
  intros p. split; [vm_compute; reflexivity|].
  apply (no_controls_when_both_buttons_are_off ascii_lower
           (update_request buttons_off) buttons_off p);
    vm_compute; reflexivity.
Defined.

Lemma disabled_extension_is_inert_witness :
  let p := sample_page (Some disabled) in
  let q := run ascii_lower [(10, [added]); (500, [added])] (init ascii_lower p) in
  doc q = doc p /\ scanner_invocations q = 0%nat.
Proof.
  intros p q.
  assert (He : not_false (get disabled KEY_EXTENSION_ENABLED) = false)
    by (vm_compute; reflexivity).
  exact (disabled_extension_is_inert ascii_lower disabled
           [(10, [added]); (500, [added])] p eq_refl He).
Defined.


Lemma open_click_restores_the_control_witness :
  pristine (createLinkButton (js "Alpha")) /\
  (open_click (createLinkButton (js "Alpha")) (js "Alpha") Rejected).1
  = createLinkButton (js "Alpha").
Proof.
  assert (H : pristine (createLinkButton (js "Alpha"))).
  { unfold pristine, createLinkButton. eexists _, _, _, _. split; [reflexivity|].
    vm_compute. reflexivity. }
  split; [exact H|]. exact (open_click_restores_the_control _ _ _ H).
Defined.

Lemma searchWorld_prefers_exact_match_witness :
  let r := searchWorld ascii_lower (js " Alpha ") signed_in
             (Response true (Value (Worlds sample_worlds))) in
  r_success r = true /\
  blank (js " Alpha ") = false /\
  r_worldId r = Some sample_id.
Proof.
  intros r.
  assert (H : r_success r = true) by (vm_compute; reflexivity).
  destruct (searchWorld_prefers_exact_match ascii_lower (js " Alpha ") signed_in
              (Response true (Value (Worlds sample_worlds))) H) as (Hb & _).
  split; [exact H|]. split; [exact Hb|]. vm_compute. reflexivity.
Defined.

Lemma extracted_name_opens_selected_world_witness :
  (open_click (createLinkButton (js "Alpha")) (js "Alpha")
     (Delivered (Some (searchWorld ascii_lower (js "Alpha") signed_in
                         (Response true (Value (Worlds sample_worlds))))))).2
  = [Perform (SendSearchWorld (js "Alpha"));
     Perform (WindowOpen (VRCHAT_WEB_BASE ++ js "/world/" ++ sample_id));
     ResetAfter BUTTON_RESET_DELAY_MS].
Proof.
  apply (extracted_name_opens_selected_world ascii_lower (js "World: Alpha") (js "Alpha")
           signed_in sample_worlds (World (Some sample_id) (Some (js "ALPHA"))) sample_id);
    vm_compute; reflexivity.
Defined.

Lemma credentials_are_unambiguous_witness :
  credentials (js "user:name") (js "p@ss") = Some (js "user%3Aname:p%40ss") /\
  Forall (fun c => is_printable_ascii c = true) (js "user%3Aname:p%40ss").
Proof.
  assert (H : credentials (js "user:name") (js "p@ss") = Some (js "user%3Aname:p%40ss"))
    by (vm_compute; reflexivity).
  split; [exact H|].
  refine (proj1 (credentials_are_unambiguous (js "user:name") (js "p@ss") _ _ _ H));
    apply Forall_forallb; vm_compute; reflexivity.
Defined.
